(** * The bounded-concurrency tree-processing pipeline

    A shallow embedding of [src/services/large-file-processor.ts]
    (class [LargeFileProcessor] and its [Semaphore]), of the
    [RealTimeProcessor] service and of [workers/figmaProcessor.worker.ts],
    followed by the properties of the specification that concern them.

    Conventions.  A JavaScript [number] that holds a count, an index or a
    millisecond timestamp is a [Z] (or a [nat] where the code can only
    count up from zero); [null] and [undefined] are [None]; an exception is
    an explicit error value; asynchronous code is a step function on an
    explicit state, one step per synchronous segment between two awaits. *)

From Stdlib Require Import ZArith QArith Lia.
From stdpp Require Import gmap strings list fin_maps.

Local Open Scope Z_scope.
Local Open Scope nat_scope.

#[local] Set Warnings "-clear-no-such-hyp".

(** ** Document tree: [FigmaNode], [flattenDocumentTree], [countNodes] *)

Module Tree.

(** [FigmaNode] of large-file-processor.ts.  The payload attributes
    (bounding box, fills, style) are opaque to the traversal and are left
    out; [children] may be absent, and an externally authored array may
    hold [null] entries. *)
#[local] Unset Elimination Schemes.
Inductive FigmaNode : Type :=
  mkNode (id name type : string) (children : option (list (option FigmaNode))).

#[local] Set Elimination Schemes.

Definition id (n : FigmaNode) : string := let 'mkNode i _ _ _ := n in i.
Definition name (n : FigmaNode) : string := let 'mkNode _ s _ _ := n in s.
Definition type (n : FigmaNode) : string := let 'mkNode _ _ t _ := n in t.
Definition children (n : FigmaNode) : option (list (option FigmaNode)) :=
  let 'mkNode _ _ _ c := n in c.

(** [FigmaNode & { depth: number }]: the spread copy [{ ...node, depth }]. *)
Definition FlatNode : Type := FigmaNode * nat.

(** The body of [flattenDocumentTree] for a non-null [node]: the node
    itself, then for each truthy child, in array order, the recursive
    result at [depth + 1]. *)
Fixpoint flattenNode (node : FigmaNode) (depth : nat) : list FlatNode :=
  (node, depth) ::
  match node with
  | mkNode _ _ _ (Some cs) =>
      flat_map (fun child : option FigmaNode =>
                  match child with
                  | Some c => flattenNode c (S depth)
                  | None => []
                  end) cs
  | mkNode _ _ _ None => []
  end.

(** [flattenDocumentTree(node, depth = 0)]: [if (!node) return []]. *)
Definition flattenDocumentTree (node : option FigmaNode) (depth : nat)
  : list FlatNode :=
  match node with
  | None => []
  | Some n => flattenNode n depth
  end.

(** [RealTimeProcessor.countNodes].  It reads [node.children] with no
    null test, so a null node raises a TypeError: [None] here.  The
    [reduce] adds the children's counts from left to right and an
    exception in any of them aborts the whole call. *)
Fixpoint countNodesOf (node : FigmaNode) : option nat :=
  match node with
  | mkNode _ _ _ (Some cs) =>
      option_map S
        (fold_left (fun (sum : option nat) (child : option FigmaNode) =>
                      match sum, child with
                      | Some s, Some c => option_map (Nat.add s) (countNodesOf c)
                      | _, _ => None
                      end) cs (Some 0))
  | mkNode _ _ _ None => Some 1
  end.

Definition countNodes (node : option FigmaNode) : option nat :=
  match node with
  | None => None
  | Some n => countNodesOf n
  end.

(** The number of non-null nodes reachable from the root through
    non-null nodes: what "counting only non-null nodes" means. *)
Fixpoint countNonNullOf (node : FigmaNode) : nat :=
  S match node with
    | mkNode _ _ _ (Some cs) =>
        list_sum (map (fun child : option FigmaNode =>
                         match child with
                         | Some c => countNonNullOf c
                         | None => 0
                         end) cs)
    | mkNode _ _ _ None => 0
    end.

Definition countNonNull (node : option FigmaNode) : nat :=
  match node with
  | None => 0
  | Some n => countNonNullOf n
  end.

(** A tree has a null entry when the root is null or some children
    array, at any depth below non-null nodes, holds a null. *)
Fixpoint nullFreeOf (node : FigmaNode) : bool :=
  match node with
  | mkNode _ _ _ (Some cs) =>
      forallb (fun child : option FigmaNode =>
                 match child with
                 | Some c => nullFreeOf c
                 | None => false
                 end) cs
  | mkNode _ _ _ None => true
  end.

Definition nullFree (node : option FigmaNode) : bool :=
  match node with
  | None => false
  | Some n => nullFreeOf n
  end.

(** Addresses.  A path is the list of child indices from the root; the
    node at a path exists when every node on the way is non-null. *)
Definition Path : Type := list nat.

Fixpoint subtreeAt (t : option FigmaNode) (p : Path) : option FigmaNode :=
  match p with
  | [] => t
  | i :: p' =>
      match t with
      | Some (mkNode _ _ _ (Some cs)) =>
          match cs !! i with
          | Some c => subtreeAt c p'
          | None => None
          end
      | _ => None
      end
  end.

(** The paths of the non-null nodes, in the order in which
    [flattenNode] visits them; [k] is the array index of the first
    element of the children list still to visit. *)
Fixpoint pathsOf (node : FigmaNode) : list Path :=
  [] ::
  match node with
  | mkNode _ _ _ (Some cs) =>
      (fix go (l : list (option FigmaNode)) (k : nat) : list Path :=
         match l with
         | [] => []
         | Some c :: l' => map (cons k) (pathsOf c) ++ go l' (S k)
         | None :: l' => go l' (S k)
         end) cs 0
  | mkNode _ _ _ None => []
  end.

Definition flattenPaths (t : option FigmaNode) : list Path :=
  match t with
  | None => []
  | Some n => pathsOf n
  end.

(** [p] is a proper ancestor address of [q]. *)
Definition properPrefix (p q : Path) : Prop :=
  exists r, r <> [] /\ q = p ++ r.

(** The children loop of [flattenDocumentTree], and of [pathsOf], on their
    own. *)
Definition flattenChildren (cs : list (option FigmaNode)) (depth : nat)
  : list FlatNode :=
  flat_map (fun child : option FigmaNode =>
              match child with
              | Some c => flattenNode c (S depth)
              | None => []
              end) cs.

Fixpoint childPaths (l : list (option FigmaNode)) (k : nat) : list Path :=
  match l with
  | [] => []
  | Some c :: l' => map (cons k) (pathsOf c) ++ childPaths l' (S k)
  | None :: l' => childPaths l' (S k)
  end.

(** The output entry [fn] is the node at address [p], at depth
    [base + length p]. *)
Definition atAddress (root : option FigmaNode) (base : nat)
  (p : Path) (fn : FlatNode) : Prop :=
  subtreeAt root p = Some fn.1 /\ fn.2 = base + length p.

End Tree.

(** ** Configuration: [ProcessingConfig] and the constructor *)

Module Config.

Record ProcessingConfig : Type := mkConfig {
  chunkSize : Z;
  maxConcurrentChunks : Z;
  enableVirtualization : bool;
  enableStreaming : bool;
  memoryThresholdMB : Z;
  maxRetriesPerChunk : Z;
  progressThrottleMS : Z
}.

(** [Partial<ProcessingConfig>]: every key may be absent. *)
Record PartialConfig : Type := mkPartial {
  chunkSize' : option Z;
  maxConcurrentChunks' : option Z;
  enableVirtualization' : option bool;
  enableStreaming' : option bool;
  memoryThresholdMB' : option Z;
  maxRetriesPerChunk' : option Z;
  progressThrottleMS' : option Z
}.

Definition noOverrides : PartialConfig :=
  mkPartial None None None None None None None.

(** [constructor(config = {})]: the defaults, then the spread [...config];
    a key that is present wins, whatever its value. *)
Definition constructor (config : PartialConfig) : ProcessingConfig :=
  {| chunkSize := default 50%Z (chunkSize' config);
     maxConcurrentChunks := default 3%Z (maxConcurrentChunks' config);
     enableVirtualization := default true (enableVirtualization' config);
     enableStreaming := default true (enableStreaming' config);
     memoryThresholdMB := default 100%Z (memoryThresholdMB' config);
     maxRetriesPerChunk := default 3%Z (maxRetriesPerChunk' config);
     progressThrottleMS := default 200%Z (progressThrottleMS' config) |}.

End Config.

(** ** Chunking: [Array.prototype.slice], [createChunks], [createBatches] *)

Module Chunking.

(** The relative index of [slice]: a negative argument counts from the
    end, and both are clamped to [0 .. len]. *)
Definition relativeIndex (len k : Z) : Z :=
  if (k <? 0)%Z then Z.max (len + k) 0 else Z.min k len.

(** [array.slice(start, end)] on integer arguments. *)
Definition slice {A : Type} (array : list A) (start finish : Z) : list A :=
  let len := Z.of_nat (length array) in
  let from := relativeIndex len start in
  let to := relativeIndex len finish in
  take (Z.to_nat (to - from)) (drop (Z.to_nat from) array).

(** The [for] loop of [createChunks]: [fuel] bounds the number of times
    the condition [i < array.length] is evaluated, [None] is a loop still
    running when the fuel is spent. *)
Fixpoint createChunksLoop {A : Type} (fuel : nat) (array : list A)
  (chunkSize i : Z) (chunks : list (list A)) : option (list (list A)) :=
  match fuel with
  | O => None
  | S fuel' =>
      if (i <? Z.of_nat (length array))%Z
      then createChunksLoop fuel' array chunkSize (i + chunkSize)%Z
             (chunks ++ [slice array i (i + chunkSize)%Z])
      else Some chunks
  end.

Definition createChunks {A : Type} (fuel : nat) (array : list A) (chunkSize : Z)
  : option (list (list A)) :=
  createChunksLoop fuel array chunkSize 0%Z [].

(** [RealTimeProcessor.createBatches]: the same loop, written again in
    that class. *)
Fixpoint createBatchesLoop {A : Type} (fuel : nat) (array : list A)
  (batchSize i : Z) (batches : list (list A)) : option (list (list A)) :=
  match fuel with
  | O => None
  | S fuel' =>
      if (i <? Z.of_nat (length array))%Z
      then createBatchesLoop fuel' array batchSize (i + batchSize)%Z
             (batches ++ [slice array i (i + batchSize)%Z])
      else Some batches
  end.

Definition createBatches {A : Type} (fuel : nat) (array : list A) (batchSize : Z)
  : option (list (list A)) :=
  createBatchesLoop fuel array batchSize 0%Z [].

(** The call site in [processLargeFigmaFile]:
    [this.createChunks(allNodes, this.config.chunkSize)]. *)
Definition chunksOfRun {A : Type} (fuel : nat) (config : Config.PartialConfig)
  (allNodes : list A) : option (list (list A)) :=
  createChunks fuel allNodes (Config.chunkSize (Config.constructor config)).

End Chunking.

(** ** The permit pool: class [Semaphore] *)

Module Sem.

(** [permits] and [queue] are the fields of the class; a queue entry is
    the closure pushed by a suspended [acquire], identified by the task
    that is waiting.  [holders] is not a field: it records which tasks
    have been handed a [release] closure and have not called it yet. *)
Record Semaphore : Type := mkSem {
  permits : Z;
  queue : list nat;
  holders : list nat
}.

(** [new Semaphore(permits)]. *)
Definition create (n : Z) : Semaphore :=
  {| permits := n; queue := []; holders := [] |}.

(** [acquire()] called by task [who]. *)
Definition acquire (who : nat) (s : Semaphore) : Semaphore :=
  if (0 <? permits s)%Z
  then {| permits := (permits s - 1)%Z; queue := queue s;
          holders := who :: holders s |}
  else {| permits := permits s; queue := queue s ++ [who];
          holders := holders s |}.

(** Remove one occurrence of a task from the holders. *)
Fixpoint dropHolder (who : nat) (l : list nat) : list nat :=
  match l with
  | [] => []
  | x :: l' => if Nat.eqb x who then l' else x :: dropHolder who l'
  end.

(** [release()], reached only through the closure handed out by
    [acquire]; in [processChunksWithConcurrency] each task calls it once,
    in its [finally].  It gives the permit back and, when a task waits,
    runs the head of the queue, which takes the permit at once. *)
Definition release (who : nat) (s : Semaphore) : option Semaphore :=
  if existsb (Nat.eqb who) (holders s) then
    let permits1 := (permits s + 1)%Z in
    match queue s with
    | next :: rest =>
        Some {| permits := (permits1 - 1)%Z; queue := rest;
                holders := next :: dropHolder who (holders s) |}
    | [] =>
        Some {| permits := permits1; queue := [];
                holders := dropHolder who (holders s) |}
    end
  else None.

Inductive Event : Type :=
| Acquire (who : nat)
| Release (who : nat).

Definition step (e : Event) (s : Semaphore) : option Semaphore :=
  match e with
  | Acquire who => Some (acquire who s)
  | Release who => release who s
  end.

(** An interleaving of acquire and release steps; [None] when some
    release is attempted by a task that holds no permit. *)
Fixpoint run (trace : list Event) (s : Semaphore) : option Semaphore :=
  match trace with
  | [] => Some s
  | e :: trace' =>
      match step e s with
      | Some s' => run trace' s'
      | None => None
      end
  end.

(** The number of tasks between their [acquire] and their [release]. *)
Definition executing (s : Semaphore) : Z := Z.of_nat (length (holders s)).

End Sem.

(** ** The retrying unit executor: [processChunkWithRetries] *)

Module Retry.

(** What a thrown value is, as far as the callers can tell: the
    [DOMException] named AbortError, or a failure of the work function. *)
Inductive Error : Type :=
| AbortError
| WorkError (code : nat).

Inductive Event : Type :=
| Executed (attempt : Z)        (* a call of [processChunk] *)
| Waited (ms : Z).              (* the [setTimeout] between two attempts *)

Inductive Result : Type :=
| Returned
| Threw (e : Error).

Section Loop.

(** [maxRetriesPerChunk]; the abort signal as read at the head of the
    iteration whose counter is [attempt]; the result of the call of
    [processChunk] made when the counter is [attempt]. *)
Variable maxRetriesPerChunk : Z.
Variable aborted : Z -> bool.
Variable work : Z -> option Error.

(** The [while] loop.  [fuel] bounds the number of iterations and [None]
    is a loop still running when it is spent. *)
Fixpoint retryLoop (fuel : nat) (attempt : Z) (log : list Event)
  : option (Result * list Event) :=
  if (attempt <? maxRetriesPerChunk)%Z then
    match fuel with
    | O => None
    | S fuel' =>
        if aborted attempt then Some (Threw AbortError, log)
        else
          match work attempt with
          | None => Some (Returned, log ++ [Executed attempt])
          | Some error =>
              let attempt' := (attempt + 1)%Z in
              if (attempt' >=? maxRetriesPerChunk)%Z
              then Some (Threw error, log ++ [Executed attempt])
              else retryLoop fuel' attempt'
                     (log ++ [Executed attempt; Waited (100 * 2 ^ attempt')%Z])
          end
    end
  else Some (Returned, log).

Definition processChunkWithRetries (fuel : nat) : option (Result * list Event) :=
  retryLoop fuel 0%Z [].

End Loop.

Definition executions (log : list Event) : list Z :=
  omap (fun e => match e with Executed a => Some a | Waited _ => None end) log.

Definition waits (log : list Event) : list Z :=
  omap (fun e => match e with Waited ms => Some ms | Executed _ => None end) log.

(** The log of [n] attempts that all fail, the first with counter
    [attempt]: an execution, then between two executions the wait computed
    from the counter after its increment. *)
Fixpoint failureLog (n : nat) (attempt : Z) : list Event :=
  match n with
  | O => []
  | S O => [Executed attempt]
  | S n' =>
      Executed attempt :: Waited (100 * 2 ^ (attempt + 1))%Z
        :: failureLog n' (attempt + 1)%Z
  end.

End Retry.

(** ** The progress reporter: [maybeEmitProgress], [calculateETA] *)

Module Progress.

(** A JavaScript number that is the result of a division: a rational, or
    [Infinity]. *)
Inductive ETA : Type :=
| Finite (ms : Q)
| Infinity.

Record ProcessingProgress : Type := mkProgress {
  totalNodes : Z;
  processedNodes : Z;
  currentChunk : Z;
  totalChunks : Z;
  memoryUsageMB : Q;
  estimatedTimeRemainingMS : ETA
}.

(** The two fields of the processor that the reporter reads and writes:
    whether a callback is registered, and the time of the last emission
    (0 in a fresh processor). *)
Record Reporter : Type := mkReporter {
  progressCallback : bool;
  lastProgressEmitTime : Z
}.

(** [calculateETA(processed, total)], with the field it reads and the
    value of its own [Date.now()] made explicit.
    [this.lastProgressEmitTime || now] takes [now] when the field is 0. *)
Definition calculateETA (lastEmit now processed total : Z) : ETA :=
  let elapsed := (now - (if (lastEmit =? 0)%Z then now else lastEmit))%Z in
  if (processed =? 0)%Z || (elapsed =? 0)%Z then Infinity
  else
    let rate := (inject_Z processed / inject_Z elapsed)%Q in
    let remaining := (total - processed)%Z in
    Finite (inject_Z remaining / rate)%Q.

(** One raw progress update, with what the environment answers during the
    call: [now] is the [Date.now()] of [maybeEmitProgress], [nowETA] the
    one of [calculateETA], [memory] the reading of [getMemoryUsageMB]. *)
Record Update : Type := mkUpdate {
  now : Z;
  nowETA : Z;
  total : Z;
  processed : Z;
  chunk : Z;
  chunks : Z;
  memory : Q
}.

(** [maybeEmitProgress]: the new reporter state and the snapshot handed
    to the callback, if any.  The field is assigned before
    [calculateETA] is called. *)
Definition maybeEmitProgress (throttle : Z) (r : Reporter) (u : Update)
  : Reporter * option ProcessingProgress :=
  if progressCallback r
     && ((throttle <? now u - lastProgressEmitTime r)%Z
         || (processed u =? total u)%Z)
  then
    let r' := {| progressCallback := progressCallback r;
                 lastProgressEmitTime := now u |} in
    let eta := calculateETA (lastProgressEmitTime r') (nowETA u)
                 (processed u) (total u) in
    (r', Some {| totalNodes := total u;
                 processedNodes := processed u;
                 currentChunk := chunk u;
                 totalChunks := chunks u;
                 memoryUsageMB := memory u;
                 estimatedTimeRemainingMS := eta |})
  else (r, None).

(** A sequence of updates of one run: the reporter at the end, and for
    each update what the callback received. *)
Fixpoint reportAll (throttle : Z) (r : Reporter) (us : list Update)
  : Reporter * list (option ProcessingProgress) :=
  match us with
  | [] => (r, [])
  | u :: us' =>
      let '(r1, o) := maybeEmitProgress throttle r u in
      let '(r2, os) := reportAll throttle r1 us' in
      (r2, o :: os)
  end.

(** The time of the most recent update of [us] that reached the callback,
    read off the emissions; the reporter's initial field when none did. *)
Definition previousEmission (throttle : Z) (r : Reporter) (us : list Update) : Z :=
  fold_left (fun (prev : Z) (uo : Update * option ProcessingProgress) =>
               match uo.2 with
               | Some _ => now uo.1
               | None => prev
               end)
            (zip us (reportAll throttle r us).2)
            (lastProgressEmitTime r).

(** The estimate in the words of the specification: the remaining nodes
    divided by the rate [processed / elapsed], where [elapsed] is the time
    since the last emitted snapshot; infinite when [processed] or
    [elapsed] is zero. *)
Definition specifiedETA (lastSnapshot now processed total : Z) : ETA :=
  let elapsed := (now - lastSnapshot)%Z in
  if (processed =? 0)%Z || (elapsed =? 0)%Z then Infinity
  else Finite (inject_Z (total - processed)
               / (inject_Z processed / inject_Z elapsed))%Q.

End Progress.

(** ** The session registry: class [RealTimeProcessor] *)

Module RealTime.

(** The union type of [ProcessingSession.status]; it has no fifth
    member. *)
Inductive Status : Type := active | paused | completed | error.

Definition Status_eqb (a b : Status) : bool :=
  match a, b with
  | active, active | paused, paused | completed, completed | error, error => true
  | _, _ => false
  end.

Record ProcessingSession : Type := mkSession {
  id : string;
  startTime : Z;
  totalNodes : nat;
  processedNodes : nat;
  status : Status
}.

Definition withStatus (st : Status) (s : ProcessingSession) : ProcessingSession :=
  {| id := id s; startTime := startTime s; totalNodes := totalNodes s;
     processedNodes := processedNodes s; status := st |}.

Definition addProcessed (n : nat) (s : ProcessingSession) : ProcessingSession :=
  {| id := id s; startTime := startTime s; totalNodes := totalNodes s;
     processedNodes := processedNodes s + n; status := status s |}.

Inductive EventType : Type :=
| progress | complete | errorEvent | node_processed | batch_complete.

(** The processor.  Session objects are mutable and shared: [objects] is
    the store, an address is an index in it, and [sessions] (the [Map])
    holds addresses, as does the local variable [session] of
    [processInMainThread].  [workers] is the key set of the worker map and
    [emitted] the events passed to [emitEvent], latest last. *)
Record Processor : Type := mkProcessor {
  objects : list ProcessingSession;
  sessions : gmap string nat;
  workers : gset string;
  emitted : list (string * EventType)
}.

Definition empty : Processor :=
  {| objects := []; sessions := ∅; workers := ∅; emitted := [] |}.

(** Mutation of the object at address [r]. *)
Definition update (r : nat) (f : ProcessingSession -> ProcessingSession)
  (p : Processor) : Processor :=
  {| objects := alter f r (objects p); sessions := sessions p;
     workers := workers p; emitted := emitted p |}.

(** [const session = this.sessions.get(sessionId); if (session) f(session)]. *)
Definition onSession (sessionId : string)
  (f : ProcessingSession -> ProcessingSession) (p : Processor) : Processor :=
  match sessions p !! sessionId with
  | Some r => update r f p
  | None => p
  end.

Definition emitEvent (sessionId : string) (e : EventType) (p : Processor)
  : Processor :=
  {| objects := objects p; sessions := sessions p; workers := workers p;
     emitted := emitted p ++ [(sessionId, e)] |}.

(** [getSession]. *)
Definition getSession (p : Processor) (sessionId : string)
  : option ProcessingSession :=
  match sessions p !! sessionId with
  | Some r => objects p !! r
  | None => None
  end.

(** [startProcessing] up to the choice between worker and main thread:
    the session object is created and registered; [None] when
    [countNodes] raises.  [hasWorker] is [typeof Worker !== 'undefined']. *)
Definition startProcessing (hasWorker : bool) (document : option Tree.FigmaNode)
  (sessionId : string) (now : Z) (p : Processor) : option Processor :=
  match Tree.countNodes document with
  | None => None
  | Some total =>
      let session := {| id := sessionId; startTime := now; totalNodes := total;
                        processedNodes := 0; status := active |} in
      Some {| objects := objects p ++ [session];
              sessions := <[sessionId := length (objects p)]> (sessions p);
              workers := if hasWorker then {[sessionId]} ∪ workers p else workers p;
              emitted := emitted p |}
  end.

Definition pauseProcessing (sessionId : string) (p : Processor) : Processor :=
  onSession sessionId (withStatus paused) p.

Definition resumeProcessing (sessionId : string) (p : Processor) : Processor :=
  onSession sessionId (withStatus active) p.

Definition stopProcessing (sessionId : string) (p : Processor) : Processor :=
  let p1 := onSession sessionId (withStatus error) p in
  {| objects := objects p1;
     sessions := delete sessionId (sessions p1);
     workers := workers p1 ∖ {[sessionId]};
     emitted := emitted p1 |}.

Definition handleError (sessionId : string) (p : Processor) : Processor :=
  emitEvent sessionId errorEvent (onSession sessionId (withStatus error) p).

Inductive WorkerResponse : Type := PROGRESS | COMPLETE | ERROR.

Definition handleWorkerMessage (sessionId : string) (message : WorkerResponse)
  (p : Processor) : Processor :=
  match message with
  | PROGRESS => emitEvent sessionId progress p
  | COMPLETE =>
      emitEvent sessionId complete (onSession sessionId (withStatus completed) p)
  | ERROR => handleError sessionId p
  end.

(** [flattenNodes], of this class and of the worker: no null test, so a
    null node raises ([None]). *)
Fixpoint flattenNodesOf (node : Tree.FigmaNode) : option (list Tree.FigmaNode) :=
  match node with
  | Tree.mkNode _ _ _ (Some cs) =>
      option_map (cons node)
        (fold_left (fun (acc : option (list Tree.FigmaNode))
                        (child : option Tree.FigmaNode) =>
                      match acc, child with
                      | Some nodes, Some c =>
                          option_map (app nodes) (flattenNodesOf c)
                      | _, _ => None
                      end) cs (Some []))
  | Tree.mkNode _ _ _ None => Some [node]
  end.

Definition flattenNodes (node : option Tree.FigmaNode)
  : option (list Tree.FigmaNode) :=
  match node with
  | None => None
  | Some n => flattenNodesOf n
  end.

(** The calls that the owner of the processor can make while
    [processInMainThread] is suspended at an [await]. *)
Inductive Call : Type := CallPause | CallResume | CallStop.

Definition call (sessionId : string) (c : Call) (p : Processor) : Processor :=
  match c with
  | CallPause => pauseProcessing sessionId p
  | CallResume => resumeProcessing sessionId p
  | CallStop => stopProcessing sessionId p
  end.

Definition calls (sessionId : string) (cs : list Call) (p : Processor) : Processor :=
  fold_left (fun q c => call sessionId c q) cs p.

Definition statusAt (p : Processor) (r : nat) : option Status :=
  status <$> objects p !! r.

(** The [for] loop of [processInMainThread] from batch [i] on.  [session]
    is the address held by the local variable.  [during i] are the calls
    made while [processBatch] of batch [i] is awaited and [after i] those
    made during the [setTimeout(0)] that follows it. *)
Fixpoint mainThreadLoop (sessionId : string) (session : nat)
  (during after : nat -> list Call)
  (batches : list (list Tree.FigmaNode)) (i : nat) (p : Processor) : Processor :=
  match batches with
  | [] => p
  | batch :: rest =>
      match statusAt p session with
      | Some active =>
          let p1 := calls sessionId (during i) p in
          let p1 := fold_left (fun q _ => emitEvent sessionId node_processed q)
                              batch p1 in
          let p2 := update session (addProcessed (length batch)) p1 in
          let p3 := emitEvent sessionId batch_complete p2 in
          let p4 := calls sessionId (after i) p3 in
          mainThreadLoop sessionId session during after rest (S i) p4
      | _ => p
      end
  end.

(** [processInMainThread].  [None] when [flattenNodes] raises or
    [createBatches] does not return. *)
Definition processInMainThread (batchSize : Z)
  (document : option Tree.FigmaNode) (sessionId : string)
  (during after : nat -> list Call) (p : Processor) : option Processor :=
  match sessions p !! sessionId with
  | None => Some p
  | Some session =>
      match flattenNodes document with
      | None => None
      | Some nodes =>
          match Chunking.createBatches (S (length nodes)) nodes batchSize with
          | None => None
          | Some batches =>
              let p1 := mainThreadLoop sessionId session during after batches 0 p in
              let p2 := update session (withStatus completed) p1 in
              Some (emitEvent sessionId complete p2)
          end
      end
  end.

(** The operations that can change a session's status, as seen from
    outside. *)
Inductive Operation : Type :=
| Pause
| Resume
| Stop
| Completion          (* the worker's COMPLETE message *)
| Failure             (* the worker's ERROR message *)
| Progressed.         (* the worker's PROGRESS message *)

Definition perform (sessionId : string) (op : Operation) (p : Processor)
  : Processor :=
  match op with
  | Pause => pauseProcessing sessionId p
  | Resume => resumeProcessing sessionId p
  | Stop => stopProcessing sessionId p
  | Completion => handleWorkerMessage sessionId COMPLETE p
  | Failure => handleWorkerMessage sessionId ERROR p
  | Progressed => handleWorkerMessage sessionId PROGRESS p
  end.

(** The transitions that the specification allows, on the statuses that
    exist in the code. *)
Definition allowedTransition (from to : Status) : bool :=
  match from, to with
  | active, (paused | completed | error) => true
  | paused, active => true
  | _, _ => false
  end.

End RealTime.

(** ** The worker: class [FigmaProcessorWorker] *)

Module Worker.

Inductive WorkerMessage : Type := PAUSE | RESUME | STOP.

Record Worker : Type := mkWorker {
  isPaused : bool;
  isProcessing : bool;
  processedNodes : nat;
  posted : list RealTime.WorkerResponse
}.

(** [handleMessage] for the three control messages. *)
Definition handleMessage (m : WorkerMessage) (w : Worker) : Worker :=
  match m with
  | PAUSE => {| isPaused := true; isProcessing := isProcessing w;
                processedNodes := processedNodes w; posted := posted w |}
  | RESUME => {| isPaused := false; isProcessing := isProcessing w;
                 processedNodes := processedNodes w; posted := posted w |}
  | STOP => {| isPaused := isPaused w; isProcessing := false;
               processedNodes := processedNodes w; posted := posted w |}
  end.

Definition deliver (ms : list WorkerMessage) (w : Worker) : Worker :=
  fold_left (fun v m => handleMessage m v) ms w.

Definition post (r : RealTime.WorkerResponse) (w : Worker) : Worker :=
  {| isPaused := isPaused w; isProcessing := isProcessing w;
     processedNodes := processedNodes w; posted := posted w ++ [r] |}.

Definition countOne (w : Worker) : Worker :=
  {| isPaused := isPaused w; isProcessing := isProcessing w;
     processedNodes := S (processedNodes w); posted := posted w |}.

(** [while (this.isPaused && this.isProcessing) await 100ms].  [inbox t]
    are the messages handled during the [t]-th await of the run; the
    result is the worker and the number of awaits so far.  [None]: still
    waiting when the fuel is spent. *)
Fixpoint waitWhilePaused (fuel : nat) (inbox : nat -> list WorkerMessage)
  (t : nat) (w : Worker) : option (Worker * nat) :=
  if isPaused w && isProcessing w then
    match fuel with
    | O => None
    | S fuel' => waitWhilePaused fuel' inbox (S t) (deliver (inbox t) w)
    end
  else Some (w, t).

(** The [for] loop of [startProcessing] over the nodes still to do;
    [total] is [nodes.length]. *)
Fixpoint processLoop (fuel : nat) (inbox : nat -> list WorkerMessage)
  (total : nat) (nodes : list Tree.FigmaNode) (t : nat) (w : Worker)
  : option (Worker * nat) :=
  match nodes with
  | [] => Some (w, t)
  | _ :: rest =>
      if negb (isProcessing w) then Some (w, t)
      else
        match waitWhilePaused fuel inbox t w with
        | None => None
        | Some (w1, t1) =>
            let w2 := deliver (inbox t1) w1 in        (* await processNode *)
            let w3 := countOne w2 in
            let w4 := if (processedNodes w3 mod 10 =? 0)
                         || (processedNodes w3 =? total)
                      then post RealTime.PROGRESS w3 else w3 in
            processLoop fuel inbox total rest (S t1) w4
        end
  end.

(** [startProcessing] of the worker. *)
Definition startProcessing (fuel : nat) (inbox : nat -> list WorkerMessage)
  (document : option Tree.FigmaNode) : option Worker :=
  let w := {| isPaused := false; isProcessing := true;
              processedNodes := 0; posted := [] |} in
  match RealTime.flattenNodes document with
  | None => Some (post RealTime.ERROR w)
  | Some nodes =>
      match processLoop fuel inbox (length nodes) nodes 0 w with
      | None => None
      | Some (w', _) =>
          Some (if isProcessing w' then post RealTime.COMPLETE w' else w')
      end
  end.

End Worker.

(** ** The run: [processLargeFigmaFile] and [processChunksWithConcurrency] *)

Module Pipeline.

Record ProcessedNode : Type := mkProcessed {
  id : string;
  name : string;
  type : string;
  depth : nat;
  childCount : nat
}.

(** [processNode], on the attributes that the tree model keeps. *)
Definition processNode (node : Tree.FlatNode) : ProcessedNode :=
  {| id := Tree.id node.1;
     name := Tree.name node.1;
     type := Tree.type node.1;
     depth := node.2;
     childCount := match Tree.children node.1 with
                   | Some cs => length cs
                   | None => 0
                   end |}.

(** [ProcessedData]: the list and the [statistics]. *)
Record ProcessedData : Type := mkData {
  processedNodes : list ProcessedNode;
  totalNodes : nat;
  processedCount : nat;
  startTime : Z
}.

(** Where the callback attached to [semaphore.acquire()] for one chunk
    stands. *)
Inductive Task : Type :=
| Unsubmitted                  (* the loop has not reached the chunk *)
| Waiting                      (* its [acquire] is queued *)
| Ready (attempt : Z)          (* permit held, at the head of the [while] *)
| Running (attempt : Z)        (* inside [processChunk] *)
| Done (r : Retry.Result).     (* returned or thrown, permit released *)

(** Where the body of [processChunksWithConcurrency] stands. *)
Inductive LoopState : Type :=
| Submitting (i : nat)         (* about to run iteration [i] of the [for] *)
| AwaitingAll                  (* at [await Promise.all(promises)] *)
| Exited.

(** What the caller of [processLargeFigmaFile] receives: the returned
    object, or the rethrown error and nothing else. *)
Inductive Outcome : Type :=
| Resolved (data : ProcessedData)
| RejectedWith (e : Retry.Error).

Definition partialOutput (o : Outcome) : option ProcessedData :=
  match o with
  | Resolved d => Some d
  | RejectedWith _ => None
  end.

Record State : Type := mkState {
  abortController : option bool;  (* [None]: null; [Some b]: [signal.aborted] *)
  semaphore : Sem.Semaphore;
  loop : LoopState;
  tasks : list Task;
  data : ProcessedData;
  outcome : option Outcome
}.

(** One synchronous segment of the run. *)
Inductive Label : Type :=
| LoopStep                     (* an iteration of the [for], or its exit *)
| Begin (i : nat)              (* task [i] evaluates the head of its [while] *)
| Finish (i : nat)             (* the [processChunk] of task [i] settles *)
| Abort                        (* the caller calls [abort()] *)
| Settle (rejectedBy : option nat).  (* [Promise.all] settles *)

Definition isReturned (t : Task) : bool :=
  match t with
  | Done Retry.Returned => true
  | _ => false
  end.

Section Run.

(** The configuration, the chunks made from the flattened tree, and for
    each chunk and each value of the attempt counter whether
    [processChunk] fails (with which error code) before it records
    anything. *)
Variable config : Config.ProcessingConfig.
Variable chunks : list (list Tree.FlatNode).
Variable work : nat -> Z -> option nat.

(** The state after the synchronous prefix of [processLargeFigmaFile]:
    the controller installed, everything flattened and chunked, nothing
    submitted. *)
Definition initial (now : Z) : State :=
  {| abortController := Some false;
     semaphore := Sem.create (Config.maxConcurrentChunks config);
     loop := Submitting 0;
     tasks := replicate (length chunks) Unsubmitted;
     data := {| processedNodes := []; totalNodes := length (concat chunks);
                processedCount := 0; startTime := now |};
     outcome := None |}.

(** [this.abortController?.signal.aborted]: falsy when the controller is
    null. *)
Definition signalAborted (s : State) : bool :=
  match abortController s with
  | Some b => b
  | None => false
  end.

Definition setTasks (ts : list Task) (s : State) : State :=
  {| abortController := abortController s; semaphore := semaphore s;
     loop := loop s; tasks := ts; data := data s; outcome := outcome s |}.

(** The [catch] and [finally] of [processLargeFigmaFile], or its
    [return]: the result is fixed and the controller is cleared. *)
Definition settle (o : Outcome) (s : State) : State :=
  {| abortController := None; semaphore := semaphore s; loop := Exited;
     tasks := tasks s; data := data s; outcome := Some o |}.

(** The end of the callback of task [i]: [release()] in its [finally];
    the head of the queue, if any, receives the permit and its callback
    becomes ready. *)
Definition releasePermit (i : nat) (r : Retry.Result) (s : State) : option State :=
  match Sem.release i (semaphore s) with
  | None => None
  | Some sem' =>
      let ts := <[i := Done r]> (tasks s) in
      let ts' := match Sem.queue (semaphore s) with
                 | next :: _ => <[next := Ready 0]> ts
                 | [] => ts
                 end in
      Some {| abortController := abortController s; semaphore := sem';
              loop := loop s; tasks := ts'; data := data s;
              outcome := outcome s |}
  end.

(** The two assignments of [processChunk] after the nodes of the chunk
    have been processed. *)
Definition record (chunk : list Tree.FlatNode) (s : State) : State :=
  {| abortController := abortController s; semaphore := semaphore s;
     loop := loop s; tasks := tasks s;
     data := {| processedNodes := processedNodes (data s) ++ map processNode chunk;
                totalNodes := totalNodes (data s);
                processedCount := processedCount (data s) + length chunk;
                startTime := startTime (data s) |};
     outcome := outcome s |}.

Definition step (l : Label) (s : State) : option State :=
  match l with
  | LoopStep =>
      match loop s with
      | Submitting i =>
          if i <? length chunks then
            if signalAborted s
            then Some (settle (RejectedWith Retry.AbortError) s)
            else
              let granted := (0 <? Sem.permits (semaphore s))%Z in
              Some {| abortController := abortController s;
                      semaphore := Sem.acquire i (semaphore s);
                      loop := Submitting (S i);
                      tasks := <[i := if granted then Ready 0 else Waiting]>
                                 (tasks s);
                      data := data s; outcome := outcome s |}
          else
            Some {| abortController := abortController s;
                    semaphore := semaphore s; loop := AwaitingAll;
                    tasks := tasks s; data := data s; outcome := outcome s |}
      | _ => None
      end
  | Begin i =>
      match tasks s !! i with
      | Some (Ready attempt) =>
          if (attempt <? Config.maxRetriesPerChunk config)%Z then
            if signalAborted s
            then releasePermit i (Retry.Threw Retry.AbortError) s
            else Some (setTasks (<[i := Running attempt]> (tasks s)) s)
          else releasePermit i Retry.Returned s
      | _ => None
      end
  | Finish i =>
      match tasks s !! i with
      | Some (Running attempt) =>
          match work i attempt with
          | None => releasePermit i Retry.Returned (record (chunks !!! i) s)
          | Some code =>
              let attempt' := (attempt + 1)%Z in
              if (attempt' >=? Config.maxRetriesPerChunk config)%Z
              then releasePermit i (Retry.Threw (Retry.WorkError code)) s
              else Some (setTasks (<[i := Ready attempt']> (tasks s)) s)
          end
      | _ => None
      end
  | Abort =>
      Some {| abortController := match abortController s with
                                 | Some _ => Some true
                                 | None => None
                                 end;
              semaphore := semaphore s; loop := loop s; tasks := tasks s;
              data := data s; outcome := outcome s |}
  | Settle (Some i) =>
      match loop s, tasks s !! i with
      | AwaitingAll, Some (Done (Retry.Threw e)) => Some (settle (RejectedWith e) s)
      | _, _ => None
      end
  | Settle None =>
      match loop s with
      | AwaitingAll =>
          if forallb isReturned (tasks s)
          then Some (settle (Resolved (data s)) s)
          else None
      | _ => None
      end
  end.

(** A schedule; [None] when one of its steps is not enabled. *)
Fixpoint run (trace : list Label) (s : State) : option State :=
  match trace with
  | [] => Some s
  | l :: trace' =>
      match step l s with
      | Some s' => run trace' s'
      | None => None
      end
  end.

End Run.

(** The chunks of a run, from the document and the configuration. *)
Definition chunksOf (config : Config.ProcessingConfig)
  (document : option Tree.FigmaNode) : option (list (list Tree.FlatNode)) :=
  let allNodes := Tree.flattenDocumentTree document 0 in
  Chunking.createChunks (S (length allNodes)) allNodes (Config.chunkSize config).

End Pipeline.

(** ** Invariants *)

(** The accounting identity, which holds for any initial count, and the
    sign of the permit count. *)
Definition balanced (n : Z) (s : Sem.Semaphore) : Prop :=
  (Sem.permits s + Sem.executing s = n)%Z /\ (Z.min 0 n <= Sem.permits s)%Z.

(** Once the result is fixed the body of the run has been left, and a
    result that is a returned object was fixed when every task had
    returned; it is the data as they are. *)
Definition settledInv (s : Pipeline.State) : Prop :=
  (forall o, Pipeline.outcome s = Some o -> Pipeline.loop s = Pipeline.Exited)
  /\ (forall d, Pipeline.outcome s = Some (Pipeline.Resolved d) ->
                forallb Pipeline.isReturned (Pipeline.tasks s) = true
                /\ d = Pipeline.data s).

Definition notAbortError (t : Pipeline.Task) : Prop :=
  t <> Pipeline.Done (Retry.Threw Retry.AbortError).

(** No chunk callback has thrown AbortError, the signal is not set and
    the run has not been rejected with AbortError. *)
Definition unabortedInv (s : Pipeline.State) : Prop :=
  Pipeline.signalAborted s = false
  /\ Forall notAbortError (Pipeline.tasks s)
  /\ Pipeline.outcome s <> Some (Pipeline.RejectedWith Retry.AbortError).

(** A task that holds a permit. *)
Definition isActive (t : Pipeline.Task) : bool :=
  match t with
  | Pipeline.Ready _ | Pipeline.Running _ => true
  | _ => false
  end.

(** The bookkeeping of the semaphore against the tasks: the holders are
    the tasks that are ready or running, the queue holds waiting tasks,
    neither lists a task twice, and the submit loop has not touched the
    chunks from its counter on. *)
Definition permitInv (chunks : list (list Tree.FlatNode)) (s : Pipeline.State)
  : Prop :=
  length (Pipeline.tasks s) = length chunks
  /\ NoDup (Sem.holders (Pipeline.semaphore s))
  /\ NoDup (Sem.queue (Pipeline.semaphore s))
  /\ (forall i, i ∈ Sem.holders (Pipeline.semaphore s) <->
                exists t, Pipeline.tasks s !! i = Some t /\ isActive t = true)
  /\ (forall i, i ∈ Sem.queue (Pipeline.semaphore s) ->
                Pipeline.tasks s !! i = Some Pipeline.Waiting)
  /\ (forall k j, Pipeline.loop s = Pipeline.Submitting k -> k <= j ->
                  j < length (Pipeline.tasks s) ->
                  Pipeline.tasks s !! j = Some Pipeline.Unsubmitted).

(** ** Scenarios *)

(** A document of three nodes: a root with two leaves. *)
Definition threeNodes : option Tree.FigmaNode :=
  let leaf s := Tree.mkNode s s "RECTANGLE" None in
  Some (Tree.mkNode "0:0" "Document" "DOCUMENT"
          (Some [Some (leaf "1:1"); Some (leaf "1:2")])).

(** A registry holding one session, already completed. *)
Definition sessionOne : RealTime.Processor :=
  {| RealTime.objects :=
       [RealTime.mkSession "s1" 0 3 0 RealTime.completed];
     RealTime.sessions := {[ "s1" := 0 ]};
     RealTime.workers := ∅;
     RealTime.emitted := [] |}.

(** Three nodes in chunks of two: two chunks, at most one at a time. *)
Definition twoChunksConfig : Config.ProcessingConfig :=
  Config.constructor
    (Config.mkPartial (Some 2%Z) (Some 1%Z) None None None None None).

Definition twoChunks : list (list Tree.FlatNode) :=
  default [] (Pipeline.chunksOf twoChunksConfig threeNodes).

(** The second chunk fails on every attempt, with error code 7. *)
Definition secondChunkFails (i : nat) (attempt : Z) : option nat :=
  if Nat.eqb i 1 then Some 7 else None.

Definition neverFails (i : nat) (attempt : Z) : option nat := None.

(** The schedule of the failing run: the first chunk succeeds, the second
    is attempted three times, and [Promise.all] rejects with its error. *)
Definition failingSchedule : list Pipeline.Label :=
  [Pipeline.LoopStep; Pipeline.Begin 0; Pipeline.LoopStep; Pipeline.LoopStep;
   Pipeline.Finish 0; Pipeline.Begin 1; Pipeline.Finish 1;
   Pipeline.Begin 1; Pipeline.Finish 1; Pipeline.Begin 1; Pipeline.Finish 1;
   Pipeline.Settle (Some 1)].

Definition failedState : Pipeline.State :=
  Eval vm_compute in
    default (Pipeline.initial twoChunksConfig twoChunks 0)
      (Pipeline.run twoChunksConfig twoChunks secondChunkFails failingSchedule
         (Pipeline.initial twoChunksConfig twoChunks 0)).

(** The state of the two-chunk run when [abort()] has just been called:
    the first chunk is inside [processChunk], the second waits for the
    permit, the loop is at [Promise.all]. *)
Definition abortedState : Pipeline.State :=
  Eval vm_compute in
    default (Pipeline.initial twoChunksConfig twoChunks 0)
      (Pipeline.run twoChunksConfig twoChunks neverFails
         [Pipeline.LoopStep; Pipeline.Begin 0; Pipeline.LoopStep;
          Pipeline.LoopStep; Pipeline.Abort]
         (Pipeline.initial twoChunksConfig twoChunks 0)).

(** Then the first chunk finishes and the second obtains the permit. *)
Definition abortedLater : Pipeline.State :=
  Eval vm_compute in
    default abortedState
      (Pipeline.run twoChunksConfig twoChunks neverFails
         [Pipeline.Finish 0] abortedState).

(** One chunk of three nodes under the default configuration. *)
Definition oneChunk : list (list Tree.FlatNode) :=
  default [] (Pipeline.chunksOf (Config.constructor Config.noOverrides) threeNodes).

(** ** Further definitions *)

(** The null entries of the children arrays that the traversal meets. *)
Fixpoint nullEntriesOf (node : Tree.FigmaNode) : nat :=
  match node with
  | Tree.mkNode _ _ _ (Some cs) =>
      list_sum (map (fun child : option Tree.FigmaNode =>
                       match child with
                       | Some c => nullEntriesOf c
                       | None => 1
                       end) cs)
  | Tree.mkNode _ _ _ None => 0
  end.

(** [Math.ceil(len / size)] for a positive [size]. *)
Definition ceilDiv (len size : Z) : Z := ((len + size - 1) / size)%Z.

(** The tasks that called [acquire], in the order of their calls. *)
Definition acquirers (trace : list Sem.Event) : list nat :=
  omap (fun e => match e with
                 | Sem.Acquire who => Some who
                 | Sem.Release _ => None
                 end) trace.

(** The tasks whose [acquire] promise a step resolves: the caller itself
    when a permit is free, the head of the queue on a release. *)
Definition grantedBy (e : Sem.Event) (s : Sem.Semaphore) : list nat :=
  match e with
  | Sem.Acquire who => if (0 <? Sem.permits s)%Z then [who] else []
  | Sem.Release who =>
      if existsb (Nat.eqb who) (Sem.holders s)
      then match Sem.queue s with
           | next :: _ => [next]
           | [] => []
           end
      else []
  end.

(** The tasks that were handed a permit along a trace, in the order in
    which they received it. *)
Fixpoint grants (trace : list Sem.Event) (s : Sem.Semaphore) : list nat :=
  match trace with
  | [] => []
  | e :: trace' =>
      grantedBy e s ++ match Sem.step e s with
                       | Some s' => grants trace' s'
                       | None => []
                       end
  end.

(** No caller waits while a permit is free. *)
Definition conserving (s : Sem.Semaphore) : Prop :=
  Sem.queue s <> [] -> (Sem.permits s <= 0)%Z.

(** The log of [j] failed attempts, the first with counter [attempt], each
    followed by its wait. *)
Fixpoint retryPrefix (j : nat) (attempt : Z) : list Retry.Event :=
  match j with
  | O => []
  | S j' =>
      Retry.Executed attempt :: Retry.Waited (100 * 2 ^ (attempt + 1))%Z
        :: retryPrefix j' (attempt + 1)%Z
  end.

(** The sum of a list of durations. *)
Definition totalMs (l : list Z) : Z := foldr Z.add 0%Z l.

(** The snapshots that reached the callback. *)
Definition delivered (os : list (option Progress.ProcessingProgress))
  : list Progress.ProcessingProgress :=
  omap id os.

(** What one iteration of the loop of [processInMainThread] does to the
    processor when nobody calls in: the events of the nodes of the batch,
    the counter, the event of the batch. *)
Definition quietBatch (sessionId : string) (session : nat)
  (batch : list Tree.FigmaNode) (p : RealTime.Processor) : RealTime.Processor :=
  RealTime.emitEvent sessionId RealTime.batch_complete
    (RealTime.update session (RealTime.addProcessed (length batch))
       (fold_left (fun q _ => RealTime.emitEvent sessionId RealTime.node_processed q)
                  batch p)).

Definition quietBatches (sessionId : string) (session : nat)
  (batches : list (list Tree.FigmaNode)) (p : RealTime.Processor)
  : RealTime.Processor :=
  fold_left (fun q batch => quietBatch sessionId session batch q) batches p.

(** The events of a batch, and of consecutive batches. *)
Definition batchEvents (sessionId : string) (batch : list Tree.FigmaNode)
  : list (string * RealTime.EventType) :=
  replicate (length batch) (sessionId, RealTime.node_processed)
    ++ [(sessionId, RealTime.batch_complete)].

Definition isEvent (e : RealTime.EventType) (x : string * RealTime.EventType) : bool :=
  match e, x.2 with
  | RealTime.progress, RealTime.progress
  | RealTime.complete, RealTime.complete
  | RealTime.errorEvent, RealTime.errorEvent
  | RealTime.node_processed, RealTime.node_processed
  | RealTime.batch_complete, RealTime.batch_complete => true
  | _, _ => false
  end.

(** Identifiers denote distinct session objects that exist. *)
Definition wellFormed (p : RealTime.Processor) : Prop :=
  (forall sid r, RealTime.sessions p !! sid = Some r ->
                 r < length (RealTime.objects p))
  /\ (forall sid1 sid2 r,
        RealTime.sessions p !! sid1 = Some r ->
        RealTime.sessions p !! sid2 = Some r -> sid1 = sid2).

(** [q] differs from [p] at most in the object at address [r], the
    registration of [sessionId] (kept or removed) and the events. *)
Definition sameElsewhere (sessionId : string) (r : nat)
  (p q : RealTime.Processor) : Prop :=
  length (RealTime.objects q) = length (RealTime.objects p)
  /\ (forall r', r' <> r -> RealTime.objects q !! r' = RealTime.objects p !! r')
  /\ (forall sid, sid <> sessionId ->
                  RealTime.sessions q !! sid = RealTime.sessions p !! sid)
  /\ (RealTime.sessions q !! sessionId = Some r
      \/ RealTime.sessions q !! sessionId = None).

(** The processors that the operations of the class produce from an empty
    one. *)
Inductive reachable : RealTime.Processor -> Prop :=
| reach_empty : reachable RealTime.empty
| reach_start p hasWorker document sessionId now p' :
    reachable p ->
    RealTime.startProcessing hasWorker document sessionId now p = Some p' ->
    reachable p'
| reach_perform p sessionId op :
    reachable p -> reachable (RealTime.perform sessionId op p)
| reach_main p batchSize document sessionId during after p' :
    reachable p ->
    RealTime.processInMainThread batchSize document sessionId during after p = Some p' ->
    reachable p'.

(** The status that a call leaves in the session object. *)
Definition statusAfter (c : RealTime.Call) : RealTime.Status :=
  match c with
  | RealTime.CallPause => RealTime.paused
  | RealTime.CallResume => RealTime.active
  | RealTime.CallStop => RealTime.error
  end.

(** The nodes of [threeNodes] as [flattenNodes] returns them, and in
    batches of one. *)
Definition threeNodesFlat : list Tree.FigmaNode :=
  Eval vm_compute in default [] (RealTime.flattenNodes threeNodes).

Definition threeNodesBatches : list (list Tree.FigmaNode) :=
  Eval vm_compute in map (fun n => [n]) threeNodesFlat.




(** The moves of a task's own callback that record nothing: the control
    flow of [processChunkWithRetries]. *)
Inductive attemptMove (max : Z) : Pipeline.Task -> Pipeline.Task -> Prop :=
| move_begin a :
    (a < max)%Z -> attemptMove max (Pipeline.Ready a) (Pipeline.Running a)
| move_aborted a :
    (a < max)%Z ->
    attemptMove max (Pipeline.Ready a)
      (Pipeline.Done (Retry.Threw Retry.AbortError))
| move_exhausted a :
    (max <= a)%Z ->
    attemptMove max (Pipeline.Ready a) (Pipeline.Done Retry.Returned)
| move_retry a :
    (a + 1 < max)%Z ->
    attemptMove max (Pipeline.Running a) (Pipeline.Ready (a + 1))
| move_failed a code :
    (max <= a + 1)%Z ->
    attemptMove max (Pipeline.Running a)
      (Pipeline.Done (Retry.Threw (Retry.WorkError code))).

(** What a step of task [i] does to the other tasks: nothing, but for a
    waiting task that receives the permit. *)
Definition granted (ts ts' : list Pipeline.Task) (i : nat) : Prop :=
  length ts' = length ts
  /\ forall j, j <> i ->
       ts' !! j = ts !! j
       \/ (ts !! j = Some Pipeline.Waiting
           /\ ts' !! j = Some (Pipeline.Ready 0)).

(** A bound on the steps that a task, the submit loop and the whole run
    can still take. *)
Definition taskSteps (max : Z) (t : Pipeline.Task) : nat :=
  match t with
  | Pipeline.Unsubmitted | Pipeline.Waiting => 2 + Z.to_nat (2 * max)
  | Pipeline.Ready a => 2 + Z.to_nat (2 * (max - a))
  | Pipeline.Running a => 1 + Z.to_nat (2 * (max - a))
  | Pipeline.Done _ => 0
  end.

Definition loopSteps (n : nat) (l : Pipeline.LoopState) : nat :=
  match l with
  | Pipeline.Submitting i => (n - i) + 2
  | Pipeline.AwaitingAll => 1
  | Pipeline.Exited => 0
  end.

Definition stepsLeft (config : Config.ProcessingConfig)
  (chunks : list (list Tree.FlatNode)) (s : Pipeline.State) : nat :=
  loopSteps (length chunks) (Pipeline.loop s)
  + list_sum (map (taskSteps (Config.maxRetriesPerChunk config)) (Pipeline.tasks s)).

Definition isAbort (l : Pipeline.Label) : bool :=
  match l with
  | Pipeline.Abort => true
  | _ => false
  end.

(** The steps of a schedule other than the caller's [abort()]. *)
Definition moves (trace : list Pipeline.Label) : nat :=
  length (List.filter (fun l => negb (isAbort l)) trace).



(** A run in which no permit was ever handed out. *)
Definition starved (config : Config.ProcessingConfig)
  (chunks : list (list Tree.FlatNode)) (now : Z) (s : Pipeline.State) : Prop :=
  Sem.permits (Pipeline.semaphore s) = Config.maxConcurrentChunks config
  /\ length (Pipeline.tasks s) = length chunks
  /\ (forall i t, Pipeline.tasks s !! i = Some t ->
                  t = Pipeline.Unsubmitted \/ t = Pipeline.Waiting)
  /\ Pipeline.data s = Pipeline.data (Pipeline.initial config chunks now)
  /\ (forall o, Pipeline.outcome s = Some o ->
                o = Pipeline.RejectedWith Retry.AbortError
                \/ (chunks = []
                    /\ o = Pipeline.Resolved
                             (Pipeline.data (Pipeline.initial config chunks now)))).

(** The steps taken by the callback of a chunk. *)
Definition isTaskStep (l : Pipeline.Label) : bool :=
  match l with
  | Pipeline.Begin _ | Pipeline.Finish _ => true
  | _ => false
  end.

(** What keeps a run going: no chunk waits while a permit is free, the
    waiting chunks are those in the queue, the chunks not yet submitted
    are those that the loop has not reached, and a run that has left its
    body has a result. *)
Definition liveInv (s : Pipeline.State) : Prop :=
  conserving (Pipeline.semaphore s)
  /\ (forall j, Pipeline.tasks s !! j = Some Pipeline.Waiting ->
                j ∈ Sem.queue (Pipeline.semaphore s))
  /\ (forall j, Pipeline.tasks s !! j = Some Pipeline.Unsubmitted ->
                Pipeline.loop s = Pipeline.Exited
                \/ exists k, Pipeline.loop s = Pipeline.Submitting k /\ k <= j)
  /\ (Pipeline.loop s = Pipeline.Exited -> Pipeline.outcome s <> None).

Definition isThrown (t : Pipeline.Task) : bool :=
  match t with
  | Pipeline.Done (Retry.Threw _) => true
  | _ => false
  end.

(** Every attempt of chunk [i] before attempt [a] failed. *)
Definition failedBefore (work : nat -> Z -> option nat) (i : nat) (a : Z) : Prop :=
  forall a', (0 <= a' < a)%Z -> work i a' <> None.

(** Chunk [i] failed on every attempt it was allowed, the last one with
    error [code]. *)
Definition exhausted (max : Z) (work : nat -> Z -> option nat) (i code : nat)
  : Prop :=
  exists a, (0 <= a < max)%Z /\ (max <= a + 1)%Z
            /\ work i a = Some code /\ failedBefore work i a.

(** Chunk [i] succeeded on an attempt it was allowed, after failing on
    the attempts before. *)
Definition succeeded (max : Z) (work : nat -> Z -> option nat) (i : nat) : Prop :=
  exists a, (0 <= a < max)%Z /\ work i a = None /\ failedBefore work i a.

(** What the state of a task says about the attempts made. *)
Definition taskFact (max : Z) (work : nat -> Z -> option nat) (i : nat)
  (t : Pipeline.Task) : Prop :=
  match t with
  | Pipeline.Ready a =>
      (0 <= a)%Z /\ ((1 <= max)%Z -> (a < max)%Z) /\ failedBefore work i a
  | Pipeline.Running a => (0 <= a < max)%Z /\ failedBefore work i a
  | Pipeline.Done (Retry.Threw (Retry.WorkError code)) => exhausted max work i code
  | Pipeline.Done Retry.Returned => (1 <= max)%Z -> succeeded max work i
  | _ => True
  end.

Definition historyInv (config : Config.ProcessingConfig)
  (chunks : list (list Tree.FlatNode)) (work : nat -> Z -> option nat)
  (s : Pipeline.State) : Prop :=
  (forall i t, Pipeline.tasks s !! i = Some t ->
               taskFact (Config.maxRetriesPerChunk config) work i t)
  /\ (forall code,
        Pipeline.outcome s = Some (Pipeline.RejectedWith (Retry.WorkError code)) ->
        exists i, i < length chunks
                  /\ exhausted (Config.maxRetriesPerChunk config) work i code).

(** The two-chunk run without abort, when the first chunk has finished
    and the second holds the permit. *)
Definition secondChunkReady : Pipeline.State :=
  Eval vm_compute in
    default (Pipeline.initial twoChunksConfig twoChunks 0)
      (Pipeline.run twoChunksConfig twoChunks neverFails
         [Pipeline.LoopStep; Pipeline.Begin 0; Pipeline.LoopStep;
          Pipeline.LoopStep; Pipeline.Finish 0]
         (Pipeline.initial twoChunksConfig twoChunks 0)).


(** ** Event listeners: [eventListeners] of [RealTimeProcessor] *)

Module Listeners.

(** The listeners of each session in the order of their registration.  A
    listener is a function object; [indexOf] compares references, so a
    listener is identified by its reference. *)
Abbreviation Registry := (gmap string (list nat)).

(** [addEventListener]. *)
Definition addEventListener (sessionId : string) (listener : nat) (m : Registry)
  : Registry :=
  let m1 := match m !! sessionId with
            | Some _ => m
            | None => <[sessionId := []]> m
            end in
  alter (fun listeners => listeners ++ [listener]) sessionId m1.

(** [listeners.indexOf(listener)]; [None] is [-1]. *)
Fixpoint indexOf (listener : nat) (listeners : list nat) : option nat :=
  match listeners with
  | [] => None
  | x :: rest =>
      if Nat.eqb x listener then Some 0 else S <$> indexOf listener rest
  end.

(** [listeners.splice(index, 1)]. *)
Definition splice (index : nat) (listeners : list nat) : list nat :=
  take index listeners ++ drop (S index) listeners.

(** [removeEventListener]. *)
Definition removeEventListener (sessionId : string) (listener : nat)
  (m : Registry) : Registry :=
  match m !! sessionId with
  | Some listeners =>
      match indexOf listener listeners with
      | Some index => <[sessionId := splice index listeners]> m
      | None => m
      end
  | None => m
  end.

(** [emitEvent]: the listeners that are called, in the order of the
    calls. *)
Definition emitEvent (sessionId : string) (m : Registry) : list nat :=
  default [] (m !! sessionId).

(** [this.eventListeners.delete(sessionId)] in [stopProcessing]. *)
Definition deleteListeners (sessionId : string) (m : Registry) : Registry :=
  delete sessionId m.

End Listeners.

(** ** The event log of the component [RealTimeProcessorComponent] *)

Module EventLog.

(** The state update of the event handler:
    [prev => [event, ...prev.slice(0, 99)]]. *)
Definition pushEvent {A : Type} (event : A) (prev : list A) : list A :=
  event :: Chunking.slice prev 0 99.

(** The log after the events of a run, which starts with [setEvents([])]. *)
Definition eventLog {A : Type} (events : list A) : list A :=
  fold_left (fun prev event => pushEvent event prev) events [].

End EventLog.

(** * Properties *)

(** ** The tree flattener *)

Section TreeFacts.
Import Tree.

(** Induction on a node with the hypothesis available for every non-null
    entry of its children array. *)
Lemma FigmaNode_nested_ind (P : FigmaNode -> Prop)
  (Hleaf : forall i n t, P (mkNode i n t None))
  (Hnode : forall i n t cs,
      Forall (fun oc => match oc with Some c => P c | None => True end) cs ->
      P (mkNode i n t (Some cs))) :
  forall n, P n.
Proof.
  fix IH 1. intros [i n t [cs|]]; [apply Hnode | apply Hleaf].
  induction cs as [|[c|] cs IHcs]; constructor; auto.
Qed.

Lemma flattenNode_children i n t cs d :
  flattenNode (mkNode i n t (Some cs)) d
  = (mkNode i n t (Some cs), d) :: flattenChildren cs d.
Proof. reflexivity. Qed.

Lemma pathsOf_children i n t cs :
  pathsOf (mkNode i n t (Some cs)) = [] :: childPaths cs 0.
Proof. reflexivity. Qed.

(** The source's own recursion equation: the node first, then each truthy
    child's flattening at [depth + 1], in array order. *)
Lemma flattenDocumentTree_unfold n d :
  flattenDocumentTree (Some n) d
  = (n, d) :: match children n with
              | Some cs =>
                  flat_map (fun child =>
                              match child with
                              | Some c => flattenDocumentTree (Some c) (d + 1)
                              | None => flattenDocumentTree None (d + 1)
                              end) cs
              | None => []
              end.
Proof.
  destruct n as [i s t [cs|]]; simpl; [|reflexivity].
  f_equal. apply flat_map_ext. intros [c|]; [|reflexivity].
  replace (d + 1) with (S d) by lia. reflexivity.
Qed.

Lemma subtreeAt_None p : subtreeAt None p = None.
Proof. destruct p; reflexivity. Qed.

Lemma subtreeAt_child i n t cs k p :
  subtreeAt (Some (mkNode i n t (Some cs))) (k :: p)
  = match cs !! k with Some c => subtreeAt c p | None => None end.
Proof. reflexivity. Qed.

(** *** Length and the two counters *)

Lemma flattenNode_length n : forall d, length (flattenNode n d) = countNonNullOf n.
Proof.
  induction n as [i s t|i s t cs IH] using FigmaNode_nested_ind; intros d;
    [reflexivity|].
  rewrite flattenNode_children. simpl. f_equal. unfold flattenChildren.
  induction IH as [|[c|] cs Hc _ IHcs]; simpl; [reflexivity| |exact IHcs].
  rewrite length_app, Hc, IHcs. reflexivity.
Qed.

Lemma countNodes_fold (cs : list (option FigmaNode)) :
  Forall (fun oc => match oc with
                    | Some c => countNodesOf c
                                = if nullFreeOf c then Some (countNonNullOf c) else None
                    | None => True
                    end) cs ->
  forall acc : option nat,
    fold_left (fun (sum : option nat) (child : option FigmaNode) =>
                 match sum, child with
                 | Some a, Some c => option_map (Nat.add a) (countNodesOf c)
                 | _, _ => None
                 end) cs acc
    = match acc with
      | Some a =>
          if forallb (fun child : option FigmaNode =>
                        match child with Some c => nullFreeOf c | None => false end) cs
          then Some (a + list_sum (map (fun child : option FigmaNode =>
                                          match child with
                                          | Some c => countNonNullOf c
                                          | None => 0
                                          end) cs))
          else None
      | None => None
      end.
Proof.
  induction 1 as [|[c|] cs Hc _ IHcs]; intros [a|]; simpl;
    rewrite ?Nat.add_0_r; try reflexivity.
  - rewrite IHcs, Hc. destruct (nullFreeOf c); simpl; [|reflexivity].
    destruct (forallb _ cs); [f_equal; lia | reflexivity].
  - apply IHcs.
  - apply IHcs.
  - apply IHcs.
Qed.

Lemma countNodesOf_spec n :
  countNodesOf n = if nullFreeOf n then Some (countNonNullOf n) else None.
Proof.
  induction n as [i s t|i s t cs IH] using FigmaNode_nested_ind; [reflexivity|].
  simpl. rewrite (countNodes_fold cs IH (Some 0)).
  destruct (forallb _ cs); reflexivity.
Qed.

(** *** Addresses of the output entries *)

Lemma childPaths_head l : forall k p,
  p ∈ childPaths l k -> exists j p', p = j :: p' /\ k <= j.
Proof.
  induction l as [|[c|] l IH]; intros k p Hp; simpl in Hp.
  - inversion Hp.
  - apply elem_of_app in Hp as [Hp|Hp].
    + apply list_elem_of_fmap in Hp as (p' & -> & _). eauto.
    + destruct (IH _ _ Hp) as (j & p' & -> & Hj). exists j, p'. split; [done|lia].
  - destruct (IH _ _ Hp) as (j & p' & -> & Hj). exists j, p'. split; [done|lia].
Qed.

Lemma childPaths_elem l : forall k j c p,
  l !! j = Some (Some c) -> p ∈ pathsOf c -> (k + j) :: p ∈ childPaths l k.
Proof.
  induction l as [|oc l IH]; intros k j c p Hj Hp; [done|].
  destruct j as [|j]; simpl in Hj.
  - inversion Hj; subst oc. simpl. apply elem_of_app. left.
    rewrite Nat.add_0_r. apply list_elem_of_fmap. eauto.
  - replace (k + S j) with (S k + j) by lia.
    destruct oc as [c'|]; simpl; [apply elem_of_app; right|];
      apply (IH (S k) j c p Hj Hp).
Qed.

Lemma pathsOf_complete p : forall n m,
  subtreeAt (Some n) p = Some m -> p ∈ pathsOf n.
Proof.
  induction p as [|k p IH]; intros n m H.
  - destruct n as [i s t [cs|]]; apply list_elem_of_here.
  - destruct n as [i s t [cs|]]; [|done].
    rewrite subtreeAt_child in H. rewrite pathsOf_children.
    apply list_elem_of_further.
    destruct (cs !! k) as [[c|]|] eqn:Hk; [| by rewrite subtreeAt_None in H | done].
    apply (childPaths_elem cs 0 k c p Hk). eapply IH; eauto.
Qed.

Lemma pathsOf_NoDup n : NoDup (pathsOf n).
Proof.
  induction n as [i s t|i s t cs IH] using FigmaNode_nested_ind.
  - simpl. apply NoDup_singleton.
  - rewrite pathsOf_children. constructor.
    + intros H. apply childPaths_head in H as (j & p' & H & _). done.
    + generalize 0.
      induction IH as [|[c|] cs Hc _ IHcs]; intros k; simpl;
        [constructor| |apply IHcs].
      apply NoDup_app. split; [|split; [|apply IHcs]].
      * apply (NoDup_fmap_2 _). exact Hc.
      * intros p Hp Hq. apply list_elem_of_fmap in Hp as (p' & -> & _).
        apply childPaths_head in Hq as (j & q' & Hq & Hj).
        inversion Hq; lia.
Qed.

Lemma flattenChildren_addresses i s t cs d l : forall k,
  (forall j, l !! j = cs !! (k + j)) ->
  Forall (fun oc => match oc with
                    | Some c => forall d',
                        Forall2 (atAddress (Some c) d') (pathsOf c) (flattenNode c d')
                    | None => True
                    end) l ->
  Forall2 (atAddress (Some (mkNode i s t (Some cs))) d)
          (childPaths l k) (flattenChildren l d).
Proof.
  induction l as [|oc l IHl]; intros k Hsuf IH; [constructor|].
  assert (Hk : cs !! k = Some oc)
    by (rewrite <- (Nat.add_0_r k), <- Hsuf; reflexivity).
  assert (Hl : forall j, l !! j = cs !! (S k + j)).
  { intros j. replace (S k + j) with (k + S j) by lia.
    rewrite <- Hsuf. reflexivity. }
  inversion IH as [|? ? Hc IH']; subst.
  destruct oc as [c|]; simpl; [|by apply IHl].
  apply Forall2_app; [|by apply IHl].
  apply Forall2_fmap_l. eapply Forall2_impl; [apply (Hc (S d))|].
  intros p fn [H1 H2]. split.
  - rewrite subtreeAt_child, Hk. exact H1.
  - simpl. lia.
Qed.

Lemma flattenNode_addresses n : forall d,
  Forall2 (atAddress (Some n) d) (pathsOf n) (flattenNode n d).
Proof.
  induction n as [i s t|i s t cs IH] using FigmaNode_nested_ind; intros d.
  - repeat constructor. simpl. lia.
  - rewrite pathsOf_children, flattenNode_children.
    constructor; [split; simpl; [done|lia]|].
    by apply flattenChildren_addresses.
Qed.

(** *** Parent before descendants *)

Lemma childPaths_prefix_order l :
  Forall (fun oc => match oc with
                    | Some c => forall i j p q,
                        pathsOf c !! i = Some p -> pathsOf c !! j = Some q ->
                        properPrefix p q -> i < j
                    | None => True
                    end) l ->
  forall k i j p q,
    childPaths l k !! i = Some p -> childPaths l k !! j = Some q ->
    properPrefix p q -> p <> [] -> i < j.
Proof.
  induction 1 as [|[c|] l Hc _ IHl]; intros k i j p q Hi Hj Hpq Hp; simpl in *;
    [done| |by eapply IHl].
  destruct Hpq as (r & Hr & ->).
  destruct p as [|a p]; [done|].
  set (first := map (cons k) (pathsOf c)) in *.
  assert (Hin : forall x y, (first ++ childPaths l (S k)) !! x = Some (a :: y) ->
                (a = k /\ pathsOf c !! x = Some y) \/
                (k < a /\ length first <= x /\
                 childPaths l (S k) !! (x - length first) = Some (a :: y))).
  { intros x y Hx. destruct (decide (x < length first)) as [Hlt|Hge].
    - rewrite lookup_app_l in Hx by done. unfold first in Hx.
      rewrite list_lookup_fmap in Hx.
      apply fmap_Some in Hx as (y' & E & Hy).
      inversion Hy; subst. by left.
    - rewrite lookup_app_r in Hx by lia.
      destruct (childPaths_head l (S k) (a :: y)) as (j' & y' & E & Hle).
      { eapply list_elem_of_lookup_2; eauto. }
      inversion E; subst. right. repeat split; [lia|lia|done]. }
  destruct (Hin _ _ Hi) as [[-> Hi']|(Ha & Hli & Hi')];
    destruct (Hin _ _ Hj) as [[E Hj']|(Ha' & Hlj & Hj')]; try lia.
  - eapply Hc; eauto. exists r. done.
  - assert (i - length first < j - length first); [|lia].
    eapply IHl; eauto. exists r. done.
Qed.

Lemma pathsOf_prefix_order n : forall i j p q,
  pathsOf n !! i = Some p -> pathsOf n !! j = Some q ->
  properPrefix p q -> i < j.
Proof.
  induction n as [a s t|a s t cs IH] using FigmaNode_nested_ind;
    intros i j p q Hi Hj Hpq.
  - destruct i as [|i]; [|done]. destruct j as [|j]; [|done].
    simpl in *. inversion Hi; inversion Hj; subst.
    destruct Hpq as (r & Hr & E). destruct r; done.
  - rewrite pathsOf_children in Hi, Hj.
    destruct j as [|j].
    { simpl in Hj. inversion Hj; subst.
      destruct Hpq as (r & Hr & E). destruct p, r; done. }
    destruct i as [|i]; [lia|]. simpl in Hi, Hj.
    assert (i < j); [|lia].
    eapply (childPaths_prefix_order cs IH 0); eauto.
    intros ->. apply list_elem_of_lookup_2 in Hi.
    apply childPaths_head in Hi as (? & ? & ? & _). done.
Qed.

End TreeFacts.

(** ** Chunking *)

Section ChunkingFacts.
Import Chunking.
Context {A : Type}.
Implicit Types (array : list A) (chunks : list (list A)).

Lemma createBatchesLoop_createChunksLoop fuel : forall array size i chunks,
  createBatchesLoop fuel array size i chunks
  = createChunksLoop fuel array size i chunks.
Proof.
  induction fuel as [|fuel IH]; intros; simpl; [reflexivity|].
  destruct (_ <? _)%Z; [apply IH | reflexivity].
Qed.

Lemma createChunksLoop_more_fuel fuel : forall fuel' array size i chunks r,
  createChunksLoop fuel array size i chunks = Some r ->
  fuel <= fuel' ->
  createChunksLoop fuel' array size i chunks = Some r.
Proof.
  induction fuel as [|fuel IH]; intros fuel' array size i chunks r H Hle;
    [discriminate|].
  destruct fuel' as [|fuel']; [lia|]. simpl in *.
  destruct (_ <? _)%Z; [|exact H]. eapply IH; [exact H | lia].
Qed.

(** Inside the array and for a positive size, [slice] is a [take] of a
    [drop]. *)
Lemma slice_inside array (size i : Z) :
  (1 <= size)%Z -> (0 <= i < Z.of_nat (length array))%Z ->
  let n := Z.to_nat (Z.min size (Z.of_nat (length array) - i)) in
  slice array i (i + size) = take n (drop (Z.to_nat i) array)
  /\ length (slice array i (i + size)) = n /\ 1 <= n /\ (Z.of_nat n <= size)%Z.
Proof.
  intros Hs Hi n. unfold slice, relativeIndex.
  destruct (Z.ltb_spec i 0); [lia|].
  destruct (Z.ltb_spec (i + size) 0); [lia|].
  replace (Z.to_nat (Z.min (i + size) (Z.of_nat (length array))
                     - Z.min i (Z.of_nat (length array)))) with n by lia.
  replace (Z.min i (Z.of_nat (length array))) with i by lia.
  split; [reflexivity|]. rewrite length_take, length_drop. lia.
Qed.

Lemma createChunksLoop_positive array (size : Z) (Hs : (1 <= size)%Z) fuel :
  forall i chunks,
    (0 <= i)%Z ->
    (Z.max 0 (Z.of_nat (length array) - i) < Z.of_nat fuel)%Z ->
    exists new,
      createChunksLoop fuel array size i chunks = Some (chunks ++ new)
      /\ concat new = drop (Z.to_nat i) array
      /\ Forall (fun c => 1 <= length c /\ (Z.of_nat (length c) <= size)%Z) new
      /\ (forall k c, new !! k = Some c ->
            c = take (Z.to_nat size)
                  (drop (Z.to_nat i + k * Z.to_nat size) array)).
Proof.
  induction fuel as [|fuel IH]; intros i chunks Hi Hfuel; [lia|].
  simpl. destruct (Z.ltb_spec i (Z.of_nat (length array))) as [Hlt|Hge].
  - destruct (slice_inside array size i Hs (conj Hi Hlt)) as (Hsl & Hlen & H1 & H2).
    set (n := Z.to_nat (Z.min size (Z.of_nat (length array) - i))) in *.
    destruct (IH (i + size)%Z (chunks ++ [slice array i (i + size)]))
      as (new & Hrun & Hcat & Hall & Hk); [lia|lia|].
    exists (slice array i (i + size) :: new).
    rewrite Hrun, <- app_assoc. split; [reflexivity|].
    assert (Htake : slice array i (i + size)
                    = take (Z.to_nat size) (drop (Z.to_nat i) array)).
    { rewrite Hsl. destruct (decide (n = Z.to_nat size)) as [->|Hne]; [done|].
      rewrite !take_ge; [done| |]; rewrite length_drop; lia. }
    split; [|split].
    + simpl. rewrite Hcat, Htake.
      replace (Z.to_nat (i + size)) with (Z.to_nat i + Z.to_nat size) by lia.
      rewrite <- drop_drop. apply take_drop.
    + constructor; [lia|exact Hall].
    + intros [|k] c Hc; simpl in Hc.
      * inversion Hc; subst c. rewrite Nat.add_0_r. exact Htake.
      * rewrite (Hk k c Hc). do 2 f_equal. lia.
  - exists []. rewrite app_nil_r. split; [reflexivity|].
    split; [|split; [constructor|intros k c Hc; destruct k; discriminate]].
    simpl. symmetry. apply drop_ge. lia.
Qed.

Lemma createChunksLoop_diverges array (size : Z) :
  (size <= 0)%Z -> array <> [] ->
  forall fuel i chunks, (i <= 0)%Z ->
    createChunksLoop fuel array size i chunks = None.
Proof.
  intros Hs Hne. induction fuel as [|fuel IH]; intros i chunks Hi; [reflexivity|].
  simpl. destruct (Z.ltb_spec i (Z.of_nat (length array))) as [_|Hge].
  - apply IH. lia.
  - destruct array; [done|]. simpl in Hge. lia.
Qed.

End ChunkingFacts.

Lemma createChunks_createBatches_diverge {A : Type} (array : list A) (size : Z) :
  (size <= 0)%Z -> array <> [] ->
  forall fuel,
    Chunking.createChunks fuel array size = None
    /\ Chunking.createBatches fuel array size = None.
Proof.
  intros Hs Hne fuel. unfold Chunking.createBatches.
  rewrite createBatchesLoop_createChunksLoop.
  split; apply createChunksLoop_diverges; auto; lia.
Qed.

(** C10.  For every input array and every [chunkSize >= 1], [createChunks]
    and [createBatches] terminate (any fuel above the array length is
    enough, and the result does not depend on it) and return non-empty
    chunks of length at most [chunkSize], the [k]-th being the [chunkSize]
    elements from index [k * chunkSize], whose concatenation is the input.
    With [chunkSize <= 0] and a non-empty input the loop never ends, and
    nothing between the constructor and the call site rejects such a size:
    the run chunks with the exact value found in the configuration. *)
Theorem C10_createChunks_partition_and_divergence
  {A : Type} (array : list A) (chunkSize : Z) :
  ((1 <= chunkSize)%Z ->
   exists chunks,
     (forall fuel, length array < fuel ->
        Chunking.createChunks fuel array chunkSize = Some chunks
        /\ Chunking.createBatches fuel array chunkSize = Some chunks)
     /\ concat chunks = array
     /\ Forall (fun c => 1 <= length c /\ (Z.of_nat (length c) <= chunkSize)%Z) chunks
     /\ (forall k c, chunks !! k = Some c ->
           c = take (Z.to_nat chunkSize) (drop (k * Z.to_nat chunkSize) array)))
  /\ ((chunkSize <= 0)%Z -> array <> [] ->
      forall fuel,
        Chunking.createChunks fuel array chunkSize = None
        /\ Chunking.createBatches fuel array chunkSize = None)
  /\ (forall fuel config,
        Config.chunkSize' config = Some chunkSize ->
        Chunking.chunksOfRun fuel config array
        = Chunking.createChunks fuel array chunkSize).
Proof.
  split; [|split].
  - intros Hs.
    destruct (createChunksLoop_positive array chunkSize Hs (S (length array)) 0%Z [])
      as (chunks & Hrun & Hcat & Hall & Hk); [lia|lia|].
    exists chunks. repeat split; try assumption.
    + eapply createChunksLoop_more_fuel; [exact Hrun|lia].
    + unfold Chunking.createBatches. rewrite createBatchesLoop_createChunksLoop.
      eapply createChunksLoop_more_fuel; [exact Hrun|lia].
  - intros Hs Hne fuel. by apply createChunks_createBatches_diverge.
  - intros fuel config Hc. unfold Chunking.chunksOfRun, Config.constructor.
    simpl. rewrite Hc. reflexivity.
Qed.

Lemma C10_witness :
  (exists chunks,
     (forall fuel, length [1; 2; 3; 4; 5] < fuel ->
        Chunking.createChunks fuel [1; 2; 3; 4; 5] 2 = Some chunks
        /\ Chunking.createBatches fuel [1; 2; 3; 4; 5] 2 = Some chunks)
     /\ concat chunks = [1; 2; 3; 4; 5]
     /\ Forall (fun c => 1 <= length c /\ (Z.of_nat (length c) <= 2)%Z) chunks
     /\ (forall k c, chunks !! k = Some c ->
           c = take (Z.to_nat 2) (drop (k * Z.to_nat 2) [1; 2; 3; 4; 5])))
  /\ (forall fuel,
        Chunking.createChunks fuel [7] 0 = None
        /\ Chunking.createBatches fuel [7] 0 = None).
Proof.
  split.
  - apply (C10_createChunks_partition_and_divergence [1; 2; 3; 4; 5] 2). lia.
  - apply (C10_createChunks_partition_and_divergence [7] 0); [lia|discriminate].
Defined.

Example createChunks_five_by_two :
  Chunking.createChunks 6 [1; 2; 3; 4; 5] 2 = Some [[1; 2]; [3; 4]; [5]].
Proof. reflexivity. Qed.

Example createChunks_default_size_unvalidated :
  Config.chunkSize
    (Config.constructor
       (Config.mkPartial (Some (-1)%Z) None None None None None None))
  = (-1)%Z.
Proof. reflexivity. Qed.

(** C1 (as amended).  For every tree, null root and null children
    included, [flattenDocumentTree] returns without error one entry per
    non-null node reachable through non-null nodes: the entries are, in
    order, the nodes at the addresses [flattenPaths root], each address
    occurs once, every such node has its address in the list, the depth of
    an entry is the length of its address (0 for the root, the parent's
    depth plus one for a child), and an ancestor's entry comes before the
    entries of all its descendants.  The length of the result is the
    number of non-null nodes; [countNodes] returns that number when the
    tree holds no null entry and raises an error otherwise. *)
Theorem C1_flatten_preorder_depth_count (root : option Tree.FigmaNode) :
  let out := Tree.flattenDocumentTree root 0 in
  let ps := Tree.flattenPaths root in
  Forall2 (fun p fn => Tree.subtreeAt root p = Some fn.1 /\ fn.2 = length p) ps out
  /\ NoDup ps
  /\ (forall p n, Tree.subtreeAt root p = Some n -> p ∈ ps)
  /\ (forall i j p q, ps !! i = Some p -> ps !! j = Some q ->
                      Tree.properPrefix p q -> i < j)
  /\ (forall i j p k ni di nj dj,
        ps !! i = Some p -> ps !! j = Some (p ++ [k]) ->
        out !! i = Some (ni, di) -> out !! j = Some (nj, dj) ->
        dj = di + 1)
  /\ length out = Tree.countNonNull root
  /\ Tree.countNodes root
     = (if Tree.nullFree root then Some (length out) else None).
Proof.
  intros out ps.
  assert (Haddr : Forall2 (fun p fn => Tree.subtreeAt root p = Some fn.1
                                       /\ fn.2 = length p) ps out).
  { destruct root as [n|]; [|constructor].
    eapply Forall2_impl; [apply (flattenNode_addresses n 0)|].
    intros p fn [H1 H2]. split; [exact H1|exact H2]. }
  split; [exact Haddr|].
  destruct root as [n|]; simpl in *.
  - repeat split.
    + apply pathsOf_NoDup.
    + intros p m. apply pathsOf_complete.
    + apply pathsOf_prefix_order.
    + intros i j p k ni di nj dj Hi Hj Hoi Hoj.
      destruct (Forall2_lookup_lr _ _ _ _ _ _ Haddr Hi Hoi) as [_ Hdi].
      destruct (Forall2_lookup_lr _ _ _ _ _ _ Haddr Hj Hoj) as [_ Hdj].
      simpl in *. rewrite length_app in Hdj. simpl in Hdj. lia.
    + apply flattenNode_length.
    + unfold out. rewrite countNodesOf_spec, flattenNode_length. reflexivity.
  - repeat split; try (intros; discriminate).
    + constructor.
    + intros p n H. by rewrite subtreeAt_None in H.
Qed.

(** The claim as first stated equates the length with [countNodes] on
    every tree; on a root with one null child the flattening has one entry
    and [countNodes] raises a TypeError. *)
Lemma C1_countNodes_raises_on_null_child :
  let root := Some (Tree.mkNode "0:1" "Page 1" "CANVAS" (Some [None])) in
  length (Tree.flattenDocumentTree root 0) = 1
  /\ Tree.countNodes root = None
  /\ Tree.countNodes root <> Some (length (Tree.flattenDocumentTree root 0)).
Proof. repeat split. discriminate. Qed.

Example flatten_example :
  let leaf s := Tree.mkNode s s "TEXT" None in
  let root := Tree.mkNode "r" "r" "FRAME"
                (Some [Some (Tree.mkNode "a" "a" "GROUP" (Some [Some (leaf "a0"); None]));
                       None;
                       Some (leaf "b")]) in
  map (fun fn => (Tree.id fn.1, fn.2)) (Tree.flattenDocumentTree (Some root) 0)
  = [("r", 0); ("a", 1); ("a0", 2); ("b", 1)]
  /\ Tree.flattenPaths (Some root) = [[]; [0]; [0; 0]; [2]]
  /\ Tree.countNonNull (Some root) = 4
  /\ Tree.countNodes (Some root) = None
  /\ Tree.flattenDocumentTree None 0 = [].
Proof. repeat split. Qed.

(** ** The permit pool *)

Section SemFacts.
Import Sem.

Lemma dropHolder_length who l :
  existsb (Nat.eqb who) l = true ->
  S (length (dropHolder who l)) = length l.
Proof.
  induction l as [|x l IH]; simpl; [discriminate|].
  destruct (Nat.eqb_spec x who) as [->|Hne].
  - reflexivity.
  - destruct (Nat.eqb_spec who x) as [->|_]; [done|]. simpl.
    intros H. rewrite IH; done.
Qed.

Lemma step_balanced n e s s' :
  balanced n s -> step e s = Some s' -> balanced n s'.
Proof.
  unfold balanced, executing. intros [Hsum Hpos] Hstep.
  destruct e as [who|who]; simpl in Hstep.
  - inversion Hstep; subst s'. unfold acquire.
    destruct (Z.ltb_spec 0 (permits s)); simpl; lia.
  - unfold release in Hstep.
    destruct (existsb _ _) eqn:Hin; [|discriminate].
    apply dropHolder_length in Hin.
    destruct (queue s); inversion Hstep; subst s'; simpl; lia.
Qed.

Lemma run_balanced n trace : forall s s',
  balanced n s -> run trace s = Some s' -> balanced n s'.
Proof.
  induction trace as [|e trace IH]; intros s s' Hs Hrun; simpl in Hrun.
  - inversion Hrun; subst; exact Hs.
  - destruct (step e s) as [s1|] eqn:Hstep; [|discriminate].
    eapply IH; [|exact Hrun]. eapply step_balanced; eauto.
Qed.

End SemFacts.

(** C2.  For every configuration, with [n = maxConcurrentChunks] a
    capacity (not negative), and every interleaving of acquire and release
    steps of the semaphore created with [n] permits: in the state reached,
    the permit count is in [[0, n]], the number of tasks holding a permit
    is at most [n], and holders plus available permits are exactly [n]. *)
Theorem C2_semaphore_bounds_concurrency
  (config : Config.ProcessingConfig) (trace : list Sem.Event) (s : Sem.Semaphore) :
  let n := Config.maxConcurrentChunks config in
  (0 <= n)%Z ->
  Sem.run trace (Sem.create n) = Some s ->
  (0 <= Sem.permits s <= n)%Z
  /\ (0 <= Sem.executing s <= n)%Z
  /\ (Sem.executing s + Sem.permits s = n)%Z.
Proof.
  intros n Hn Hrun.
  assert (H : balanced n s).
  { eapply run_balanced; [|exact Hrun]. unfold balanced, Sem.executing. simpl. lia. }
  destruct H as [Hsum Hpos]. unfold Sem.executing in *. lia.
Qed.

Lemma C2_witness :
  let config := Config.constructor Config.noOverrides in
  let s := {| Sem.permits := 1; Sem.queue := []; Sem.holders := [4; 3] |} in
  (0 <= Sem.permits s <= 3)%Z
  /\ (0 <= Sem.executing s <= 3)%Z
  /\ (Sem.executing s + Sem.permits s = 3)%Z.
Proof.
  apply (C2_semaphore_bounds_concurrency
           (Config.constructor Config.noOverrides)
           [Sem.Acquire 0; Sem.Acquire 1; Sem.Acquire 2; Sem.Acquire 3;
            Sem.Release 1; Sem.Acquire 4; Sem.Release 0; Sem.Release 2]).
  - simpl. lia.
  - reflexivity.
Defined.

Example semaphore_fifo_handover :
  Sem.run [Sem.Acquire 0; Sem.Acquire 1; Sem.Acquire 2; Sem.Release 0]
          (Sem.create 1)
  = Some {| Sem.permits := 0; Sem.queue := [2]; Sem.holders := [1] |}.
Proof. reflexivity. Qed.

(** ** The retrying unit executor *)

Section RetryFacts.
Import Retry.
Variable maxRetriesPerChunk : Z.
Variable aborted : Z -> bool.
Variable work : Z -> option Error.

Lemma retryLoop_all_fail fuel : forall attempt log,
  (0 <= attempt < maxRetriesPerChunk)%Z ->
  Z.to_nat (maxRetriesPerChunk - attempt) <= fuel ->
  (forall a, (attempt <= a < maxRetriesPerChunk)%Z -> aborted a = false) ->
  (forall a, (attempt <= a < maxRetriesPerChunk)%Z -> is_Some (work a)) ->
  exists e,
    work (maxRetriesPerChunk - 1)%Z = Some e
    /\ retryLoop maxRetriesPerChunk aborted work fuel attempt log
       = Some (Threw e,
               log ++ failureLog (Z.to_nat (maxRetriesPerChunk - attempt)) attempt).
Proof.
  induction fuel as [|fuel IH]; intros attempt log Ha Hfuel Hab Hwork; [lia|].
  simpl. destruct (Z.ltb_spec attempt maxRetriesPerChunk); [|lia].
  rewrite Hab by lia. destruct (Hwork attempt) as [e He]; [lia|]. rewrite He.
  destruct (Z.geb_spec (attempt + 1) maxRetriesPerChunk) as [Hlast|Hmore].
  - exists e. replace (maxRetriesPerChunk - 1)%Z with attempt by lia.
    replace (Z.to_nat (maxRetriesPerChunk - attempt)) with 1 by lia.
    split; [exact He|reflexivity].
  - destruct (IH (attempt + 1)%Z
                 (log ++ [Executed attempt; Waited (100 * 2 ^ (attempt + 1))%Z]))
      as (e' & He' & Hrun); [lia|lia| | |].
    + intros a Hr. apply Hab. lia.
    + intros a Hr. apply Hwork. lia.
    + exists e'. split; [exact He'|]. rewrite Hrun, <- app_assoc. do 2 f_equal.
      replace (Z.to_nat (maxRetriesPerChunk - attempt))
        with (S (Z.to_nat (maxRetriesPerChunk - (attempt + 1)))) by lia.
      destruct (Z.to_nat (maxRetriesPerChunk - (attempt + 1))) eqn:E; [lia|].
      reflexivity.
Qed.

End RetryFacts.

Lemma failureLog_executions n : forall attempt,
  Retry.executions (Retry.failureLog n attempt)
  = map (fun k => (attempt + Z.of_nat k)%Z) (seq 0 n).
Proof.
  induction n as [|[|n] IH]; intros attempt; [reflexivity| |].
  - simpl. f_equal. lia.
  - change (Retry.executions (Retry.failureLog (S (S n)) attempt))
      with (attempt :: Retry.executions (Retry.failureLog (S n) (attempt + 1))).
    rewrite IH. change (seq 0 (S (S n))) with (0 :: seq 1 (S n)).
    rewrite <- seq_shift. cbn [map]. rewrite map_map.
    f_equal; [lia|]. apply map_ext. intros k. lia.
Qed.

Lemma failureLog_waits n : forall attempt,
  Retry.waits (Retry.failureLog (S n) attempt)
  = map (fun k => (100 * 2 ^ (attempt + Z.of_nat k))%Z) (seq 1 n).
Proof.
  induction n as [|n IH]; intros attempt; [reflexivity|].
  change (Retry.waits (Retry.failureLog (S (S n)) attempt))
    with ((100 * 2 ^ (attempt + 1))%Z
            :: Retry.waits (Retry.failureLog (S n) (attempt + 1))).
  rewrite IH. change (seq 1 (S n)) with (1 :: seq 2 n).
  rewrite <- (seq_shift n 1). cbn [map]. rewrite map_map.
  f_equal. apply map_ext. intros k. do 2 f_equal. lia.
Qed.

(** C3 (as amended).  With [maxRetriesPerChunk >= 1], no abort, and a work
    function that fails on every attempt, [processChunkWithRetries]
    terminates and throws the failure of the last attempt, after exactly
    [maxRetriesPerChunk] executions; between the [k]-th execution and the
    next it waits [100 * 2 ^ k] milliseconds ([k] counted from 1: 200 after
    the first failure, 400 after the second), and it does not wait after
    the last one. *)
Theorem C3_exhausted_retries
  (maxRetriesPerChunk : Z) (aborted : Z -> bool) (work : Z -> option Retry.Error)
  (fuel : nat) :
  (1 <= maxRetriesPerChunk)%Z ->
  (forall a, (0 <= a < maxRetriesPerChunk)%Z -> aborted a = false) ->
  (forall a, (0 <= a < maxRetriesPerChunk)%Z -> is_Some (work a)) ->
  Z.to_nat maxRetriesPerChunk <= fuel ->
  exists e log,
    Retry.processChunkWithRetries maxRetriesPerChunk aborted work fuel
    = Some (Retry.Threw e, log)
    /\ work (maxRetriesPerChunk - 1)%Z = Some e
    /\ log = Retry.failureLog (Z.to_nat maxRetriesPerChunk) 0
    /\ Retry.executions log = map Z.of_nat (seq 0 (Z.to_nat maxRetriesPerChunk))
    /\ Z.of_nat (length (Retry.executions log)) = maxRetriesPerChunk
    /\ Retry.waits log
       = map (fun k => (100 * 2 ^ Z.of_nat k)%Z)
             (seq 1 (Z.to_nat maxRetriesPerChunk - 1)).
Proof.
  intros Hmax Hab Hwork Hfuel.
  destruct (retryLoop_all_fail maxRetriesPerChunk aborted work fuel 0%Z [])
    as (e & He & Hrun); [lia| |auto|auto|].
  { rewrite Z.sub_0_r. exact Hfuel. }
  rewrite Z.sub_0_r in Hrun. simpl in Hrun.
  exists e, (Retry.failureLog (Z.to_nat maxRetriesPerChunk) 0).
  split; [exact Hrun|]. split; [exact He|]. split; [reflexivity|].
  rewrite failureLog_executions. split; [reflexivity|].
  split; [rewrite length_map, length_seq; lia|].
  destruct (Z.to_nat maxRetriesPerChunk) as [|n] eqn:E; [lia|].
  rewrite failureLog_waits. simpl. rewrite Nat.sub_0_r. reflexivity.
Qed.

Lemma C3_witness :
  exists e log,
    Retry.processChunkWithRetries 3 (fun _ => false)
      (fun a => Some (Retry.WorkError (Z.to_nat a))) 3
    = Some (Retry.Threw e, log)
    /\ Some (Retry.WorkError (Z.to_nat (3 - 1))) = Some e
    /\ log = Retry.failureLog (Z.to_nat 3) 0
    /\ Retry.executions log = map Z.of_nat (seq 0 (Z.to_nat 3))
    /\ Z.of_nat (length (Retry.executions log)) = 3%Z
    /\ Retry.waits log = map (fun k => (100 * 2 ^ Z.of_nat k)%Z) (seq 1 (Z.to_nat 3 - 1)).
Proof.
  apply (C3_exhausted_retries 3 (fun _ => false)
           (fun a => Some (Retry.WorkError (Z.to_nat a))) 3).
  - lia.
  - reflexivity.
  - intros a _. eexists. reflexivity.
  - simpl. lia.
Defined.

Example retries_default_config :
  Retry.processChunkWithRetries 3 (fun _ => false)
    (fun a => Some (Retry.WorkError (Z.to_nat a))) 3
  = Some (Retry.Threw (Retry.WorkError 2),
          [Retry.Executed 0; Retry.Waited 200; Retry.Executed 1;
           Retry.Waited 400; Retry.Executed 2]).
Proof. reflexivity. Qed.

(** The claim as first stated covers every configuration; with
    [maxRetriesPerChunk = 0] the loop body is never entered: the chunk is
    not executed and the call returns normally, so no failure reaches the
    caller. *)
Lemma C3_zero_retries_returns_normally :
  Retry.processChunkWithRetries 0 (fun _ => false)
    (fun _ => Some (Retry.WorkError 1)) 5
  = Some (Retry.Returned, [])
  /\ forall e log,
       Retry.processChunkWithRetries 0 (fun _ => false)
         (fun _ => Some (Retry.WorkError 1)) 5
       <> Some (Retry.Threw e, log).
Proof. split; [reflexivity|]. intros e log. discriminate. Qed.

(** ** The progress reporter *)

Section ProgressFacts.
Import Progress.
Variable throttle : Z.

Lemma reportAll_app r us vs :
  reportAll throttle r (us ++ vs)
  = let '(r1, os) := reportAll throttle r us in
    let '(r2, os') := reportAll throttle r1 vs in
    (r2, os ++ os').
Proof.
  revert r. induction us as [|u us IH]; intros r; simpl.
  - destruct (reportAll throttle r vs); reflexivity.
  - destruct (maybeEmitProgress throttle r u) as [r1 o].
    rewrite IH. destruct (reportAll throttle r1 us) as [r2 os].
    destruct (reportAll throttle r2 vs); reflexivity.
Qed.

Lemma reportAll_length us : forall r,
  length (reportAll throttle r us).2 = length us.
Proof.
  induction us as [|u us IH]; intros r; simpl; [reflexivity|].
  destruct (maybeEmitProgress throttle r u) as [r1 o].
  specialize (IH r1). destruct (reportAll throttle r1 us). simpl in *. lia.
Qed.

(** The field after a sequence of updates is the time of the last one
    that was emitted. *)
Lemma reportAll_last us : forall r,
  lastProgressEmitTime (reportAll throttle r us).1 = previousEmission throttle r us.
Proof.
  unfold previousEmission.
  induction us as [|u us IH]; intros r; simpl; [reflexivity|].
  destruct (maybeEmitProgress throttle r u) as [r1 o] eqn:Hu.
  specialize (IH r1). destruct (reportAll throttle r1 us) as [r2 os].
  simpl in *. rewrite IH. f_equal.
  unfold maybeEmitProgress in Hu.
  destruct (_ && _); inversion Hu; subst; reflexivity.
Qed.

Lemma reportAll_callback us : forall r,
  progressCallback (reportAll throttle r us).1 = progressCallback r.
Proof.
  induction us as [|u us IH]; intros r; simpl; [reflexivity|].
  destruct (maybeEmitProgress throttle r u) as [r1 o] eqn:Hu.
  specialize (IH r1). destruct (reportAll throttle r1 us) as [r2 os].
  simpl in *. rewrite IH.
  unfold maybeEmitProgress in Hu.
  destruct (_ && _); inversion Hu; subst; reflexivity.
Qed.

Lemma reportAll_middle r pre u post :
  (reportAll throttle r (pre ++ u :: post)).2 !! length pre
  = Some (maybeEmitProgress throttle (reportAll throttle r pre).1 u).2.
Proof.
  rewrite reportAll_app. pose proof (reportAll_length pre r) as Hlen.
  destruct (reportAll throttle r pre) as [r1 os]. simpl in *.
  destruct (maybeEmitProgress throttle r1 u) as [r2 o].
  destruct (reportAll throttle r2 post) as [r3 os']. simpl.
  rewrite lookup_app_r by lia. rewrite Hlen, Nat.sub_diag. reflexivity.
Qed.

End ProgressFacts.

(** C9.  In a sequence of progress updates of one run with a callback
    registered, let [prev] be the time of the most recent update that
    reached the callback before update [u].  A final update
    ([processed = total]) always reaches the callback; any other update
    reaches it exactly when more than [progressThrottleMS] have passed
    since [prev], so an update inside the throttle window of the previous
    emission is suppressed and two successive emissions, the second not
    final, are more than [progressThrottleMS] apart.  The snapshot carries
    the counters of the update. *)
Theorem C9_progress_throttle
  (throttle : Z) (r : Progress.Reporter)
  (pre : list Progress.Update) (u : Progress.Update) (post : list Progress.Update) :
  Progress.progressCallback r = true ->
  let prev := Progress.previousEmission throttle r pre in
  let out := (Progress.reportAll throttle r (pre ++ u :: post)).2 !! length pre in
  (Progress.processed u = Progress.total u ->
     exists snap, out = Some (Some snap)
                  /\ Progress.processedNodes snap = Progress.processed u
                  /\ Progress.totalNodes snap = Progress.total u)
  /\ (Progress.processed u <> Progress.total u ->
      (Progress.now u - prev <= throttle)%Z ->
      out = Some None)
  /\ (Progress.processed u <> Progress.total u ->
      (throttle < Progress.now u - prev)%Z ->
      exists snap, out = Some (Some snap)
                   /\ Progress.processedNodes snap = Progress.processed u
                   /\ Progress.totalNodes snap = Progress.total u)
  /\ (out = Some None ->
      Progress.previousEmission throttle r (pre ++ [u]) = prev)
  /\ (out <> Some None ->
      Progress.previousEmission throttle r (pre ++ [u]) = Progress.now u).
Proof.
  intros Hcb prev out. unfold out, prev.
  rewrite reportAll_middle.
  rewrite <- !reportAll_last.
  rewrite reportAll_app.
  pose proof (reportAll_callback throttle pre r) as Hcb'.
  destruct (Progress.reportAll throttle r pre) as [r1 os]. simpl in *.
  rewrite Hcb in Hcb'.
  unfold Progress.maybeEmitProgress. rewrite Hcb'. simpl.
  destruct (Z.ltb_spec throttle (Progress.now u - Progress.lastProgressEmitTime r1));
    destruct (Z.eqb_spec (Progress.processed u) (Progress.total u)); simpl;
    repeat split; intros; try lia; try congruence; eauto.
Qed.

Lemma C9_witness :
  let r := Progress.mkReporter true 0 in
  let upd t p := Progress.mkUpdate t t 100 p 1 2 0%Q in
  let pre := [upd 1000 10; upd 1100 20]%Z in
  let u := upd 1150%Z 100%Z in
  let prev := Progress.previousEmission 200 r pre in
  let out := (Progress.reportAll 200 r (pre ++ [u])).2 !! length pre in
  (Progress.processed u = Progress.total u ->
     exists snap, out = Some (Some snap)
                  /\ Progress.processedNodes snap = Progress.processed u
                  /\ Progress.totalNodes snap = Progress.total u)
  /\ (Progress.processed u <> Progress.total u ->
      (Progress.now u - prev <= 200)%Z ->
      out = Some None)
  /\ (Progress.processed u <> Progress.total u ->
      (200 < Progress.now u - prev)%Z ->
      exists snap, out = Some (Some snap)
                   /\ Progress.processedNodes snap = Progress.processed u
                   /\ Progress.totalNodes snap = Progress.total u)
  /\ (out = Some None ->
      Progress.previousEmission 200 r (pre ++ [u]) = prev)
  /\ (out <> Some None ->
      Progress.previousEmission 200 r (pre ++ [u]) = Progress.now u).
Proof.
  apply (C9_progress_throttle 200 (Progress.mkReporter true 0)
           [Progress.mkUpdate 1000 1000 100 10 1 2 0%Q;
            Progress.mkUpdate 1100 1100 100 20 1 2 0%Q]
           (Progress.mkUpdate 1150 1150 100 100 1 2 0%Q) []).
  reflexivity.
Defined.

Example throttle_example :
  let upd t p := Progress.mkUpdate t t 100 p 1 2 0%Q in
  map (fun o => match o with
                | Some snap => Some (Progress.processedNodes snap)
                | None => None
                end)
      (Progress.reportAll 200 (Progress.mkReporter true 0)
         [upd 1000 10; upd 1100 20; upd 1200 30; upd 1201 40; upd 1250 100]%Z).2
  = [Some 10; None; None; Some 40; Some 100]%Z.
Proof. reflexivity. Qed.

(** ** The session registry *)

Section RealTimeFacts.
Import RealTime.

Lemma getSession_onSession p sessionId f r sess :
  sessions p !! sessionId = Some r -> objects p !! r = Some sess ->
  getSession (onSession sessionId f p) sessionId = Some (f sess)
  /\ sessions (onSession sessionId f p) = sessions p
  /\ objects (onSession sessionId f p) !! r = Some (f sess).
Proof.
  intros Hr Hs. unfold getSession, onSession. rewrite Hr. simpl. rewrite Hr.
  rewrite list_lookup_alter_eq, Hs. done.
Qed.

Lemma onSession_unregistered p sessionId f :
  sessions p !! sessionId = None -> onSession sessionId f p = p.
Proof. intros H. unfold onSession. rewrite H. reflexivity. Qed.

End RealTimeFacts.

(** C4 (as amended).  The status of a session is one of [active],
    [paused], [completed], [error]; there is no aborted status.  On a
    registered session no operation looks at the current status: pause
    sets [paused], resume sets [active], completion sets [completed],
    failure sets [error], from any status, [completed] and [error]
    included; stop sets [error] on the session object and removes the
    session from the registry.  On an identifier that is not registered,
    which is the case after stop, none of these operations changes any
    session object or registers anything. *)
Theorem C4_status_set_unconditionally
  (p : RealTime.Processor) (sessionId : string) (op : RealTime.Operation) :
  (forall r sess,
      RealTime.sessions p !! sessionId = Some r ->
      RealTime.objects p !! r = Some sess ->
      let p' := RealTime.perform sessionId op p in
      match op with
      | RealTime.Pause =>
          RealTime.getSession p' sessionId
          = Some (RealTime.withStatus RealTime.paused sess)
      | RealTime.Resume =>
          RealTime.getSession p' sessionId
          = Some (RealTime.withStatus RealTime.active sess)
      | RealTime.Completion =>
          RealTime.getSession p' sessionId
          = Some (RealTime.withStatus RealTime.completed sess)
      | RealTime.Failure =>
          RealTime.getSession p' sessionId
          = Some (RealTime.withStatus RealTime.error sess)
      | RealTime.Stop =>
          RealTime.getSession p' sessionId = None
          /\ RealTime.objects p' !! r
             = Some (RealTime.withStatus RealTime.error sess)
      | RealTime.Progressed =>
          RealTime.getSession p' sessionId = Some sess
      end)
  /\ (RealTime.sessions p !! sessionId = None ->
      RealTime.objects (RealTime.perform sessionId op p) = RealTime.objects p
      /\ RealTime.sessions (RealTime.perform sessionId op p) !! sessionId = None).
Proof.
  split.
  - intros r sess Hr Hs p'. unfold p'.
    destruct op; simpl;
      unfold RealTime.pauseProcessing, RealTime.resumeProcessing,
             RealTime.stopProcessing, RealTime.handleError;
      try (destruct (getSession_onSession p sessionId
                       (RealTime.withStatus RealTime.paused) r sess Hr Hs)
             as (H & _ & _); exact H);
      try (destruct (getSession_onSession p sessionId
                       (RealTime.withStatus RealTime.active) r sess Hr Hs)
             as (H & _ & _); exact H);
      try (destruct (getSession_onSession p sessionId
                       (RealTime.withStatus RealTime.completed) r sess Hr Hs)
             as (H & _ & _); exact H);
      try (destruct (getSession_onSession p sessionId
                       (RealTime.withStatus RealTime.error) r sess Hr Hs)
             as (H & _ & _); exact H).
    + destruct (getSession_onSession p sessionId
                  (RealTime.withStatus RealTime.error) r sess Hr Hs)
        as (_ & _ & H).
      split; [|exact H].
      unfold RealTime.getSession. simpl. by rewrite lookup_delete_eq.
    + unfold RealTime.getSession. simpl. rewrite Hr. exact Hs.
  - intros Hnone.
    destruct op; simpl;
      unfold RealTime.pauseProcessing, RealTime.resumeProcessing,
             RealTime.stopProcessing, RealTime.handleError;
      rewrite ?onSession_unregistered by exact Hnone; simpl;
      rewrite ?lookup_delete_eq; auto.
Qed.

Lemma C4_witness :
  RealTime.getSession (RealTime.perform "s1" RealTime.Resume sessionOne) "s1"
  = Some (RealTime.mkSession "s1" 0 3 0 RealTime.active)
  /\ RealTime.objects (RealTime.perform "s2" RealTime.Pause sessionOne)
     = RealTime.objects sessionOne.
Proof.
  split.
  - apply (proj1 (C4_status_set_unconditionally sessionOne "s1" RealTime.Resume)
             0 (RealTime.mkSession "s1" 0 3 0 RealTime.completed));
      reflexivity.
  - apply (proj2 (C4_status_set_unconditionally sessionOne "s2" RealTime.Pause)).
    reflexivity.
Defined.

(** The claim as first stated makes [completed] terminal; a session that
    has completed and is then paused becomes [paused], a transition outside
    the allowed ones. *)
Lemma C4_pause_after_completion :
  let document := Some (Tree.mkNode "0:0" "Document" "DOCUMENT" None) in
  match RealTime.startProcessing true document "s1" 0 RealTime.empty with
  | Some p0 =>
      let p1 := RealTime.perform "s1" RealTime.Completion p0 in
      let p2 := RealTime.perform "s1" RealTime.Pause p1 in
      RealTime.status <$> RealTime.getSession p1 "s1" = Some RealTime.completed
      /\ RealTime.status <$> RealTime.getSession p2 "s1" = Some RealTime.paused
      /\ RealTime.allowedTransition RealTime.completed RealTime.paused = false
  | None => False
  end.
Proof. vm_compute. repeat split. Qed.

(** ** Pause and resume *)

(** A loop of [processInMainThread] that finds the session not active at
    its head stops there, whatever is left to do. *)
Lemma mainThreadLoop_breaks sessionId session during after batches i p :
  RealTime.statusAt p session <> Some RealTime.active ->
  RealTime.mainThreadLoop sessionId session during after batches i p = p.
Proof.
  intros H. destruct batches as [|batch rest]; [reflexivity|]. simpl.
  destruct (RealTime.statusAt p session) as [[]|]; congruence.
Qed.

(** C5, on the main-thread path.  Three nodes in batches of one, no
    worker; pause is called while the first batch is awaited.  The loop
    leaves at its next test, the statement after the loop marks the
    session [completed] and the [complete] event is emitted with one node
    of three processed; a later resume sets the status back to [active]
    and processes nothing, the loop being over. *)
Theorem C5_main_thread_pause_marks_completed :
  let during i := if Nat.eqb i 0 then [RealTime.CallPause] else [] in
  match RealTime.startProcessing false threeNodes "s1" 0 RealTime.empty with
  | Some p0 =>
      match RealTime.processInMainThread 1 threeNodes "s1" during (fun _ => []) p0 with
      | Some p1 =>
          let p2 := RealTime.resumeProcessing "s1" p1 in
          RealTime.getSession p0 "s1"
          = Some (RealTime.mkSession "s1" 0 3 0 RealTime.active)
          /\ RealTime.getSession p1 "s1"
             = Some (RealTime.mkSession "s1" 0 3 1 RealTime.completed)
          /\ last (RealTime.emitted p1) = Some ("s1", RealTime.complete)
          /\ RealTime.getSession p2 "s1"
             = Some (RealTime.mkSession "s1" 0 3 1 RealTime.active)
      | None => False
      end
  | None => False
  end.
Proof. vm_compute. repeat split. Qed.

(** The same scenario on the worker path: PAUSE is handled while the
    first node is processed, RESUME three polls later.  Nothing is counted
    while the worker polls, and the run then goes on to the three nodes and
    posts COMPLETE. *)
Example worker_pause_then_resume :
  let inbox t := match t with
                 | 0 => [Worker.PAUSE]
                 | 3 => [Worker.RESUME]
                 | _ => []
                 end in
  Worker.startProcessing 10 inbox threeNodes
  = Some {| Worker.isPaused := false; Worker.isProcessing := true;
            Worker.processedNodes := 3;
            Worker.posted := [RealTime.PROGRESS; RealTime.COMPLETE] |}
  /\ (forall w t,
        Worker.isPaused w = true -> Worker.isProcessing w = true ->
        inbox t = [] ->
        Worker.waitWhilePaused 1 inbox t w = None
        /\ Worker.processedNodes (Worker.deliver (inbox t) w)
           = Worker.processedNodes w).
Proof.
  split; [reflexivity|]. intros w t Hp Hr Hi. simpl.
  rewrite Hp, Hr, Hi. simpl. rewrite Hp, Hr. done.
Qed.

(** ** The estimate of the remaining time *)

(** Whatever the previous emission time, an emitted snapshot carries the
    estimate computed against the time of this very emission. *)
Lemma maybeEmitProgress_eta throttle r u r' snap :
  Progress.maybeEmitProgress throttle r u = (r', Some snap) ->
  Progress.estimatedTimeRemainingMS snap
  = Progress.calculateETA (Progress.now u) (Progress.nowETA u)
      (Progress.processed u) (Progress.total u).
Proof.
  unfold Progress.maybeEmitProgress.
  destruct (_ && _); intros H; inversion H; subst. reflexivity.
Qed.

Lemma calculateETA_same_instant now processed total :
  Progress.calculateETA now now processed total = Progress.Infinity.
Proof.
  unfold Progress.calculateETA.
  destruct (now =? 0)%Z; rewrite Z.sub_diag, orb_true_r; reflexivity.
Qed.

(** Read against the time of the previous snapshot, the formula of
    [calculateETA] is the specified one; only its caller has replaced that
    time by the current one. *)
Lemma calculateETA_meets_specification lastSnapshot now processed total :
  lastSnapshot <> 0%Z ->
  Progress.calculateETA lastSnapshot now processed total
  = Progress.specifiedETA lastSnapshot now processed total.
Proof.
  intros H. unfold Progress.calculateETA, Progress.specifiedETA.
  destruct (Z.eqb_spec lastSnapshot 0); [done|reflexivity].
Qed.

(** C8, at a snapshot emission.  The previous snapshot was emitted at
    1000 ms, the clock reads 2000 ms, 50 of 100 nodes are processed.  The
    specified estimate is 50 / (50 / 1000) = 1000 ms; the snapshot carries
    [Infinity], because [lastProgressEmitTime] has been set to the current
    time before [calculateETA] reads it. *)
Theorem C8_eta_measured_from_current_emission :
  let r := Progress.mkReporter true 1000 in
  let u := Progress.mkUpdate 2000 2000 100 50 1 2 0%Q in
  (exists r' snap,
      Progress.maybeEmitProgress 200 r u = (r', Some snap)
      /\ Progress.estimatedTimeRemainingMS snap = Progress.Infinity)
  /\ (exists q,
         Progress.specifiedETA 1000 2000 50 100 = Progress.Finite q
         /\ (q == 1000)%Q)
  /\ Progress.calculateETA 1000 2000 50 100
     = Progress.specifiedETA 1000 2000 50 100.
Proof.
  split; [|split].
  - eexists _, _. split; reflexivity.
  - eexists. split; [reflexivity|]. reflexivity.
  - reflexivity.
Qed.

(** ** The run *)

Section PipelineFacts.
Import Pipeline.
Variable config : Config.ProcessingConfig.
Variable chunks : list (list Tree.FlatNode).
Variable work : nat -> Z -> option nat.

Local Abbreviation step := (Pipeline.step config chunks work).
Local Abbreviation run := (Pipeline.run config chunks work).

Lemma forallb_isReturned_lookup ts i t :
  forallb isReturned ts = true -> ts !! i = Some t -> isReturned t = true.
Proof.
  intros H Hi. rewrite forallb_forall in H. apply H.
  apply list_elem_of_In. eapply list_elem_of_lookup_2; eauto.
Qed.

Lemma releasePermit_frame i r s s' :
  releasePermit i r s = Some s' ->
  abortController s' = abortController s /\ loop s' = loop s
  /\ data s' = data s /\ outcome s' = outcome s
  /\ tasks s' = match Sem.queue (semaphore s) with
               | next :: _ => <[next := Ready 0]> (<[i := Done r]> (tasks s))
               | [] => <[i := Done r]> (tasks s)
               end.
Proof.
  unfold releasePermit. destruct (Sem.release i (semaphore s)); [|discriminate].
  intros H; inversion H; subst; simpl. done.
Qed.

(** *** What a settled run looks like *)

Lemma step_settledInv l s s' :
  settledInv s -> step l s = Some s' -> settledInv s'.
Proof.
  intros [Hex Hres] Hstep.
  assert (Hbusy : forall i t, tasks s !! i = Some t -> isReturned t = false ->
                              forall d, outcome s <> Some (Resolved d)).
  { intros i t Hi Ht d Hd. destruct (Hres d Hd) as [Hall _].
    rewrite (forallb_isReturned_lookup _ _ _ Hall Hi) in Ht. discriminate. }
  destruct l as [|i|i| |[i|]]; simpl in Hstep.
  - destruct (loop s) as [i| |] eqn:Hl; try discriminate.
    assert (Hnone : outcome s = None).
    { destruct (outcome s) as [o|] eqn:Ho; [|done].
      specialize (Hex o eq_refl). congruence. }
    destruct (i <? length chunks); [destruct (signalAborted s)|];
      inversion Hstep; subst; split; simpl; intros; congruence.
  - destruct (tasks s !! i) as [[| |a|a|r]|] eqn:Hi; try discriminate.
    specialize (Hbusy i _ Hi eq_refl).
    assert (Hsame : loop s' = loop s /\ outcome s' = outcome s).
    { destruct (_ <? _)%Z; [destruct (signalAborted s)|];
        try (apply releasePermit_frame in Hstep; tauto);
        inversion Hstep; subst; done. }
    destruct Hsame as [Hl Ho]. split; rewrite ?Hl, Ho; [exact Hex|].
    intros d Hd. destruct (Hbusy d Hd).
  - destruct (tasks s !! i) as [[| |a|a|r]|] eqn:Hi; try discriminate.
    specialize (Hbusy i _ Hi eq_refl).
    assert (Hsame : loop s' = loop s /\ outcome s' = outcome s).
    { destruct (work i a); [destruct (_ >=? _)%Z|];
        try (apply releasePermit_frame in Hstep; simpl in Hstep; tauto);
        inversion Hstep; subst; done. }
    destruct Hsame as [Hl Ho]. split; rewrite ?Hl, Ho; [exact Hex|].
    intros d Hd. destruct (Hbusy d Hd).
  - inversion Hstep; subst; split; simpl; [exact Hex|exact Hres].
  - destruct (loop s) eqn:Hl; try discriminate.
    destruct (tasks s !! i) as [[| | | |[|e]]|]; try discriminate.
    inversion Hstep; subst; split; simpl; [done|]. intros d Hd. discriminate.
  - destruct (loop s) eqn:Hl; try discriminate.
    destruct (forallb isReturned (tasks s)) eqn:Hall; [|discriminate].
    inversion Hstep; subst; split; simpl; [done|].
    intros d Hd. inversion Hd; subst. done.
Qed.

Lemma run_settledInv trace : forall s s',
  settledInv s -> run trace s = Some s' -> settledInv s'.
Proof.
  induction trace as [|l trace IH]; intros s s' Hs Hrun; simpl in Hrun.
  - inversion Hrun; subst; exact Hs.
  - destruct (step l s) as [s1|] eqn:Hstep; [|discriminate].
    eapply IH; [|exact Hrun]. eapply step_settledInv; eauto.
Qed.

(** *** Runs in which [abort()] is never called *)

Lemma releasePermit_unabortedInv i r s s' :
  unabortedInv s -> r <> Retry.Threw Retry.AbortError ->
  releasePermit i r s = Some s' -> unabortedInv s'.
Proof.
  intros (Hsig & Hts & Ho) Hr Hrel.
  apply releasePermit_frame in Hrel as (Hc & _ & _ & Ho' & Ht).
  unfold unabortedInv, signalAborted in *. rewrite Hc, Ho', Ht.
  repeat split; [exact Hsig| |exact Ho].
  assert (Forall notAbortError (<[i := Done r]> (tasks s))).
  { apply Forall_insert; [exact Hts|]. unfold notAbortError. congruence. }
  destruct (Sem.queue (semaphore s)); [done|].
  apply Forall_insert; [done|]. unfold notAbortError. congruence.
Qed.

Lemma insert_notAbortError i t ts :
  Forall notAbortError ts -> notAbortError t -> Forall notAbortError (<[i := t]> ts).
Proof. intros. by apply Forall_insert. Qed.

Lemma step_unabortedInv l s s' :
  l <> Abort -> unabortedInv s -> step l s = Some s' -> unabortedInv s'.
Proof.
  intros Hl Hinv Hstep. pose proof Hinv as (Hsig & Hts & Ho).
  destruct l as [|i|i| |[i|]]; simpl in Hstep; [| | |done| |].
  - destruct (loop s); try discriminate. rewrite Hsig in Hstep.
    destruct (_ <? _); inversion Hstep; subst; clear Hstep;
      (split; [exact Hsig|split; [|exact Ho]]); simpl; [|exact Hts].
    apply insert_notAbortError; [exact Hts|].
    unfold notAbortError. destruct (_ <? _)%Z; congruence.
  - destruct (tasks s !! i) as [[| |a|a|r]|]; try discriminate.
    rewrite Hsig in Hstep. destruct (_ <? _)%Z.
    + inversion Hstep; subst; clear Hstep.
      split; [exact Hsig|split; [|exact Ho]]. simpl.
      apply insert_notAbortError; [exact Hts|]. unfold notAbortError. congruence.
    + eapply releasePermit_unabortedInv; [exact Hinv| |exact Hstep]. congruence.
  - destruct (tasks s !! i) as [[| |a|a|r]|]; try discriminate.
    destruct (work i a) as [code|]; [destruct (_ >=? _)%Z|].
    + eapply releasePermit_unabortedInv; [exact Hinv| |exact Hstep]. congruence.
    + inversion Hstep; subst; clear Hstep.
      split; [exact Hsig|split; [|exact Ho]]. simpl.
      apply insert_notAbortError; [exact Hts|]. unfold notAbortError. congruence.
    + eapply releasePermit_unabortedInv; [| |exact Hstep]; [|discriminate].
      split; [exact Hsig|split; [exact Hts|exact Ho]].
  - destruct (loop s); try discriminate.
    destruct (tasks s !! i) as [[| | | |[|e]]|] eqn:Hi; try discriminate.
    inversion Hstep; subst; clear Hstep.
    split; [reflexivity|split; [exact Hts|]]. simpl.
    intros H; inversion H; subst.
    exact (Forall_lookup_1 _ _ _ _ Hts Hi eq_refl).
  - destruct (loop s); try discriminate.
    destruct (forallb _ _); inversion Hstep; subst; clear Hstep.
    split; [reflexivity|split; [exact Hts|]]. simpl. discriminate.
Qed.

Lemma run_unabortedInv trace : forall s s',
  Abort ∉ trace -> unabortedInv s -> run trace s = Some s' -> unabortedInv s'.
Proof.
  induction trace as [|l trace IH]; intros s s' Hno Hs Hrun; simpl in Hrun.
  - inversion Hrun; subst; exact Hs.
  - destruct (step l s) as [s1|] eqn:Hstep; [|discriminate].
    apply not_elem_of_cons in Hno as [Hl Hno].
    eapply IH; [exact Hno| |exact Hrun].
    eapply step_unabortedInv; eauto.
Qed.

(** *** After [abort()], while the run has not settled *)

Lemma step_outcome_kept l s s' o :
  outcome s = Some o -> step l s = Some s' -> outcome s' <> None.
Proof.
  intros Ho Hstep.
  destruct l as [|i|i| |[i|]]; simpl in Hstep.
  - destruct (loop s); try discriminate.
    destruct (_ <? _); [destruct (signalAborted s)|];
      inversion Hstep; subst; simpl; congruence.
  - destruct (tasks s !! i) as [[| |a|a|r]|]; try discriminate.
    destruct (_ <? _)%Z; [destruct (signalAborted s)|];
      try (apply releasePermit_frame in Hstep as (_ & _ & _ & -> & _); congruence);
      inversion Hstep; subst; simpl; congruence.
  - destruct (tasks s !! i) as [[| |a|a|r]|]; try discriminate.
    destruct (work i a); [destruct (_ >=? _)%Z|];
      try (apply releasePermit_frame in Hstep as (_ & _ & _ & -> & _);
           simpl; congruence);
      inversion Hstep; subst; simpl; congruence.
  - inversion Hstep; subst; simpl; congruence.
  - destruct (loop s); try discriminate.
    destruct (tasks s !! i) as [[| | | |[|e]]|]; try discriminate.
    inversion Hstep; subst; simpl; congruence.
  - destruct (loop s); try discriminate.
    destruct (forallb _ _); inversion Hstep; subst; simpl; congruence.
Qed.

Lemma releasePermit_running i r s s' j a :
  releasePermit i r s = Some s' ->
  tasks s' !! j = Some (Running a) -> tasks s !! j = Some (Running a).
Proof.
  intros Hrel Hj. apply releasePermit_frame in Hrel as (_ & _ & _ & _ & Ht).
  rewrite Ht in Hj.
  destruct (Sem.queue (semaphore s));
    repeat (apply list_lookup_insert_Some in Hj as [(_ & ? & _)|[_ Hj]];
            [discriminate|]); exact Hj.
Qed.

Lemma step_while_aborted l s s' :
  abortController s = Some true -> step l s = Some s' -> outcome s' = None ->
  abortController s' = Some true
  /\ (forall j a, tasks s' !! j = Some (Running a) ->
                  tasks s !! j = Some (Running a))
  /\ (forall i, loop s = Submitting i -> i < length chunks ->
                loop s' = Submitting i).
Proof.
  intros Hab Hstep Hnone.
  assert (Hsig : signalAborted s = true) by (unfold signalAborted; by rewrite Hab).
  destruct l as [|i|i| |[i|]]; simpl in Hstep.
  - destruct (loop s) as [i| |] eqn:Hl; try discriminate. rewrite Hsig in Hstep.
    destruct (Nat.ltb_spec i (length chunks));
      inversion Hstep; subst; simpl in *; [discriminate|].
    repeat split; auto. intros i' Hi' Hlt. inversion Hi'; subst. lia.
  - destruct (tasks s !! i) as [[| |a|a|r]|]; try discriminate.
    rewrite Hsig in Hstep.
    assert (Hrel : exists r, releasePermit i r s = Some s')
      by (destruct (_ <? _)%Z; eauto).
    destruct Hrel as [r Hrel].
    pose proof (releasePermit_frame _ _ _ _ Hrel) as (Hc & Hl & _).
    rewrite Hc, Hl. repeat split; auto.
    intros j a'. eapply releasePermit_running; eauto.
  - destruct (tasks s !! i) as [[| |a|a|r]|]; try discriminate.
    destruct (work i a); [destruct (_ >=? _)%Z|].
    + pose proof (releasePermit_frame _ _ _ _ Hstep) as (Hc & Hl & _).
      rewrite Hc, Hl. repeat split; auto.
      intros j a'. eapply releasePermit_running; eauto.
    + inversion Hstep; subst; simpl. repeat split; auto.
      intros j a' Hj.
      apply list_lookup_insert_Some in Hj as [(_ & ? & _)|[_ Hj]];
        [discriminate|exact Hj].
    + pose proof (releasePermit_frame _ _ _ _ Hstep) as (Hc & Hl & _).
      simpl in *. rewrite Hc, Hl. repeat split; auto.
      intros j a' Hj. exact (releasePermit_running _ _ _ _ _ _ Hstep Hj).
  - inversion Hstep; subst; simpl. rewrite Hab. repeat split; auto.
  - destruct (loop s); try discriminate.
    destruct (tasks s !! i) as [[| | | |[|e]]|]; try discriminate.
    inversion Hstep; subst; simpl in *. discriminate.
  - destruct (loop s); try discriminate.
    destruct (forallb _ _); inversion Hstep; subst; simpl in *. discriminate.
Qed.

Lemma run_outcome_kept trace : forall s s' o,
  outcome s = Some o -> run trace s = Some s' -> outcome s' <> None.
Proof.
  induction trace as [|l trace IH]; intros s s' o Ho Hrun; simpl in Hrun.
  - inversion Hrun; subst. congruence.
  - destruct (step l s) as [s1|] eqn:Hstep; [|discriminate].
    destruct (outcome s1) as [o1|] eqn:Ho1.
    + eapply IH; eauto.
    + destruct (step_outcome_kept _ _ _ _ Ho Hstep Ho1).
Qed.

Lemma run_while_aborted trace : forall s s',
  abortController s = Some true -> run trace s = Some s' -> outcome s' = None ->
  abortController s' = Some true
  /\ (forall j a, tasks s' !! j = Some (Running a) ->
                  tasks s !! j = Some (Running a))
  /\ (forall i, loop s = Submitting i -> i < length chunks ->
                loop s' = Submitting i).
Proof.
  induction trace as [|l trace IH]; intros s s' Hab Hrun Hnone; simpl in Hrun.
  - inversion Hrun; subst. auto.
  - destruct (step l s) as [s1|] eqn:Hstep; [|discriminate].
    assert (Hnone1 : outcome s1 = None).
    { destruct (outcome s1) as [o|] eqn:Ho; [|done].
      destruct (run_outcome_kept _ _ _ _ Ho Hrun Hnone). }
    destruct (step_while_aborted _ _ _ Hab Hstep Hnone1) as (Hab1 & Hrun1 & Hloop1).
    destruct (IH _ _ Hab1 Hrun Hnone) as (Hab' & Hrun' & Hloop').
    repeat split; auto.
Qed.

End PipelineFacts.

(** C7 (as amended).  In every state of every run whose result is fixed:
    a resolved result is the [ProcessedData] of a run in which every chunk
    callback has returned; if some chunk callback has thrown (a chunk that
    exhausted its retries throws its last failure), the result is a
    rejection, which carries the error and neither the nodes processed so
    far nor the statistics; and in a run in which [abort()] was never
    called a rejection carries a failure of the work function. *)
Theorem C7_rejection_carries_only_the_error
  (config : Config.ProcessingConfig) (chunks : list (list Tree.FlatNode))
  (work : nat -> Z -> option nat) (now : Z)
  (trace : list Pipeline.Label) (s : Pipeline.State) (o : Pipeline.Outcome) :
  Pipeline.run config chunks work trace (Pipeline.initial config chunks now) = Some s ->
  Pipeline.outcome s = Some o ->
  match o with
  | Pipeline.Resolved d =>
      forallb Pipeline.isReturned (Pipeline.tasks s) = true
      /\ d = Pipeline.data s
  | Pipeline.RejectedWith e => Pipeline.partialOutput o = None
  end
  /\ ((exists i e, Pipeline.tasks s !! i
                   = Some (Pipeline.Done (Retry.Threw e))) ->
      exists e', o = Pipeline.RejectedWith e'
                 /\ Pipeline.partialOutput o = None)
  /\ (Pipeline.Abort ∉ trace ->
      forall e', o = Pipeline.RejectedWith e' ->
                 exists code, e' = Retry.WorkError code).
Proof.
  intros Hrun Ho.
  assert (Hinv : settledInv s).
  { eapply run_settledInv; [|exact Hrun]. split; simpl; intros; discriminate. }
  destruct Hinv as [_ Hres]. split; [|split].
  - destruct o as [d|e]; [|reflexivity]. apply Hres. exact Ho.
  - intros (i & e & Hi). destruct o as [d|e']; [|eauto].
    destruct (Hres d Ho) as [Hall _].
    pose proof (forallb_isReturned_lookup _ _ _ Hall Hi). discriminate.
  - intros Hno e' ->.
    assert (Hun : unabortedInv s).
    { eapply run_unabortedInv; [exact Hno| |exact Hrun].
      split; [reflexivity|split; [|discriminate]]. simpl.
      apply Forall_replicate. discriminate. }
    destruct Hun as (_ & _ & Hne). rewrite Ho in Hne.
    destruct e' as [|code]; [congruence|eauto].
Qed.

Lemma C7_witness :
  Pipeline.partialOutput (Pipeline.RejectedWith (Retry.WorkError 7)) = None
  /\ ((exists i e, Pipeline.tasks failedState !! i
                   = Some (Pipeline.Done (Retry.Threw e))) ->
      exists e', Pipeline.RejectedWith (Retry.WorkError 7)
                 = Pipeline.RejectedWith e'
                 /\ Pipeline.partialOutput
                      (Pipeline.RejectedWith (Retry.WorkError 7)) = None)
  /\ (Pipeline.Abort ∉ failingSchedule ->
      forall e', Pipeline.RejectedWith (Retry.WorkError 7)
                 = Pipeline.RejectedWith e' ->
                 exists code, e' = Retry.WorkError code).
Proof.
  apply (C7_rejection_carries_only_the_error twoChunksConfig twoChunks
           secondChunkFails 0 failingSchedule failedState
           (Pipeline.RejectedWith (Retry.WorkError 7))).
  - vm_compute. reflexivity.
  - reflexivity.
Defined.

(** The claim as first stated has the error result carry the nodes
    processed so far and the statistics.  In the failing run the first
    chunk (two nodes) is processed and counted, the second exhausts its
    three attempts, and the caller receives the error alone. *)
Lemma C7_partial_output_not_returned :
  Pipeline.run twoChunksConfig twoChunks secondChunkFails failingSchedule
    (Pipeline.initial twoChunksConfig twoChunks 0) = Some failedState
  /\ Pipeline.tasks failedState
     = [Pipeline.Done Retry.Returned;
        Pipeline.Done (Retry.Threw (Retry.WorkError 7))]
  /\ Pipeline.processedCount (Pipeline.data failedState) = 2
  /\ length (Pipeline.processedNodes (Pipeline.data failedState)) = 2
  /\ Pipeline.outcome failedState
     = Some (Pipeline.RejectedWith (Retry.WorkError 7))
  /\ (Pipeline.partialOutput <$> Pipeline.outcome failedState)
     <> Some (Some (Pipeline.data failedState)).
Proof. vm_compute. repeat split. discriminate. Qed.

(** C6 (as amended).  [abort()] sets the signal of the installed
    controller.  From a state in which the signal is set, and as long as
    the result of the run is not fixed: the signal stays set, no chunk
    enters [processChunk] that was not already inside it, and the submit
    loop submits nothing.  The next test of the signal observes it: an
    iteration of the submit loop ends the run with the AbortError
    rejection, a chunk at the head of its retry loop gives up with
    AbortError and releases its permit, and [Promise.all] can then reject
    with that error.  The AbortError rejection differs from a resolved
    result and from a rejection by a failure of the work function. *)
Theorem C6_abort_stops_new_work
  (config : Config.ProcessingConfig) (chunks : list (list Tree.FlatNode))
  (work : nat -> Z -> option nat)
  (trace : list Pipeline.Label) (s s' : Pipeline.State) :
  Pipeline.abortController s = Some true ->
  Pipeline.run config chunks work trace s = Some s' ->
  Pipeline.outcome s' = None ->
  (forall s0 b, Pipeline.abortController s0 = Some b ->
     exists s1, Pipeline.step config chunks work Pipeline.Abort s0 = Some s1
                /\ Pipeline.abortController s1 = Some true)
  /\ Pipeline.abortController s' = Some true
  /\ (forall j a, Pipeline.tasks s' !! j = Some (Pipeline.Running a) ->
                  Pipeline.tasks s !! j = Some (Pipeline.Running a))
  /\ (forall i, Pipeline.loop s = Pipeline.Submitting i -> i < length chunks ->
                Pipeline.loop s' = Pipeline.Submitting i)
  /\ (forall i, Pipeline.loop s' = Pipeline.Submitting i -> i < length chunks ->
        Pipeline.step config chunks work Pipeline.LoopStep s'
        = Some (Pipeline.settle (Pipeline.RejectedWith Retry.AbortError) s'))
  /\ (forall i a, Pipeline.tasks s' !! i = Some (Pipeline.Ready a) ->
        (a < Config.maxRetriesPerChunk config)%Z ->
        Pipeline.step config chunks work (Pipeline.Begin i) s'
        = Pipeline.releasePermit i (Retry.Threw Retry.AbortError) s')
  /\ (forall i, Pipeline.loop s' = Pipeline.AwaitingAll ->
        Pipeline.tasks s' !! i
        = Some (Pipeline.Done (Retry.Threw Retry.AbortError)) ->
        Pipeline.step config chunks work (Pipeline.Settle (Some i)) s'
        = Some (Pipeline.settle (Pipeline.RejectedWith Retry.AbortError) s'))
  /\ (forall d code,
        Pipeline.RejectedWith Retry.AbortError <> Pipeline.Resolved d
        /\ Pipeline.RejectedWith Retry.AbortError
           <> Pipeline.RejectedWith (Retry.WorkError code)).
Proof.
  intros Hab Hrun Hnone.
  destruct (run_while_aborted config chunks work trace s s' Hab Hrun Hnone)
    as (Hab' & Hrunning & Hloop).
  assert (Hsig : Pipeline.signalAborted s' = true)
    by (unfold Pipeline.signalAborted; by rewrite Hab').
  split; [|split; [exact Hab'|split; [exact Hrunning|split; [exact Hloop|]]]].
  - intros s0 b Hb. eexists. split; [reflexivity|]. simpl. by rewrite Hb.
  - split; [|split; [|split]].
    + intros i Hl Hi. simpl. rewrite Hl, Hsig.
      destruct (Nat.ltb_spec i (length chunks)); [reflexivity|lia].
    + intros i a Hi Ha. simpl. rewrite Hi, Hsig.
      destruct (Z.ltb_spec a (Config.maxRetriesPerChunk config)); [reflexivity|lia].
    + intros i Hl Hi. simpl. rewrite Hl, Hi. reflexivity.
    + intros d code. split; discriminate.
Qed.

Lemma C6_witness :
  Pipeline.abortController abortedLater = Some true
  /\ (forall j a, Pipeline.tasks abortedLater !! j = Some (Pipeline.Running a) ->
                  Pipeline.tasks abortedState !! j = Some (Pipeline.Running a))
  /\ (forall i a, Pipeline.tasks abortedLater !! i = Some (Pipeline.Ready a) ->
        (a < Config.maxRetriesPerChunk twoChunksConfig)%Z ->
        Pipeline.step twoChunksConfig twoChunks neverFails (Pipeline.Begin i)
          abortedLater
        = Pipeline.releasePermit i (Retry.Threw Retry.AbortError) abortedLater).
Proof.
  destruct (C6_abort_stops_new_work twoChunksConfig twoChunks neverFails
              [Pipeline.Finish 0] abortedState abortedLater)
    as (_ & H1 & H2 & _ & _ & H3 & _);
    [reflexivity|vm_compute; reflexivity|reflexivity|].
  exact (conj H1 (conj H2 H3)).
Defined.

Example abort_observed_by_waiting_chunk :
  Pipeline.tasks abortedLater = [Pipeline.Done Retry.Returned; Pipeline.Ready 0]
  /\ (Pipeline.outcome
        <$> Pipeline.run twoChunksConfig twoChunks neverFails
              [Pipeline.Begin 1; Pipeline.Settle (Some 1)] abortedLater)
     = Some (Some (Pipeline.RejectedWith Retry.AbortError)).
Proof. vm_compute. split; reflexivity. Qed.

(** The claim as first stated has every run in which [abort()] is called
    end aborted.  Here it is called while the only chunk is inside
    [processChunk], after the last test of the signal: the chunk finishes
    and the run resolves with all three nodes processed. *)
Lemma C6_abort_after_last_check_completes :
  let config := Config.constructor Config.noOverrides in
  let start := Pipeline.initial config oneChunk 0 in
  (Pipeline.abortController
     <$> Pipeline.run config oneChunk neverFails
           [Pipeline.LoopStep; Pipeline.Begin 0; Pipeline.LoopStep;
            Pipeline.Abort] start)
  = Some (Some true)
  /\ exists d,
       (Pipeline.outcome
          <$> Pipeline.run config oneChunk neverFails
                [Pipeline.LoopStep; Pipeline.Begin 0; Pipeline.LoopStep;
                 Pipeline.Abort; Pipeline.Finish 0; Pipeline.Settle None] start)
       = Some (Some (Pipeline.Resolved d))
       /\ Pipeline.processedCount d = 3
       /\ Pipeline.Resolved d <> Pipeline.RejectedWith Retry.AbortError.
Proof.
  split; [vm_compute; reflexivity|].
  eexists. split; [vm_compute; reflexivity|]. split; [reflexivity|discriminate].
Qed.

(** Twelve chunks of one node, one permit.  The loop submits chunks 0 to
    10; chunk 0 finishes and chunk 1 enters [processChunk]; [abort()] is
    called; iteration 11 of the loop observes it, the run is rejected with
    AbortError and [finally] clears the controller.  Chunk 1 then finishes
    and hands its permit to chunk 2, whose test
    [this.abortController?.signal.aborted] now reads [undefined]: chunk 2
    enters [processChunk]. *)
Example queued_chunk_starts_after_settled_abort :
  let leaf s := Some (Tree.mkNode s s "RECTANGLE" None) in
  let document :=
    Some (Tree.mkNode "0:0" "Document" "DOCUMENT"
            (Some (map leaf ["1"; "2"; "3"; "4"; "5"; "6"; "7"; "8"; "9";
                             "10"; "11"]))) in
  let config := Config.constructor
                  (Config.mkPartial (Some 1%Z) (Some 1%Z)
                     None None None None None) in
  let chunks := default [] (Pipeline.chunksOf config document) in
  let schedule :=
    [Pipeline.LoopStep; Pipeline.Begin 0]
      ++ replicate 10 Pipeline.LoopStep
      ++ [Pipeline.Finish 0; Pipeline.Begin 1; Pipeline.Abort;
          Pipeline.LoopStep; Pipeline.Finish 1; Pipeline.Begin 2] in
  length chunks = 12
  /\ match Pipeline.run config chunks neverFails schedule
             (Pipeline.initial config chunks 0) with
     | Some s =>
         Pipeline.outcome s = Some (Pipeline.RejectedWith Retry.AbortError)
         /\ Pipeline.abortController s = None
         /\ Pipeline.tasks s !! 2 = Some (Pipeline.Running 0)
     | None => False
     end.
Proof. vm_compute. repeat split. Qed.

(** *** The permit pool inside the run *)

Lemma pipeline_step_balanced config chunks work n l s s' :
  balanced n (Pipeline.semaphore s) ->
  Pipeline.step config chunks work l s = Some s' ->
  balanced n (Pipeline.semaphore s').
Proof.
  intros Hb Hstep.
  assert (Hrel : forall i r t t',
             Pipeline.semaphore t = Pipeline.semaphore s ->
             Pipeline.releasePermit i r t = Some t' ->
             balanced n (Pipeline.semaphore t')).
  { intros i r t t' Ht Hr. unfold Pipeline.releasePermit in Hr. rewrite Ht in Hr.
    destruct (Sem.release i (Pipeline.semaphore s)) as [sem'|] eqn:Hsem;
      [|discriminate].
    inversion Hr; subst; simpl.
    apply (step_balanced n (Sem.Release i) (Pipeline.semaphore s)); assumption. }
  destruct l as [|i|i| |[i|]]; simpl in Hstep.
  - destruct (Pipeline.loop s); try discriminate.
    destruct (_ <? _); [destruct (Pipeline.signalAborted s)|];
      inversion Hstep; subst; simpl; try exact Hb.
    apply (step_balanced n (Sem.Acquire i) (Pipeline.semaphore s)); done.
  - destruct (Pipeline.tasks s !! i) as [[| |a|a|r]|]; try discriminate.
    destruct (_ <? _)%Z; [destruct (Pipeline.signalAborted s)|];
      try (eapply Hrel; [|exact Hstep]; reflexivity).
    inversion Hstep; subst; exact Hb.
  - destruct (Pipeline.tasks s !! i) as [[| |a|a|r]|]; try discriminate.
    destruct (work i a); [destruct (_ >=? _)%Z|];
      try (eapply Hrel; [|exact Hstep]; reflexivity).
    inversion Hstep; subst; exact Hb.
  - inversion Hstep; subst; exact Hb.
  - destruct (Pipeline.loop s); try discriminate.
    destruct (Pipeline.tasks s !! i) as [[| | | |[|e]]|]; try discriminate.
    inversion Hstep; subst; exact Hb.
  - destruct (Pipeline.loop s); try discriminate.
    destruct (forallb _ _); inversion Hstep; subst; exact Hb.
Qed.

(** In every state of every run, under a capacity that is not negative,
    the chunks holding a permit are at most [maxConcurrentChunks]. *)
Lemma pipeline_permits_bounded config chunks work now trace s :
  (0 <= Config.maxConcurrentChunks config)%Z ->
  Pipeline.run config chunks work trace (Pipeline.initial config chunks now) = Some s ->
  (Sem.executing (Pipeline.semaphore s) <= Config.maxConcurrentChunks config)%Z.
Proof.
  intros Hn Hrun.
  assert (Hb : balanced (Config.maxConcurrentChunks config) (Pipeline.semaphore s)).
  { revert Hrun.
    assert (H0 : balanced (Config.maxConcurrentChunks config)
                   (Pipeline.semaphore (Pipeline.initial config chunks now))).
    { split; simpl; unfold Sem.executing; simpl; lia. }
    revert H0. generalize (Pipeline.initial config chunks now) as s0.
    induction trace as [|l trace IH]; intros s0 H0 Hrun; simpl in Hrun.
    - inversion Hrun; subst; exact H0.
    - destruct (Pipeline.step config chunks work l s0) as [s1|] eqn:Hstep;
        [|discriminate].
      eapply IH; [|exact Hrun]. eapply pipeline_step_balanced; eauto. }
  destruct Hb as [Hsum Hpos]. lia.
Qed.

(** *** The chunks inside [processChunk] *)

Lemma existsb_eqb_elem who (l : list nat) :
  existsb (Nat.eqb who) l = true <-> who ∈ l.
Proof.
  rewrite existsb_exists. split.
  - intros (x & Hx & Heq). apply Nat.eqb_eq in Heq. subst.
    by apply list_elem_of_In.
  - intros H. exists who. split; [by apply list_elem_of_In|apply Nat.eqb_refl].
Qed.

Lemma elem_of_dropHolder who (l : list nat) x :
  NoDup l -> x ∈ Sem.dropHolder who l <-> x ∈ l /\ x <> who.
Proof.
  induction 1 as [|y l Hy Hl IH]; simpl; [set_solver|].
  destruct (Nat.eqb_spec y who) as [->|Hne].
  - rewrite elem_of_cons. split; [|naive_solver].
    intros Hx. split; [by right|]. intros ->. done.
  - rewrite !elem_of_cons, IH. naive_solver.
Qed.

Lemma NoDup_dropHolder who (l : list nat) : NoDup l -> NoDup (Sem.dropHolder who l).
Proof.
  induction 1 as [|y l Hy Hl IH]; simpl; [constructor|].
  destruct (Nat.eqb_spec y who) as [->|Hne]; [exact Hl|].
  apply NoDup_cons. split; [|exact IH].
  rewrite elem_of_dropHolder by exact Hl. naive_solver.
Qed.

Section PermitFacts.
Import Pipeline.
Variable config : Config.ProcessingConfig.
Variable chunks : list (list Tree.FlatNode).
Variable work : nat -> Z -> option nat.

Lemma permitInv_frame s1 s2 :
  semaphore s2 = semaphore s1 -> tasks s2 = tasks s1 ->
  (forall k, loop s2 = Submitting k -> loop s1 = Submitting k) ->
  permitInv chunks s1 -> permitInv chunks s2.
Proof.
  intros Hsem Hts Hl (H1 & H2 & H3 & H4 & H5 & H6).
  unfold permitInv. rewrite Hsem, Hts. repeat split; auto.
  - apply H4.
  - apply H4.
  - intros k j Hk. apply H6. auto.
Qed.

Lemma permitInv_retask s i t t' :
  permitInv chunks s -> tasks s !! i = Some t ->
  isActive t = true -> isActive t' = true ->
  permitInv chunks (setTasks (<[i := t']> (tasks s)) s).
Proof.
  intros (H1 & H2 & H3 & H4 & H5 & H6) Hi Ht Ht'.
  pose proof (lookup_lt_Some _ _ _ Hi) as Hlt.
  unfold permitInv. simpl. rewrite length_insert.
  split; [exact H1|split; [exact H2|split; [exact H3|split; [|split]]]].
  - intros x. rewrite H4. destruct (decide (x = i)) as [->|Hne].
    + rewrite list_lookup_insert_eq by exact Hlt. naive_solver.
    + rewrite list_lookup_insert_ne by done. done.
  - intros x Hx. specialize (H5 x Hx).
    rewrite list_lookup_insert_ne; [exact H5|]. intros ->.
    rewrite Hi in H5. inversion H5; subst. discriminate.
  - intros k j Hk Hkj Hj. specialize (H6 k j Hk Hkj Hj).
    rewrite list_lookup_insert_ne; [exact H6|]. intros ->.
    rewrite Hi in H6. inversion H6; subst. discriminate.
Qed.

Lemma permitInv_release s s' i t r :
  permitInv chunks s -> tasks s !! i = Some t -> isActive t = true ->
  releasePermit i r s = Some s' -> permitInv chunks s'.
Proof.
  intros (H1 & H2 & H3 & H4 & H5 & H6) Hi Ht Hrel.
  pose proof (lookup_lt_Some _ _ _ Hi) as Hlt.
  unfold releasePermit, Sem.release in Hrel.
  destruct (existsb _ _) eqn:Hin; [|discriminate].
  assert (Hdone : forall x, x <> i -> <[i := Done r]> (tasks s) !! x = tasks s !! x)
    by (intros x Hx; by rewrite list_lookup_insert_ne).
  destruct (Sem.queue (semaphore s)) as [|next rest] eqn:Hq;
    inversion Hrel; subst; clear Hrel; unfold permitInv; simpl.
  - rewrite length_insert.
    split; [exact H1|split; [by apply NoDup_dropHolder|split; [constructor|]]].
    split; [|split].
    + intros x. rewrite elem_of_dropHolder by exact H2. rewrite H4.
      destruct (decide (x = i)) as [->|Hne].
      * rewrite list_lookup_insert_eq by exact Hlt. naive_solver.
      * rewrite Hdone by done. naive_solver.
    + intros x Hx. inversion Hx.
    + intros k j Hk Hkj Hj. specialize (H6 k j Hk Hkj Hj).
      rewrite Hdone; [exact H6|]. intros ->.
      rewrite Hi in H6. inversion H6; subst. discriminate.
  - assert (Hnext : tasks s !! next = Some Waiting)
      by (apply H5; apply list_elem_of_here).
    assert (Hni : next <> i)
      by (intros ->; rewrite Hi in Hnext; inversion Hnext; subst; discriminate).
    pose proof (lookup_lt_Some _ _ _ Hnext) as Hnlt.
    apply NoDup_cons in H3 as [Hnr Hrest].
    rewrite !length_insert.
    split; [exact H1|split; [|split; [exact Hrest|split; [|split]]]].
    + apply NoDup_cons. split; [|by apply NoDup_dropHolder].
      rewrite elem_of_dropHolder by exact H2. rewrite H4.
      intros [(t0 & Ht0 & Hact) _]. rewrite Hnext in Ht0.
      inversion Ht0; subst. discriminate.
    + intros x. rewrite elem_of_cons, elem_of_dropHolder by exact H2.
      rewrite H4. destruct (decide (x = next)) as [->|Hxn].
      * rewrite list_lookup_insert_eq by (rewrite length_insert; exact Hnlt).
        naive_solver.
      * rewrite list_lookup_insert_ne by done.
        destruct (decide (x = i)) as [->|Hxi].
        -- rewrite list_lookup_insert_eq by exact Hlt. naive_solver.
        -- rewrite Hdone by done. naive_solver.
    + intros x Hx.
      assert (x <> next) by (intros ->; done).
      assert (Hw : tasks s !! x = Some Waiting)
        by (apply H5; by apply list_elem_of_further).
      rewrite list_lookup_insert_ne by done. rewrite Hdone; [exact Hw|].
      intros ->. rewrite Hi in Hw. inversion Hw; subst. discriminate.
    + intros k j Hk Hkj Hj. specialize (H6 k j Hk Hkj Hj).
      rewrite list_lookup_insert_ne, Hdone; [exact H6| |].
      * intros ->. rewrite Hi in H6. inversion H6; subst. discriminate.
      * intros ->. rewrite Hnext in H6. discriminate.
Qed.

Lemma permitInv_submit s i :
  permitInv chunks s -> loop s = Submitting i -> i < length chunks ->
  permitInv chunks
    {| abortController := abortController s;
       semaphore := Sem.acquire i (semaphore s);
       loop := Submitting (S i);
       tasks := <[i := if (0 <? Sem.permits (semaphore s))%Z
                       then Ready 0 else Waiting]> (tasks s);
       data := data s; outcome := outcome s |}.
Proof.
  intros (H1 & H2 & H3 & H4 & H5 & H6) Hl Hi.
  assert (Hlt : i < length (tasks s)) by lia.
  assert (Hun : tasks s !! i = Some Unsubmitted) by (apply (H6 i i); auto).
  assert (Hnh : i ∉ Sem.holders (semaphore s)).
  { rewrite H4. intros (t & Ht & Hact). rewrite Hun in Ht.
    inversion Ht; subst. discriminate. }
  assert (Hnq : i ∉ Sem.queue (semaphore s)).
  { intros Hq. apply H5 in Hq. rewrite Hun in Hq. discriminate. }
  unfold permitInv, Sem.acquire.
  destruct (0 <? Sem.permits (semaphore s))%Z; simpl; rewrite length_insert;
    (split; [exact H1|]).
  - split; [by apply NoDup_cons|split; [exact H3|split; [|split]]].
    + intros x. rewrite elem_of_cons, H4.
      destruct (decide (x = i)) as [->|Hne].
      * rewrite list_lookup_insert_eq by exact Hlt. naive_solver.
      * rewrite list_lookup_insert_ne by done. naive_solver.
    + intros x Hx. rewrite list_lookup_insert_ne; [by apply H5|].
      intros ->. done.
    + intros k j Hk Hkj Hj. inversion Hk; subst k.
      rewrite list_lookup_insert_ne by lia. apply (H6 i j); auto. lia.
  - split; [exact H2|split; [|split; [|split]]].
    + apply NoDup_app. split; [exact H3|]. split; [|apply NoDup_singleton].
      intros x Hx Hx'. apply list_elem_of_singleton in Hx'. subst. done.
    + intros x. rewrite H4. destruct (decide (x = i)) as [->|Hne].
      * rewrite list_lookup_insert_eq by exact Hlt. rewrite Hun. naive_solver.
      * rewrite list_lookup_insert_ne by done. done.
    + intros x Hx. apply elem_of_app in Hx as [Hx|Hx].
      * rewrite list_lookup_insert_ne; [by apply H5|]. intros ->. done.
      * apply list_elem_of_singleton in Hx. subst.
        by rewrite list_lookup_insert_eq.
    + intros k j Hk Hkj Hj. inversion Hk; subst k.
      rewrite list_lookup_insert_ne by lia. apply (H6 i j); auto. lia.
Qed.

Lemma step_permitInv l s s' :
  permitInv chunks s -> Pipeline.step config chunks work l s = Some s' ->
  permitInv chunks s'.
Proof.
  intros Hinv Hstep.
  destruct l as [|i|i| |[i|]]; simpl in Hstep.
  - destruct (loop s) as [i| |] eqn:Hl; try discriminate.
    destruct (Nat.ltb_spec i (length chunks)); [destruct (signalAborted s)|];
      inversion Hstep; subst; clear Hstep.
    + eapply permitInv_frame; [| | |exact Hinv]; try reflexivity. discriminate.
    + by apply permitInv_submit.
    + eapply permitInv_frame; [| | |exact Hinv]; try reflexivity. discriminate.
  - destruct (tasks s !! i) as [[| |a|a|r]|] eqn:Hi; try discriminate.
    destruct (_ <? _)%Z; [destruct (signalAborted s)|];
      try (eapply permitInv_release; [exact Hinv|exact Hi|reflexivity|exact Hstep]).
    inversion Hstep; subst. eapply permitInv_retask; eauto.
  - destruct (tasks s !! i) as [[| |a|a|r]|] eqn:Hi; try discriminate.
    destruct (work i a); [destruct (_ >=? _)%Z|].
    + eapply permitInv_release; [exact Hinv|exact Hi|reflexivity|exact Hstep].
    + inversion Hstep; subst. eapply permitInv_retask; eauto.
    + eapply (permitInv_release (record (chunks !!! i) s));
        [|exact Hi|reflexivity|exact Hstep].
      eapply permitInv_frame; [| | |exact Hinv]; auto.
  - inversion Hstep; subst.
    eapply permitInv_frame; [| | |exact Hinv]; auto.
  - destruct (loop s); try discriminate.
    destruct (tasks s !! i) as [[| | | |[|e]]|]; try discriminate.
    inversion Hstep; subst.
    eapply permitInv_frame; [| | |exact Hinv]; try reflexivity. discriminate.
  - destruct (loop s); try discriminate.
    destruct (forallb _ _); inversion Hstep; subst.
    eapply permitInv_frame; [| | |exact Hinv]; try reflexivity. discriminate.
Qed.

Lemma initial_permitInv now : permitInv chunks (initial config chunks now).
Proof.
  unfold permitInv. simpl. rewrite length_replicate.
  split; [reflexivity|split; [constructor|split; [constructor|split; [|split]]]].
  - intros i. split; [intros H; inversion H|].
    intros (t & Ht & Hact). apply lookup_replicate in Ht as [-> _]. discriminate.
  - intros i H. inversion H.
  - intros k j _ _ Hj. by apply lookup_replicate_2.
Qed.

Lemma run_permitInv trace : forall s s',
  permitInv chunks s -> Pipeline.run config chunks work trace s = Some s' ->
  permitInv chunks s'.
Proof.
  induction trace as [|l trace IH]; intros s s' Hs Hrun; simpl in Hrun.
  - inversion Hrun; subst; exact Hs.
  - destruct (Pipeline.step config chunks work l s) as [s1|] eqn:Hstep;
      [|discriminate].
    eapply IH; [|exact Hrun]. eapply step_permitInv; eauto.
Qed.

End PermitFacts.

(** In every state of every run, under a capacity that is not negative,
    any chunks that are inside [processChunk] at the same time are at most
    [maxConcurrentChunks]. *)
Lemma pipeline_running_bounded config chunks work now trace s (running : list nat) :
  (0 <= Config.maxConcurrentChunks config)%Z ->
  Pipeline.run config chunks work trace (Pipeline.initial config chunks now) = Some s ->
  NoDup running ->
  (forall i, i ∈ running -> exists a, Pipeline.tasks s !! i = Some (Pipeline.Running a)) ->
  (Z.of_nat (length running) <= Config.maxConcurrentChunks config)%Z.
Proof.
  intros Hn Hrun Hnd Hall.
  pose proof (pipeline_permits_bounded config chunks work now trace s Hn Hrun) as Hb.
  destruct (run_permitInv config chunks work trace _ _
              (initial_permitInv config chunks now) Hrun)
    as (_ & _ & _ & Hh & _).
  assert (Hsub : running ⊆+ Sem.holders (Pipeline.semaphore s)).
  { apply NoDup_submseteq; [exact Hnd|]. intros i Hi. apply Hh.
    destruct (Hall i Hi) as [a Ha]. eauto. }
  apply submseteq_length in Hsub. unfold Sem.executing in Hb. lia.
Qed.

(** *** The retry loop inside the run *)

Section TaskFacts.
Import Pipeline.
Variable config : Config.ProcessingConfig.
Variable chunks : list (list Tree.FlatNode).
Variable work : nat -> Z -> option nat.

Lemma releasePermit_done s i t r :
  permitInv chunks s -> tasks s !! i = Some t -> isActive t = true ->
  exists s', releasePermit i r s = Some s'
             /\ tasks s' !! i = Some (Done r)
             /\ signalAborted s' = signalAborted s
             /\ loop s' = loop s
             /\ permitInv chunks s'.
Proof.
  intros Hinv Hi Ht. pose proof Hinv as (_ & _ & _ & Hh & Hq & _).
  pose proof (lookup_lt_Some _ _ _ Hi) as Hlt.
  assert (Hin : existsb (Nat.eqb i) (Sem.holders (semaphore s)) = true).
  { apply existsb_eqb_elem, Hh. eauto. }
  destruct (releasePermit i r s) as [s'|] eqn:Hrel.
  - exists s'. pose proof (releasePermit_frame _ _ _ _ Hrel) as (Hc & Hl & _ & _ & Hts).
    split; [reflexivity|]. split; [|split; [|split; [exact Hl|]]].
    + rewrite Hts. destruct (Sem.queue (semaphore s)) as [|next rest] eqn:Hqs.
      * by apply list_lookup_insert_eq.
      * rewrite list_lookup_insert_ne; [by apply list_lookup_insert_eq|].
        intros ->.
        assert (Hw : tasks s !! i = Some Waiting)
          by (apply Hq; apply list_elem_of_here).
        rewrite Hi in Hw. inversion Hw; subst. discriminate.
    + unfold signalAborted. by rewrite Hc.
    + eapply permitInv_release; eauto.
  - unfold releasePermit, Sem.release in Hrel. rewrite Hin in Hrel.
    destruct (Sem.queue (semaphore s)); discriminate.
Qed.

(** What [retryLoop] computes for chunk [i], the callback of task [i]
    reaches in the run by its own steps, when the signal is not set. *)
Lemma task_follows_retryLoop i fuel : forall a log r log' s,
  permitInv chunks s -> signalAborted s = false ->
  tasks s !! i = Some (Ready a) ->
  Retry.retryLoop (Config.maxRetriesPerChunk config) (fun _ => false)
    (fun k => option_map Retry.WorkError (work i k)) fuel a log = Some (r, log') ->
  exists trace s',
    Forall (fun l => l = Begin i \/ l = Finish i) trace
    /\ Pipeline.run config chunks work trace s = Some s'
    /\ tasks s' !! i = Some (Done r)
    /\ loop s' = loop s.
Proof.
  induction fuel as [|fuel IH]; intros a log r log' s Hinv Hsig Hi Hloop;
    simpl in Hloop;
    destruct (Z.ltb_spec a (Config.maxRetriesPerChunk config)) as [Hlt|Hge];
    try discriminate.
  1, 3: (* the loop condition is false at once *)
    inversion Hloop; subst;
    destruct (releasePermit_done s i _ Retry.Returned Hinv Hi eq_refl)
      as (s' & Hrel & Hd & _ & Hl & _);
    exists [Begin i], s'; (split; [constructor; [auto|constructor]|]);
    (split; [|split; [exact Hd|exact Hl]]); simpl; rewrite Hi;
    destruct (Z.ltb_spec a (Config.maxRetriesPerChunk config)); [lia|];
    rewrite Hrel; reflexivity.
  (* one attempt *)
    set (s1 := setTasks (<[i := Running a]> (tasks s)) s).
    assert (Hinv1 : permitInv chunks s1) by (eapply permitInv_retask; eauto).
    assert (Hi1 : tasks s1 !! i = Some (Running a)).
    { simpl. apply list_lookup_insert_eq. eapply lookup_lt_Some; eauto. }
    assert (Hbegin : Pipeline.step config chunks work (Begin i) s = Some s1).
    { simpl. rewrite Hi, Hsig.
      destruct (Z.ltb_spec a (Config.maxRetriesPerChunk config)); [done|lia]. }
    destruct (work i a) as [code|] eqn:Hw; simpl in Hloop.
    + destruct (Z.geb_spec (a + 1) (Config.maxRetriesPerChunk config)) as [Hlast|Hmore].
      * inversion Hloop; subst.
        destruct (releasePermit_done s1 i _ (Retry.Threw (Retry.WorkError code))
                    Hinv1 Hi1 eq_refl) as (s' & Hrel & Hd & _ & Hl & _).
        exists [Begin i; Finish i], s'.
        split; [constructor; [auto|constructor; [auto|constructor]]|].
        split; [|split; [exact Hd|exact Hl]].
        cbn [Pipeline.run]. rewrite Hbegin. simpl. rewrite list_lookup_insert_eq
          by (eapply lookup_lt_Some; eauto). rewrite Hw.
        destruct (Z.geb_spec (a + 1) (Config.maxRetriesPerChunk config)); [|lia].
        simpl in Hrel. rewrite Hrel. reflexivity.
      * set (s2 := setTasks (<[i := Ready (a + 1)%Z]> (tasks s1)) s1).
        assert (Hinv2 : permitInv chunks s2) by (eapply permitInv_retask; eauto).
        assert (Hi2 : tasks s2 !! i = Some (Ready (a + 1)%Z)).
        { simpl. apply list_lookup_insert_eq. rewrite length_insert.
          eapply lookup_lt_Some; eauto. }
        destruct (IH _ _ _ _ s2 Hinv2 Hsig Hi2 Hloop) as (trace & s' & Hall & Hrun & Hd & Hl).
        exists (Begin i :: Finish i :: trace), s'.
        split; [constructor; [auto|constructor; [auto|exact Hall]]|].
        split; [|split; [exact Hd|exact Hl]].
        cbn [Pipeline.run]. rewrite Hbegin.
        assert (Hfin : Pipeline.step config chunks work (Finish i) s1 = Some s2).
        { simpl. rewrite list_lookup_insert_eq by (eapply lookup_lt_Some; eauto).
          rewrite Hw.
          destruct (Z.geb_spec (a + 1) (Config.maxRetriesPerChunk config)); [lia|done]. }
        rewrite Hfin. exact Hrun.
    + inversion Hloop; subst.
      assert (Hinv1' : permitInv chunks (record (chunks !!! i) s1))
        by (eapply permitInv_frame; [| | |exact Hinv1]; auto).
      destruct (releasePermit_done (record (chunks !!! i) s1) i _ Retry.Returned
                  Hinv1' Hi1 eq_refl) as (s' & Hrel & Hd & _ & Hl & _).
      exists [Begin i; Finish i], s'.
        split; [constructor; [auto|constructor; [auto|constructor]]|].
      split; [|split; [exact Hd|exact Hl]].
      cbn [Pipeline.run]. rewrite Hbegin. simpl. rewrite list_lookup_insert_eq
        by (eapply lookup_lt_Some; eauto). rewrite Hw.
      simpl in Hrel. rewrite Hrel. reflexivity.
Qed.

End TaskFacts.

(** *** Batches on the main thread *)

Lemma flattenNodesOf_nonempty n nodes :
  RealTime.flattenNodesOf n = Some nodes -> nodes <> [].
Proof.
  destruct n as [i s t [cs|]]; simpl.
  - destruct (fold_left _ cs (Some [])); simpl; intros H; inversion H; done.
  - intros H; inversion H; done.
Qed.

(** [processInMainThread] hands [config.batchSize] to [createBatches] as
    it is: with a batch size that is not positive, a registered session
    and a document that flattens, the call never gets past the batching. *)
Lemma processInMainThread_diverges batchSize document sessionId during after p r nodes :
  (batchSize <= 0)%Z ->
  RealTime.sessions p !! sessionId = Some r ->
  RealTime.flattenNodes document = Some nodes ->
  RealTime.processInMainThread batchSize document sessionId during after p = None.
Proof.
  intros Hb Hr Hn. unfold RealTime.processInMainThread. rewrite Hr, Hn.
  assert (Hne : nodes <> []).
  { destruct document as [n|]; [|discriminate].
    eapply flattenNodesOf_nonempty; eauto. }
  destruct (createChunks_createBatches_diverge nodes batchSize Hb Hne (S (length nodes))) as [_ H].
  rewrite H. reflexivity.
Qed.

(** * Further properties *)

(** ** The tree, again *)

Section MoreTreeFacts.
Import Tree.

Lemma flattenNode_offset n : forall d e,
  flattenNode n (d + e) = map (fun fn : FlatNode => (fn.1, fn.2 + e)) (flattenNode n d).
Proof.
  induction n as [i s t|i s t cs IH] using FigmaNode_nested_ind; intros d e;
    [reflexivity|].
  rewrite !flattenNode_children. simpl. f_equal. unfold flattenChildren.
  induction IH as [|[c|] cs Hc _ IHcs]; simpl; [reflexivity| |exact IHcs].
  rewrite map_app, <- IHcs. f_equal. apply (Hc (S d) e).
Qed.

Lemma flattenNodes_fold (cs : list (option FigmaNode)) :
  Forall (fun oc => match oc with
                    | Some c => RealTime.flattenNodesOf c
                                = if nullFreeOf c
                                  then Some (map fst (flattenNode c 0))
                                  else None
                    | None => True
                    end) cs ->
  forall (d : nat) (acc : option (list FigmaNode)),
    fold_left (fun (acc : option (list FigmaNode)) (child : option FigmaNode) =>
                 match acc, child with
                 | Some nodes, Some c =>
                     option_map (app nodes) (RealTime.flattenNodesOf c)
                 | _, _ => None
                 end) cs acc
    = match acc with
      | Some nodes =>
          if forallb (fun child : option FigmaNode =>
                        match child with Some c => nullFreeOf c | None => false end) cs
          then Some (nodes ++ map fst (flattenChildren cs d))
          else None
      | None => None
      end.
Proof.
  induction 1 as [|[c|] cs Hc _ IHcs]; intros d [nodes|]; simpl;
    rewrite ?app_nil_r; try reflexivity.
  - rewrite (IHcs d), Hc. destruct (nullFreeOf c); simpl; [|reflexivity].
    destruct (forallb _ cs); [|reflexivity].
    unfold flattenChildren. simpl. rewrite map_app, <- app_assoc.
    do 3 f_equal.
    rewrite (flattenNode_offset c 0 (S d) : flattenNode c (S d) = _), !map_map.
    reflexivity.
  - apply (IHcs d).
  - apply (IHcs d).
  - apply (IHcs d).
Qed.

Lemma flattenNodesOf_spec n :
  RealTime.flattenNodesOf n
  = if nullFreeOf n then Some (map fst (flattenNode n 0)) else None.
Proof.
  induction n as [i s t|i s t cs IH] using FigmaNode_nested_ind; [reflexivity|].
  rewrite flattenNode_children. simpl RealTime.flattenNodesOf.
  rewrite (flattenNodes_fold cs IH 0 (Some [])). simpl.
  destruct (forallb _ cs); reflexivity.
Qed.

Lemma childCount_sum_children (cs : list (option FigmaNode)) (d : nat) :
  Forall (fun oc => match oc with
                    | Some c => forall d',
                        list_sum (map (fun fn => Pipeline.childCount
                                                   (Pipeline.processNode fn))
                                      (flattenNode c d')) + 1
                        = countNonNullOf c + nullEntriesOf c
                    | None => True
                    end) cs ->
  list_sum (map (fun fn => Pipeline.childCount (Pipeline.processNode fn))
                (flattenChildren cs d)) + length cs
  = list_sum (map (fun child : option FigmaNode =>
                     match child with
                     | Some c => countNonNullOf c
                     | None => 0
                     end) cs)
    + list_sum (map (fun child : option FigmaNode =>
                       match child with
                       | Some c => nullEntriesOf c
                       | None => 1
                       end) cs).
Proof.
  unfold flattenChildren.
  induction 1 as [|[c|] cs Hc _ IHcs]; simpl in *; [reflexivity| |lia].
  rewrite map_app, list_sum_app. specialize (Hc (S d)). lia.
Qed.

Lemma childCount_sum n : forall d,
  list_sum (map (fun fn => Pipeline.childCount (Pipeline.processNode fn))
                (flattenNode n d)) + 1
  = countNonNullOf n + nullEntriesOf n.
Proof.
  induction n as [i s t|i s t cs IH] using FigmaNode_nested_ind; intros d;
    [reflexivity|].
  pose proof (childCount_sum_children cs d IH) as H.
  assert (E1 : countNonNullOf (mkNode i s t (Some cs))
               = S (list_sum (map (fun child : option FigmaNode =>
                                     match child with
                                     | Some c => countNonNullOf c
                                     | None => 0
                                     end) cs))) by reflexivity.
  assert (E2 : nullEntriesOf (mkNode i s t (Some cs))
               = list_sum (map (fun child : option FigmaNode =>
                                  match child with
                                  | Some c => nullEntriesOf c
                                  | None => 1
                                  end) cs)) by reflexivity.
  assert (E3 : list_sum (map (fun fn => Pipeline.childCount (Pipeline.processNode fn))
                             (flattenNode (mkNode i s t (Some cs)) d))
               = length cs
                 + list_sum (map (fun fn => Pipeline.childCount
                                              (Pipeline.processNode fn))
                                 (flattenChildren cs d))) by reflexivity.
  rewrite E1, E2, E3. lia.
Qed.

End MoreTreeFacts.

(** X1.  The depth argument of [flattenDocumentTree] is an offset: the
    flattening from depth [d] is the flattening from depth 0 with [d] added
    to every depth, the nodes and their order being the same. *)
Theorem X1_flatten_depth_is_an_offset (root : option Tree.FigmaNode) (d : nat) :
  Tree.flattenDocumentTree root d
  = map (fun fn : Tree.FlatNode => (fn.1, fn.2 + d)) (Tree.flattenDocumentTree root 0).
Proof.
  destruct root as [n|]; [|reflexivity]. apply (flattenNode_offset n 0 d).
Qed.

(** X2.  [flattenNodes] (of the registry and of the worker) returns the
    nodes of [flattenDocumentTree], in the same order, on a tree without
    null entry, and raises on any other tree; in both cases the number of
    nodes it returns is what [countNodes] returns, so a session's
    [totalNodes] is the number of nodes that the loops go through. *)
Theorem X2_flattenNodes_agrees_with_flattenDocumentTree
  (root : option Tree.FigmaNode) :
  RealTime.flattenNodes root
  = (if Tree.nullFree root
     then Some (map fst (Tree.flattenDocumentTree root 0))
     else None)
  /\ length <$> RealTime.flattenNodes root = Tree.countNodes root.
Proof.
  destruct root as [n|]; [|split; reflexivity]. simpl.
  rewrite flattenNodesOf_spec, countNodesOf_spec.
  destruct (Tree.nullFreeOf n); [|split; reflexivity].
  split; [reflexivity|]. simpl.
  rewrite length_map, flattenNode_length. reflexivity.
Qed.

(** X3.  Over the processed nodes of a flattened tree, the [childCount]
    fields add up to the number of processed nodes minus one, plus the
    number of null entries met in children arrays: [childCount] is the
    length of the array, nulls included, while null children are not
    flattened. *)
Theorem X3_childCount_sum (n : Tree.FigmaNode) :
  let out := map Pipeline.processNode (Tree.flattenDocumentTree (Some n) 0) in
  list_sum (map Pipeline.childCount out) + 1 = length out + nullEntriesOf n.
Proof.
  simpl. rewrite map_map, length_map, flattenNode_length.
  apply (childCount_sum n 0).
Qed.

(** ** Chunking, again *)

Section MoreChunkingFacts.
Import Chunking.
Context {A : Type}.
Implicit Types (array : list A) (chunks : list (list A)).

Lemma ceilDiv_step (len size : Z) :
  (1 <= size)%Z -> (1 <= len)%Z ->
  ceilDiv len size = (1 + ceilDiv (Z.max 0 (len - size)) size)%Z.
Proof.
  intros Hs Hl. unfold ceilDiv.
  destruct (Z.le_gt_cases len size) as [Hle|Hgt].
  - replace (Z.max 0 (len - size)) with 0%Z by lia.
    rewrite (Z.div_small (0 + size - 1) size) by lia.
    symmetry. apply Z.div_unique with (r := (len - 1)%Z); lia.
  - replace (Z.max 0 (len - size)) with (len - size)%Z by lia.
    replace (len + size - 1)%Z with ((len - size + size - 1) + 1 * size)%Z by lia.
    rewrite Z.div_add by lia. lia.
Qed.

Lemma createChunksLoop_count array (size : Z) (Hs : (1 <= size)%Z) fuel :
  forall i chunks r,
    (0 <= i)%Z ->
    createChunksLoop fuel array size i chunks = Some r ->
    Z.of_nat (length r)
    = (Z.of_nat (length chunks)
       + ceilDiv (Z.max 0 (Z.of_nat (length array) - i)) size)%Z.
Proof.
  induction fuel as [|fuel IH]; intros i chunks r Hi Hrun; [discriminate|].
  simpl in Hrun. destruct (Z.ltb_spec i (Z.of_nat (length array))) as [Hlt|Hge].
  - assert (Hi' : (0 <= i + size)%Z) by lia.
    rewrite (IH _ _ _ Hi' Hrun), length_app. simpl.
    rewrite (ceilDiv_step (Z.max 0 (Z.of_nat (length array) - i)) size) by lia.
    replace (Z.max 0 (Z.max 0 (Z.of_nat (length array) - i) - size))
      with (Z.max 0 (Z.of_nat (length array) - (i + size))) by lia.
    lia.
  - inversion Hrun; subst.
    replace (Z.max 0 (Z.of_nat (length array) - i)) with 0%Z by lia.
    unfold ceilDiv. rewrite Z.div_small by lia. lia.
Qed.

End MoreChunkingFacts.

(** X4.  For [chunkSize >= 1], [createChunks] returns
    [ceil(array.length / chunkSize)] chunks, and every chunk but the last
    holds exactly [chunkSize] elements. *)
Theorem X4_createChunks_count {A : Type} (array : list A) (chunkSize : Z)
  (fuel : nat) (chunks : list (list A)) :
  (1 <= chunkSize)%Z ->
  Chunking.createChunks fuel array chunkSize = Some chunks ->
  Z.of_nat (length chunks) = ceilDiv (Z.of_nat (length array)) chunkSize
  /\ (forall k c, chunks !! k = Some c -> S k < length chunks ->
                  Z.of_nat (length c) = chunkSize).
Proof.
  intros Hs Hrun. split.
  - rewrite (createChunksLoop_count array chunkSize Hs fuel 0%Z [] chunks
               (Z.le_refl 0) Hrun).
    replace (Z.max 0 (Z.of_nat (length array) - 0)) with (Z.of_nat (length array))
      by lia.
    reflexivity.
  - destruct (createChunksLoop_positive array chunkSize Hs (S (length array)) 0%Z [])
      as (chunks' & Hrun' & _ & Hall & Hk); [lia|lia|].
    rewrite app_nil_l in Hrun'.
    assert (chunks' = chunks).
    { destruct (Nat.le_ge_cases fuel (S (length array))) as [Hle|Hge].
      - pose proof (createChunksLoop_more_fuel _ _ _ _ _ _ _ Hrun Hle) as H.
        unfold Chunking.createChunks in *. congruence.
      - pose proof (createChunksLoop_more_fuel _ _ _ _ _ _ _ Hrun' Hge) as H.
        unfold Chunking.createChunks in *. congruence. }
    subst chunks'. intros k c Hc Hnext.
    destruct (lookup_lt_is_Some_2 chunks (S k) Hnext) as [c' Hc'].
    pose proof (Forall_lookup_1 _ _ _ _ Hall Hc') as [Hne _].
    rewrite (Hk _ _ Hc') in Hne. rewrite (Hk _ _ Hc).
    rewrite length_take, length_drop in *. simpl in *. lia.
Qed.

Lemma X4_witness :
  Z.of_nat (length [[1; 2]; [3; 4]; [5]]) = ceilDiv (Z.of_nat (length [1; 2; 3; 4; 5])) 2
  /\ (forall k c, [[1; 2]; [3; 4]; [5]] !! k = Some c ->
                  S k < length [[1; 2]; [3; 4]; [5]] ->
                  Z.of_nat (length c) = 2%Z).
Proof.
  apply (X4_createChunks_count [1; 2; 3; 4; 5] 2 6 [[1; 2]; [3; 4]; [5]]).
  - lia.
  - reflexivity.
Defined.

(** X5.  For [chunkSize >= 1] the chunks of a run are made, whatever the
    document: their concatenation is the flattened tree, so every non-null
    node of the document is in exactly one chunk, in pre-order, and a null
    document gives no chunk. *)
Theorem X5_chunks_partition_the_flattened_tree
  (config : Config.ProcessingConfig) (document : option Tree.FigmaNode) :
  (1 <= Config.chunkSize config)%Z ->
  exists chunks,
    Pipeline.chunksOf config document = Some chunks
    /\ concat chunks = Tree.flattenDocumentTree document 0
    /\ length (concat chunks) = Tree.countNonNull document
    /\ (document = None -> chunks = []).
Proof.
  intros Hs.
  destruct (createChunksLoop_positive (Tree.flattenDocumentTree document 0)
              (Config.chunkSize config) Hs
              (S (length (Tree.flattenDocumentTree document 0))) 0%Z [])
    as (chunks & Hrun & Hcat & _ & _); [lia|lia|].
  exists chunks. split; [exact Hrun|]. split; [exact Hcat|]. split.
  - rewrite Hcat. destruct document as [n|]; [apply flattenNode_length|reflexivity].
  - intros ->. simpl in Hrun. inversion Hrun. reflexivity.
Qed.

Lemma X5_witness :
  exists chunks,
    Pipeline.chunksOf twoChunksConfig threeNodes = Some chunks
    /\ concat chunks = Tree.flattenDocumentTree threeNodes 0
    /\ length (concat chunks) = Tree.countNonNull threeNodes
    /\ (threeNodes = None -> chunks = []).
Proof.
  apply (X5_chunks_partition_the_flattened_tree twoChunksConfig threeNodes).
  vm_compute. discriminate.
Defined.

(** ** The permit pool, again *)

Section MoreSemFacts.
Import Sem.

Lemma step_conserving e s s' :
  conserving s -> step e s = Some s' ->
  conserving s' /\ queue s ++ acquirers [e] = grantedBy e s ++ queue s'.
Proof.
  unfold conserving. intros Hc Hstep. destruct e as [who|who]; simpl in Hstep.
  - inversion Hstep; subst s'. unfold acquire. simpl.
    destruct (Z.ltb_spec 0 (permits s)) as [Hpos|Hneg]; simpl.
    + destruct (queue s) as [|x q] eqn:Hq; [|specialize (Hc ltac:(done)); lia].
      split; [done|reflexivity].
    + split; [intros _; exact Hneg|reflexivity].
  - unfold release in Hstep. simpl.
    destruct (existsb _ _); [|discriminate].
    destruct (queue s) as [|next rest] eqn:Hq;
      inversion Hstep; subst s'; simpl.
    + split; [done|reflexivity].
    + split; [|by rewrite app_nil_r]. intros _.
      specialize (Hc ltac:(done)). lia.
Qed.

Lemma acquirers_cons e trace :
  acquirers (e :: trace) = acquirers [e] ++ acquirers trace.
Proof. destruct e; reflexivity. Qed.

Lemma run_conserving trace : forall s s',
  conserving s -> run trace s = Some s' ->
  conserving s' /\ queue s ++ acquirers trace = grants trace s ++ queue s'.
Proof.
  induction trace as [|e trace IH]; intros s s' Hc Hrun; simpl in Hrun.
  - inversion Hrun; subst. split; [exact Hc|]. simpl. by rewrite app_nil_r.
  - destruct (step e s) as [s1|] eqn:Hstep; [|discriminate].
    destruct (step_conserving _ _ _ Hc Hstep) as [Hc1 H1].
    destruct (IH _ _ Hc1 Hrun) as [Hc' H'].
    split; [exact Hc'|].
    rewrite acquirers_cons. cbn [grants]. rewrite Hstep, app_assoc, H1, <- !app_assoc. by f_equal.
Qed.

Lemma run_no_capacity n trace : forall s s',
  (permits s = n)%Z -> (n <= 0)%Z -> holders s = [] ->
  run trace s = Some s' ->
  permits s' = n /\ holders s' = []
  /\ queue s' = queue s ++ acquirers trace
  /\ Forall (fun e => exists who, e = Acquire who) trace.
Proof.
  induction trace as [|e trace IH]; intros s s' Hp Hn Hh Hrun; simpl in Hrun.
  - inversion Hrun; subst. rewrite app_nil_r. done.
  - destruct e as [who|who]; simpl in Hrun.
    + unfold acquire in Hrun. destruct (Z.ltb_spec 0 (permits s)); [lia|].
      edestruct IH as (H1 & H2 & H3 & H4); [| | |exact Hrun|]; simpl; try done.
      rewrite H3. simpl. rewrite <- app_assoc.
      repeat split; try done. constructor; eauto.
    + unfold release in Hrun. rewrite Hh in Hrun. discriminate.
Qed.

End MoreSemFacts.

Lemma create_conserving n : conserving (Sem.create n).
Proof. intros H. done. Qed.

Lemma grants_then_queue (n : Z) (trace : list Sem.Event) (s : Sem.Semaphore) :
  Sem.run trace (Sem.create n) = Some s ->
  acquirers trace = grants trace (Sem.create n) ++ Sem.queue s.
Proof.
  intros Hrun.
  destruct (run_conserving trace (Sem.create n) s) as [_ H];
    [apply create_conserving|exact Hrun|].
  exact H.
Qed.

(** X6.  The semaphore is first-in first-out: along any interleaving from
    a fresh semaphore, the tasks receive their permits in the order in
    which they called [acquire]; those that have been served and those
    still queued, in this order, are the callers in call order. *)
Theorem X6_semaphore_is_fifo (n : Z) (trace : list Sem.Event) (s : Sem.Semaphore) :
  Sem.run trace (Sem.create n) = Some s ->
  acquirers trace = grants trace (Sem.create n) ++ Sem.queue s.
Proof.
  apply grants_then_queue.
Qed.

Lemma X6_witness :
  acquirers [Sem.Acquire 5; Sem.Acquire 3; Sem.Acquire 9; Sem.Release 5; Sem.Acquire 1]
  = grants [Sem.Acquire 5; Sem.Acquire 3; Sem.Acquire 9; Sem.Release 5; Sem.Acquire 1]
      (Sem.create 1)
    ++ Sem.queue {| Sem.permits := 0; Sem.queue := [9; 1]; Sem.holders := [3] |}.
Proof.
  apply (X6_semaphore_is_fifo 1
           [Sem.Acquire 5; Sem.Acquire 3; Sem.Acquire 9; Sem.Release 5; Sem.Acquire 1]).
  reflexivity.
Defined.

(** X7.  A caller is kept waiting only while no permit is free: in every
    state reached from a fresh semaphore with a queue that is not empty,
    the permit count is at most 0; for a capacity [n >= 0] it is 0 and
    exactly [n] tasks hold a permit, so for [n >= 1] a release is still to
    come whenever somebody waits. *)
Theorem X7_waiting_only_when_full (n : Z) (trace : list Sem.Event) (s : Sem.Semaphore) :
  Sem.run trace (Sem.create n) = Some s ->
  Sem.queue s <> [] ->
  (Sem.permits s <= 0)%Z
  /\ ((0 <= n)%Z -> Sem.permits s = 0%Z /\ Sem.executing s = n)
  /\ ((1 <= n)%Z -> Sem.holders s <> []).
Proof.
  intros Hrun Hq.
  destruct (run_conserving trace (Sem.create n) s) as [Hc _];
    [apply create_conserving|exact Hrun|].
  specialize (Hc Hq).
  assert (Hb : balanced n s).
  { eapply run_balanced; [|exact Hrun]. split; unfold Sem.executing; simpl; lia. }
  destruct Hb as [Hsum Hmin]. split; [exact Hc|split].
  - intros Hn. lia.
  - intros Hn Hh. unfold Sem.executing in Hsum. rewrite Hh in Hsum. simpl in Hsum. lia.
Qed.

Lemma X7_witness :
  let s := {| Sem.permits := 0; Sem.queue := [9; 1]; Sem.holders := [3] |} in
  (Sem.permits s <= 0)%Z
  /\ ((0 <= 1)%Z -> Sem.permits s = 0%Z /\ Sem.executing s = 1%Z)
  /\ ((1 <= 1)%Z -> Sem.holders s <> []).
Proof.
  apply (X7_waiting_only_when_full 1
           [Sem.Acquire 5; Sem.Acquire 3; Sem.Acquire 9; Sem.Release 5; Sem.Acquire 1]).
  - reflexivity.
  - discriminate.
Defined.

(** X8.  A semaphore created with a capacity that is not positive never
    hands out a permit: whatever the calls, nobody holds one, every caller
    of [acquire] is queued in call order, and no release ever happens. *)
Theorem X8_no_capacity_no_permit (n : Z) (trace : list Sem.Event) (s : Sem.Semaphore) :
  (n <= 0)%Z ->
  Sem.run trace (Sem.create n) = Some s ->
  Sem.holders s = []
  /\ Sem.queue s = acquirers trace
  /\ Sem.permits s = n
  /\ grants trace (Sem.create n) = []
  /\ Forall (fun e => exists who, e = Sem.Acquire who) trace.
Proof.
  intros Hn Hrun.
  destruct (run_no_capacity n trace (Sem.create n) s) as (H1 & H2 & H3 & H4);
    try done.
  simpl in H3. repeat split; try done.
  pose proof (grants_then_queue n trace s Hrun) as H.
  rewrite H3 in H. symmetry in H.
  rewrite <- (app_nil_l (acquirers trace)) in H at 2.
  by apply app_inv_tail in H.
Qed.

Lemma X8_witness :
  let s := {| Sem.permits := 0; Sem.queue := [4; 2]; Sem.holders := [] |} in
  Sem.holders s = []
  /\ Sem.queue s = acquirers [Sem.Acquire 4; Sem.Acquire 2]
  /\ Sem.permits s = 0%Z
  /\ grants [Sem.Acquire 4; Sem.Acquire 2] (Sem.create 0) = []
  /\ Forall (fun e => exists who, e = Sem.Acquire who) [Sem.Acquire 4; Sem.Acquire 2].
Proof.
  apply (X8_no_capacity_no_permit 0 [Sem.Acquire 4; Sem.Acquire 2]).
  - lia.
  - reflexivity.
Defined.

(** ** The retry loop, again *)

Section MoreRetryFacts.
Import Retry.
Variable maxRetriesPerChunk : Z.
Variable aborted : Z -> bool.
Variable work : Z -> option Error.

Local Abbreviation loop := (retryLoop maxRetriesPerChunk aborted work).

Lemma retryLoop_more_fuel fuel : forall fuel' attempt log r,
  loop fuel attempt log = Some r -> fuel <= fuel' ->
  loop fuel' attempt log = Some r.
Proof.
  induction fuel as [|fuel IH]; intros fuel' attempt log r H Hle; simpl in H.
  - destruct fuel'; simpl; destruct (_ <? _)%Z; congruence.
  - destruct fuel' as [|fuel']; [lia|]. simpl.
    destruct (_ <? _)%Z; [|exact H].
    destruct (aborted attempt); [exact H|].
    destruct (work attempt); [|exact H].
    destruct (_ >=? _)%Z; [exact H|]. eapply IH; [exact H|lia].
Qed.

(** [j] failures in a row, none of them the last allowed attempt, are
    gone through one by one. *)
Lemma retryLoop_skip_failures j : forall fuel attempt log,
  (forall k, (attempt <= k < attempt + Z.of_nat j)%Z ->
             aborted k = false /\ is_Some (work k)) ->
  (attempt + Z.of_nat j < maxRetriesPerChunk)%Z ->
  loop (j + fuel) attempt log
  = loop fuel (attempt + Z.of_nat j) (log ++ retryPrefix j attempt).
Proof.
  induction j as [|j IH]; intros fuel attempt log Hfail Hlt.
  - simpl. rewrite Z.add_0_r, app_nil_r. reflexivity.
  - cbn [Nat.add retryLoop].
    destruct (Z.ltb_spec attempt maxRetriesPerChunk); [|lia].
    destruct (Hfail attempt) as [Hab [e He]]; [lia|]. rewrite Hab, He.
    destruct (Z.geb_spec (attempt + 1) maxRetriesPerChunk); [lia|].
    rewrite IH; [| |lia].
    + rewrite <- app_assoc. simpl.
      replace (attempt + 1 + Z.of_nat j)%Z with (attempt + Z.of_nat (S j))%Z by lia.
      reflexivity.
    + intros k Hk. apply Hfail. lia.
Qed.

(** The loop ends whatever the work function and the signal do, and its
    log is bounded. *)
Lemma retryLoop_total fuel : forall attempt log,
  (0 <= attempt)%Z ->
  Z.to_nat (maxRetriesPerChunk - attempt) <= fuel ->
  exists r events,
    loop fuel attempt log = Some (r, log ++ events)
    /\ length (executions events) <= Z.to_nat (maxRetriesPerChunk - attempt)
    /\ length (waits events) <= length (executions events)
    /\ (totalMs (waits events)
        <= Z.max 0 (100 * 2 ^ maxRetriesPerChunk - 100 * 2 ^ (attempt + 1)))%Z.
Proof.
  induction fuel as [|fuel IH]; intros attempt log Ha Hfuel; simpl.
  - destruct (Z.ltb_spec attempt maxRetriesPerChunk); [lia|].
    exists Returned, []. rewrite app_nil_r. simpl. repeat split; lia.
  - destruct (Z.ltb_spec attempt maxRetriesPerChunk) as [Hlt|Hge].
    2: { exists Returned, []. rewrite app_nil_r. simpl. repeat split; lia. }
    assert (Hpow : (2 ^ (attempt + 1) <= 2 ^ maxRetriesPerChunk)%Z)
      by (apply Z.pow_le_mono_r; lia).
    destruct (aborted attempt).
    { exists (Threw AbortError), []. rewrite app_nil_r. simpl. repeat split; lia. }
    destruct (work attempt) as [e|].
    2: { exists Returned, [Executed attempt]. simpl. repeat split; lia. }
    destruct (Z.geb_spec (attempt + 1) maxRetriesPerChunk) as [Hlast|Hmore].
    { exists (Threw e), [Executed attempt]. simpl. repeat split; lia. }
    destruct (IH (attempt + 1)%Z
                 (log ++ [Executed attempt; Waited (100 * 2 ^ (attempt + 1))%Z]))
      as (r & events & Hrun & Hex & Hw & Hsum); [lia|lia|].
    exists r, (Executed attempt :: Waited (100 * 2 ^ (attempt + 1))%Z :: events).
    rewrite Hrun, <- app_assoc. split; [reflexivity|].
    assert (Hpow2 : (2 ^ (attempt + 1 + 1) = 2 * 2 ^ (attempt + 1))%Z)
      by (replace (attempt + 1 + 1)%Z with (Z.succ (attempt + 1)) by lia;
          apply Z.pow_succ_r; lia).
    assert (Hpow3 : (2 ^ (attempt + 1 + 1) <= 2 ^ maxRetriesPerChunk)%Z)
      by (apply Z.pow_le_mono_r; lia).
    set (w := (100 * 2 ^ (attempt + 1))%Z) in *.
    change (executions (Executed attempt :: Waited w :: events))
      with (attempt :: executions events).
    change (waits (Executed attempt :: Waited w :: events))
      with (w :: waits events).
    change (totalMs (w :: waits events)) with (w + totalMs (waits events))%Z.
    cbn [length]. unfold w. repeat split; lia.
Qed.

End MoreRetryFacts.

Lemma retryPrefix_executions j : forall attempt rest,
  length (Retry.executions (retryPrefix j attempt ++ rest))
  = j + length (Retry.executions rest).
Proof.
  induction j as [|j IH]; intros attempt rest; [reflexivity|].
  change (Retry.executions (retryPrefix (S j) attempt ++ rest))
    with (attempt :: Retry.executions (retryPrefix j (attempt + 1) ++ rest)).
  simpl. f_equal. apply IH.
Qed.

(** X9.  Whatever the work function does and whenever the abort signal
    is set, [processChunkWithRetries] ends (with any fuel from
    [maxRetriesPerChunk] on, and with the same result): it executes the
    chunk at most [maxRetriesPerChunk] times, waits at most once per
    execution, and the waits add up to at most
    [100 * 2 ^ maxRetriesPerChunk - 200] milliseconds (nothing when at most
    one attempt is allowed). *)
Theorem X9_retry_terminates_and_is_bounded
  (maxRetriesPerChunk : Z) (aborted : Z -> bool) (work : Z -> option Retry.Error) :
  exists r log,
    (forall fuel, Z.to_nat maxRetriesPerChunk <= fuel ->
       Retry.processChunkWithRetries maxRetriesPerChunk aborted work fuel
       = Some (r, log))
    /\ length (Retry.executions log) <= Z.to_nat maxRetriesPerChunk
    /\ length (Retry.waits log) <= length (Retry.executions log)
    /\ (totalMs (Retry.waits log)
        <= Z.max 0 (100 * 2 ^ maxRetriesPerChunk - 200))%Z.
Proof.
  destruct (retryLoop_total maxRetriesPerChunk aborted work
              (Z.to_nat maxRetriesPerChunk) 0%Z [])
    as (r & events & Hrun & Hex & Hw & Hsum); [lia|lia|].
  rewrite Z.sub_0_r in Hex. simpl in Hrun, Hsum.
  exists r, events. split; [|split; [exact Hex|split; [exact Hw|]]].
  - intros fuel Hfuel. eapply retryLoop_more_fuel; [exact Hrun|exact Hfuel].
  - change (2 ^ 1)%Z with 2%Z in Hsum. lia.
Qed.

(** X10.  When the first [j] attempts fail and attempt [j] (counted from
    0, and within the limit) succeeds, with the signal never set,
    [processChunkWithRetries] returns normally after exactly [j + 1]
    executions, having waited after each failure. *)
Theorem X10_retry_returns_at_first_success
  (maxRetriesPerChunk : Z) (aborted : Z -> bool) (work : Z -> option Retry.Error)
  (j fuel : nat) :
  (Z.of_nat j < maxRetriesPerChunk)%Z ->
  (forall k, (0 <= k < Z.of_nat j)%Z -> is_Some (work k)) ->
  work (Z.of_nat j) = None ->
  (forall k, (0 <= k <= Z.of_nat j)%Z -> aborted k = false) ->
  j < fuel ->
  Retry.processChunkWithRetries maxRetriesPerChunk aborted work fuel
  = Some (Retry.Returned, retryPrefix j 0 ++ [Retry.Executed (Z.of_nat j)])
  /\ length (Retry.executions (retryPrefix j 0 ++ [Retry.Executed (Z.of_nat j)]))
     = S j.
Proof.
  intros Hlt Hfail Hok Hab Hfuel. split.
  - unfold Retry.processChunkWithRetries.
    replace fuel with (j + (fuel - j)) by lia.
    rewrite retryLoop_skip_failures; [| |lia].
    + rewrite Z.add_0_l. destruct (fuel - j) as [|f] eqn:Hf; [lia|]. simpl.
      destruct (Z.ltb_spec (Z.of_nat j) maxRetriesPerChunk); [|lia].
      rewrite Hab, Hok by lia. reflexivity.
    + intros k Hk. split; [apply Hab|apply Hfail]; lia.
  - rewrite retryPrefix_executions. simpl. lia.
Qed.

Lemma X10_witness :
  Retry.processChunkWithRetries 3 (fun _ => false)
    (fun k => if (k <? 2)%Z then Some (Retry.WorkError 1) else None) 3
  = Some (Retry.Returned, retryPrefix 2 0 ++ [Retry.Executed (Z.of_nat 2)])
  /\ length (Retry.executions (retryPrefix 2 0 ++ [Retry.Executed (Z.of_nat 2)]))
     = 3.
Proof.
  apply (X10_retry_returns_at_first_success 3 (fun _ => false)
           (fun k => if (k <? 2)%Z then Some (Retry.WorkError 1) else None) 2 3).
  - simpl. lia.
  - intros k Hk. destruct (Z.ltb_spec k 2); [eexists; reflexivity|simpl in Hk; lia].
  - reflexivity.
  - reflexivity.
  - lia.
Defined.

(** X11.  When the first [j] attempts fail and the signal is found set at
    the head of iteration [j] (within the limit), [processChunkWithRetries]
    throws AbortError after exactly [j] executions: the chunk is not
    executed again once the abort is observed, and the failure of the work
    function is not what the caller sees. *)
Theorem X11_retry_stops_at_abort
  (maxRetriesPerChunk : Z) (aborted : Z -> bool) (work : Z -> option Retry.Error)
  (j fuel : nat) :
  (Z.of_nat j < maxRetriesPerChunk)%Z ->
  (forall k, (0 <= k < Z.of_nat j)%Z -> aborted k = false /\ is_Some (work k)) ->
  aborted (Z.of_nat j) = true ->
  j < fuel ->
  Retry.processChunkWithRetries maxRetriesPerChunk aborted work fuel
  = Some (Retry.Threw Retry.AbortError, retryPrefix j 0)
  /\ length (Retry.executions (retryPrefix j 0)) = j.
Proof.
  intros Hlt Hfail Hab Hfuel. split.
  - unfold Retry.processChunkWithRetries.
    replace fuel with (j + (fuel - j)) by lia.
    rewrite retryLoop_skip_failures; [| |lia].
    + rewrite Z.add_0_l. destruct (fuel - j) as [|f] eqn:Hf; [lia|]. simpl.
      destruct (Z.ltb_spec (Z.of_nat j) maxRetriesPerChunk); [|lia].
      rewrite Hab. reflexivity.
    + intros k Hk. apply Hfail. lia.
  - rewrite <- (app_nil_r (retryPrefix j 0)), retryPrefix_executions. simpl. lia.
Qed.

Lemma X11_witness :
  Retry.processChunkWithRetries 3 (fun k => (k =? 1)%Z)
    (fun _ => Some (Retry.WorkError 1)) 3
  = Some (Retry.Threw Retry.AbortError, retryPrefix 1 0)
  /\ length (Retry.executions (retryPrefix 1 0)) = 1.
Proof.
  apply (X11_retry_stops_at_abort 3 (fun k => (k =? 1)%Z)
           (fun _ => Some (Retry.WorkError 1)) 1 3).
  - simpl. lia.
  - intros k Hk. split; [|eexists; reflexivity].
    destruct (Z.eqb_spec k 1); [simpl in Hk; lia|reflexivity].
  - reflexivity.
  - lia.
Defined.

(** ** The progress reporter, again *)

Section MoreProgressFacts.
Import Progress.
Variable throttle : Z.

Lemma reportAll_spacing us : forall r,
  Forall (fun u => processed u <> total u) us ->
  (lastProgressEmitTime r
   + Z.of_nat (length (delivered (reportAll throttle r us).2)) * (throttle + 1)
   <= lastProgressEmitTime (reportAll throttle r us).1)%Z.
Proof.
  induction us as [|u us IH]; intros r Hall; simpl; [lia|].
  inversion Hall as [|? ? Hu Hus]; subst.
  destruct (maybeEmitProgress throttle r u) as [r1 o] eqn:Hemit.
  specialize (IH r1 Hus). destruct (reportAll throttle r1 us) as [r2 os].
  simpl in *. unfold maybeEmitProgress in Hemit.
  destruct (Z.eqb_spec (processed u) (total u)) as [|_]; [done|].
  rewrite orb_false_r in Hemit.
  destruct (progressCallback r); simpl in Hemit;
    [destruct (Z.ltb_spec throttle (now u - lastProgressEmitTime r))|];
    inversion Hemit; subst; simpl in *; lia.
Qed.

Lemma reportAll_same_instant us : forall r,
  Forall (fun u => nowETA u = now u) us ->
  Forall (fun snap => estimatedTimeRemainingMS snap = Infinity)
         (delivered (reportAll throttle r us).2).
Proof.
  induction us as [|u us IH]; intros r Hall; simpl; [constructor|].
  inversion Hall as [|? ? Hu Hus]; subst.
  destruct (maybeEmitProgress throttle r u) as [r1 o] eqn:Hemit.
  specialize (IH r1 Hus). destruct (reportAll throttle r1 us) as [r2 os].
  simpl in *. destruct o as [snap|]; simpl; [|exact IH].
  constructor; [|exact IH].
  rewrite (maybeEmitProgress_eta _ _ _ _ _ Hemit), Hu.
  apply calculateETA_same_instant.
Qed.

End MoreProgressFacts.

(** X12.  Emissions that are not final are spaced: a sequence of updates
    none of which is final delivers [k] snapshots only if the time of the
    last emission has advanced by at least [k * (progressThrottleMS + 1)]
    milliseconds over the sequence. *)
Theorem X12_emissions_are_spaced
  (throttle : Z) (r : Progress.Reporter) (us : list Progress.Update) :
  Forall (fun u => Progress.processed u <> Progress.total u) us ->
  let result := Progress.reportAll throttle r us in
  (Progress.lastProgressEmitTime r
   + Z.of_nat (length (delivered result.2)) * (throttle + 1)
   <= Progress.lastProgressEmitTime result.1)%Z.
Proof. intros Hall. apply reportAll_spacing. exact Hall. Qed.

Lemma X12_witness :
  let upd t p := Progress.mkUpdate t t 100 p 1 2 0%Q in
  let us := [upd 1000 10; upd 1100 20; upd 1201 30; upd 1300 40]%Z in
  let result := Progress.reportAll 200 (Progress.mkReporter true 0) us in
  (Progress.lastProgressEmitTime (Progress.mkReporter true 0)
   + Z.of_nat (length (delivered result.2)) * (200 + 1)
   <= Progress.lastProgressEmitTime result.1)%Z.
Proof.
  apply (X12_emissions_are_spaced 200 (Progress.mkReporter true 0)).
  repeat constructor; discriminate.
Defined.

(** X13.  In a sequence of updates during each of which the millisecond
    clock does not advance between the read of [maybeEmitProgress] and the
    read of [calculateETA], every snapshot that reaches the callback
    carries an estimate of [Infinity], whatever the counters and the
    earlier emissions. *)
Theorem X13_estimate_is_infinite_within_one_tick
  (throttle : Z) (r : Progress.Reporter) (us : list Progress.Update) :
  Forall (fun u => Progress.nowETA u = Progress.now u) us ->
  Forall (fun snap => Progress.estimatedTimeRemainingMS snap = Progress.Infinity)
         (delivered (Progress.reportAll throttle r us).2).
Proof. apply reportAll_same_instant. Qed.

Lemma X13_witness :
  let upd t p := Progress.mkUpdate t t 100 p 1 2 0%Q in
  Forall (fun snap => Progress.estimatedTimeRemainingMS snap = Progress.Infinity)
         (delivered (Progress.reportAll 200 (Progress.mkReporter true 0)
                       [upd 1000 10; upd 1300 50; upd 1400 100]%Z).2).
Proof.
  apply (X13_estimate_is_infinite_within_one_tick 200 (Progress.mkReporter true 0)).
  repeat constructor.
Defined.



(** ** The session registry, again *)

Section MoreRealTimeFacts.
Import RealTime.

Lemma emit_nodes_spec sessionId (batch : list Tree.FigmaNode) p :
  let q := fold_left (fun q _ => emitEvent sessionId node_processed q) batch p in
  objects q = objects p /\ sessions q = sessions p /\ workers q = workers p
  /\ emitted q = emitted p ++ replicate (length batch) (sessionId, node_processed).
Proof.
  revert p. induction batch as [|n batch IH]; intros p; simpl.
  - by rewrite app_nil_r.
  - destruct (IH (emitEvent sessionId node_processed p)) as (H1 & H2 & H3 & H4).
    rewrite H1, H2, H3, H4. simpl. by rewrite <- app_assoc.
Qed.

Lemma quietBatch_spec sessionId r batch p :
  objects (quietBatch sessionId r batch p)
  = alter (addProcessed (length batch)) r (objects p)
  /\ sessions (quietBatch sessionId r batch p) = sessions p
  /\ emitted (quietBatch sessionId r batch p)
     = emitted p ++ batchEvents sessionId batch.
Proof.
  unfold quietBatch, batchEvents. simpl.
  destruct (emit_nodes_spec sessionId batch p) as (H1 & H2 & _ & H4).
  rewrite H1, H2, H4. by rewrite <- app_assoc.
Qed.

Lemma quietBatches_spec sessionId r batches : forall p sess,
  objects p !! r = Some sess ->
  objects (quietBatches sessionId r batches p) !! r
  = Some (addProcessed (length (concat batches)) sess)
  /\ (forall r', r' <> r ->
        objects (quietBatches sessionId r batches p) !! r' = objects p !! r')
  /\ length (objects (quietBatches sessionId r batches p)) = length (objects p)
  /\ sessions (quietBatches sessionId r batches p) = sessions p
  /\ emitted (quietBatches sessionId r batches p)
     = emitted p ++ batches ≫= batchEvents sessionId.
Proof.
  induction batches as [|batch batches IH]; intros p sess Hr; simpl.
  - rewrite app_nil_r. repeat split; try done.
    rewrite Hr. f_equal. destruct sess; unfold addProcessed; simpl.
    f_equal. lia.
  - destruct (quietBatch_spec sessionId r batch p) as (H1 & H2 & H3).
    destruct (IH (quietBatch sessionId r batch p)
                 (addProcessed (length batch) sess)) as (I1 & I2 & I3 & I4 & I5).
    { rewrite H1, list_lookup_alter_eq, Hr. reflexivity. }
    unfold quietBatches in *. simpl. rewrite I1, I3, I4, I5, H1, H2, H3.
    repeat split.
    + f_equal. destruct sess; unfold addProcessed; simpl. f_equal.
      rewrite length_app. lia.
    + intros r' Hr'. rewrite I2 by done. rewrite H1.
      by apply list_lookup_alter_ne.
    + apply length_alter.
    + by rewrite <- app_assoc.
Qed.

(** While nobody calls in and the session stays active, the loop goes on
    batch after batch. *)
Lemma mainThreadLoop_quiet sessionId r during after pre : forall rest i p sess,
  (forall j, i <= j < i + length pre -> during j = [] /\ after j = []) ->
  objects p !! r = Some sess -> status sess = active ->
  mainThreadLoop sessionId r during after (pre ++ rest) i p
  = mainThreadLoop sessionId r during after rest (i + length pre)
      (quietBatches sessionId r pre p).
Proof.
  induction pre as [|batch pre IH]; intros rest i p sess Hq Hr Hs.
  - simpl. by rewrite Nat.add_0_r.
  - simpl. unfold statusAt. rewrite Hr. simpl. rewrite Hs.
    destruct (Hq i) as [Hd Ha]; [simpl; lia|]. rewrite Hd, Ha. simpl.
    change (emitEvent sessionId batch_complete
              (update r (addProcessed (length batch))
                 (fold_left (fun q _ => emitEvent sessionId node_processed q) batch p)))
      with (quietBatch sessionId r batch p).
    destruct (quietBatch_spec sessionId r batch p) as (H1 & _ & _).
    rewrite (IH rest (S i) (quietBatch sessionId r batch p)
               (addProcessed (length batch) sess)).
    + f_equal. lia.
    + intros j Hj. apply Hq. simpl. lia.
    + rewrite H1, list_lookup_alter_eq, Hr. reflexivity.
    + exact Hs.
Qed.

Lemma startProcessing_spec hasWorker document sessionId now p p' :
  startProcessing hasWorker document sessionId now p = Some p' ->
  exists total,
    Tree.countNodes document = Some total
    /\ sessions p' = <[sessionId := length (objects p)]> (sessions p)
    /\ objects p' = objects p ++ [mkSession sessionId now total 0 active]
    /\ emitted p' = emitted p.
Proof.
  unfold startProcessing. destruct (Tree.countNodes document) as [total|];
    [|discriminate].
  intros H; inversion H; subst; simpl. eauto.
Qed.

End MoreRealTimeFacts.

Section IsolationFacts.
Import RealTime.

Lemma sameElsewhere_refl sessionId r p :
  sessions p !! sessionId = Some r -> sameElsewhere sessionId r p p.
Proof. intros H. repeat split; auto. Qed.

Lemma sameElsewhere_update sessionId r f p q :
  sameElsewhere sessionId r p q -> sameElsewhere sessionId r p (update r f q).
Proof.
  intros (H1 & H2 & H3 & H4). unfold sameElsewhere, update. simpl.
  rewrite length_alter. repeat split; auto.
  intros r' Hr'. rewrite list_lookup_alter_ne by done. auto.
Qed.

Lemma sameElsewhere_emit sessionId r sid e p q :
  sameElsewhere sessionId r p q -> sameElsewhere sessionId r p (emitEvent sid e q).
Proof. intros H. exact H. Qed.

Lemma sameElsewhere_onSession sessionId r f p q :
  sameElsewhere sessionId r p q -> sameElsewhere sessionId r p (onSession sessionId f q).
Proof.
  intros H. pose proof H as (_ & _ & _ & [Hr|Hr]); unfold onSession; rewrite Hr.
  - by apply sameElsewhere_update.
  - exact H.
Qed.

Lemma sameElsewhere_stop sessionId r p q :
  sameElsewhere sessionId r p q -> sameElsewhere sessionId r p (stopProcessing sessionId q).
Proof.
  intros H. apply (sameElsewhere_onSession _ _ (withStatus error)) in H.
  destruct H as (H1 & H2 & H3 & H4). unfold stopProcessing, sameElsewhere. simpl.
  repeat split; auto.
  - intros sid Hsid. rewrite lookup_delete_ne by done. auto.
  - right. apply lookup_delete_eq.
Qed.

Lemma sameElsewhere_calls sessionId r cs : forall p q,
  sameElsewhere sessionId r p q -> sameElsewhere sessionId r p (calls sessionId cs q).
Proof.
  induction cs as [|c cs IH]; intros p q H; [exact H|].
  simpl. apply IH. destruct c; simpl.
  - by apply sameElsewhere_onSession.
  - by apply sameElsewhere_onSession.
  - by apply sameElsewhere_stop.
Qed.

Lemma sameElsewhere_nodes sessionId r (batch : list Tree.FigmaNode) : forall p q,
  sameElsewhere sessionId r p q ->
  sameElsewhere sessionId r p
    (fold_left (fun q _ => emitEvent sessionId node_processed q) batch q).
Proof.
  induction batch as [|n batch IH]; intros p q H; [exact H|].
  simpl. apply IH. exact H.
Qed.

Lemma sameElsewhere_loop sessionId r during after batches : forall i p q,
  sameElsewhere sessionId r p q ->
  sameElsewhere sessionId r p
    (mainThreadLoop sessionId r during after batches i q).
Proof.
  induction batches as [|batch batches IH]; intros i p q H; [exact H|].
  simpl. destruct (statusAt q r) as [[]|]; try exact H.
  apply IH. apply sameElsewhere_calls. apply sameElsewhere_emit.
  apply sameElsewhere_update. apply sameElsewhere_nodes.
  apply sameElsewhere_calls. exact H.
Qed.

Lemma sameElsewhere_wellFormed sessionId r p q :
  wellFormed p -> sessions p !! sessionId = Some r ->
  sameElsewhere sessionId r p q ->
  wellFormed q
  /\ forall sid, sid <> sessionId -> getSession q sid = getSession p sid.
Proof.
  intros [Hlt Hinj] Hr (H1 & H2 & H3 & H4).
  assert (Hother : forall sid r', sid <> sessionId ->
                     sessions q !! sid = Some r' -> r' <> r).
  { intros sid r' Hsid Hq ->. rewrite H3 in Hq by done.
    apply Hsid. eapply Hinj; eauto. }
  split; [split|].
  - intros sid r' Hq. rewrite H1.
    destruct (decide (sid = sessionId)) as [->|Hne].
    + destruct H4 as [H4|H4]; rewrite H4 in Hq; inversion Hq; subst. eauto.
    + rewrite H3 in Hq by done. eauto.
  - intros sid1 sid2 r' Hq1 Hq2.
    destruct (decide (sid1 = sessionId)) as [->|Hne1];
      destruct (decide (sid2 = sessionId)) as [->|Hne2]; [done| | |].
    + destruct H4 as [H4|H4]; rewrite H4 in Hq1; inversion Hq1; subst.
      destruct (Hother _ _ Hne2 Hq2 eq_refl).
    + destruct H4 as [H4|H4]; rewrite H4 in Hq2; inversion Hq2; subst.
      destruct (Hother _ _ Hne1 Hq1 eq_refl).
    + rewrite H3 in Hq1, Hq2 by done. eauto.
  - intros sid Hsid. unfold getSession. rewrite H3 by done.
    destruct (sessions p !! sid) as [r'|] eqn:Hp; [|reflexivity].
    apply H2. intros ->. apply Hsid. eapply Hinj; eauto.
Qed.

Lemma perform_elsewhere sessionId op p :
  wellFormed p ->
  wellFormed (perform sessionId op p)
  /\ forall sid, sid <> sessionId ->
                 getSession (perform sessionId op p) sid = getSession p sid.
Proof.
  intros Hwf. destruct (sessions p !! sessionId) as [r|] eqn:Hr.
  - apply (sameElsewhere_wellFormed sessionId r p); [exact Hwf|exact Hr|].
    pose proof (sameElsewhere_refl _ _ _ Hr) as H.
    destruct op; simpl; unfold pauseProcessing, resumeProcessing, handleError;
      repeat first [ apply sameElsewhere_emit
                   | apply sameElsewhere_onSession
                   | apply sameElsewhere_stop ];
      exact H.
  - assert (Hon : forall f, onSession sessionId f p = p)
      by (intros f; unfold onSession; by rewrite Hr).
    destruct op; simpl; unfold pauseProcessing, resumeProcessing, handleError,
      stopProcessing; rewrite ?Hon; try (split; [exact Hwf|reflexivity]).
    destruct Hwf as [Hlt Hinj]. split; [split|]; simpl.
    + intros sid r Hs. apply lookup_delete_Some in Hs as [_ Hs]. eauto.
    + intros sid1 sid2 r H1 H2.
      apply lookup_delete_Some in H1 as [_ H1].
      apply lookup_delete_Some in H2 as [_ H2]. eauto.
    + intros sid Hsid. unfold getSession. simpl.
      by rewrite lookup_delete_ne.
Qed.

Lemma start_elsewhere hasWorker document sessionId now p p' :
  wellFormed p ->
  startProcessing hasWorker document sessionId now p = Some p' ->
  wellFormed p'
  /\ forall sid, sid <> sessionId -> getSession p' sid = getSession p sid.
Proof.
  intros [Hlt Hinj] Hstart.
  apply startProcessing_spec in Hstart as (total & _ & Hs & Ho & _).
  split; [split|].
  - intros sid r. rewrite Hs, Ho, length_app. simpl.
    intros H. apply lookup_insert_Some in H as [[_ <-]|[_ H]]; [lia|].
    apply Hlt in H. lia.
  - intros sid1 sid2 r. rewrite Hs. intros H1 H2.
    apply lookup_insert_Some in H1 as [[<- <-]|[Hn1 H1]];
      apply lookup_insert_Some in H2 as [[<- E]|[Hn2 H2]]; try done.
    + apply Hlt in H2. lia.
    + apply Hlt in H1. lia.
    + eauto.
  - intros sid Hsid. unfold getSession. rewrite Hs, Ho.
    rewrite lookup_insert_ne by done.
    destruct (sessions p !! sid) as [r|] eqn:Hr; [|reflexivity].
    apply lookup_app_l. eauto.
Qed.

Lemma main_elsewhere batchSize document sessionId during after p p' :
  wellFormed p ->
  processInMainThread batchSize document sessionId during after p = Some p' ->
  wellFormed p'
  /\ forall sid, sid <> sessionId -> getSession p' sid = getSession p sid.
Proof.
  intros Hwf Hmain. unfold processInMainThread in Hmain.
  destruct (sessions p !! sessionId) as [r|] eqn:Hr.
  2: { inversion Hmain; subst. split; [exact Hwf|reflexivity]. }
  destruct (flattenNodes document) as [nodes|]; [|discriminate].
  destruct (Chunking.createBatches _ _ _) as [batches|]; [|discriminate].
  inversion Hmain; subst.
  apply (sameElsewhere_wellFormed sessionId r p); [exact Hwf|exact Hr|].
  apply sameElsewhere_emit, sameElsewhere_update, sameElsewhere_loop.
  by apply sameElsewhere_refl.
Qed.

Lemma reachable_wellFormed p : reachable p -> wellFormed p.
Proof.
  induction 1 as [|p hw doc sid now p' _ IH Hs|p sid op _ IH
                  |p bs doc sid during after p' _ IH Hm].
  - split; simpl; intros *; rewrite lookup_empty; discriminate.
  - eapply start_elsewhere; eauto.
  - by apply perform_elsewhere.
  - eapply main_elsewhere; eauto.
Qed.

End IsolationFacts.

(** X15.  Sessions do not interfere: in any processor produced by the
    operations of the class, whatever is done under one session identifier
    (pause, resume, stop, a worker message, a restart, a whole run on the
    main thread) leaves the session registered under any other identifier
    exactly as it was. *)
Theorem X15_sessions_are_isolated
  (p : RealTime.Processor) (sessionId other : string) :
  reachable p -> other <> sessionId ->
  (forall op,
      RealTime.getSession (RealTime.perform sessionId op p) other
      = RealTime.getSession p other)
  /\ (forall hasWorker document now p',
        RealTime.startProcessing hasWorker document sessionId now p = Some p' ->
        RealTime.getSession p' other = RealTime.getSession p other)
  /\ (forall batchSize document during after p',
        RealTime.processInMainThread batchSize document sessionId during after p
        = Some p' ->
        RealTime.getSession p' other = RealTime.getSession p other).
Proof.
  intros Hreach Hne. apply reachable_wellFormed in Hreach.
  split; [|split].
  - intros op. by apply perform_elsewhere.
  - intros hw doc now p' H. eapply start_elsewhere; eauto.
  - intros bs doc during after p' H. eapply main_elsewhere; eauto.
Qed.

Section MainThreadFacts.
Import RealTime.

Lemma flattenNodes_countNodes (root : option Tree.FigmaNode) :
  flattenNodes root
  = (if Tree.nullFree root
     then Some (map fst (Tree.flattenDocumentTree root 0))
     else None)
  /\ length <$> flattenNodes root = Tree.countNodes root.
Proof.
  destruct root as [n|]; [|split; reflexivity]. simpl.
  rewrite flattenNodesOf_spec, countNodesOf_spec.
  destruct (Tree.nullFreeOf n); [|split; reflexivity].
  split; [reflexivity|]. simpl.
  rewrite length_map, flattenNode_length. reflexivity.
Qed.

(** What [processInMainThread] works on after a successful
    [startProcessing]. *)
Lemma started_batches batchSize hasWorker document sessionId now p p0 :
  (1 <= batchSize)%Z ->
  startProcessing hasWorker document sessionId now p = Some p0 ->
  exists nodes batches,
    flattenNodes document = Some nodes
    /\ length nodes = Tree.countNonNull document
    /\ Chunking.createBatches (S (length nodes)) nodes batchSize = Some batches
    /\ concat batches = nodes
    /\ Forall (fun b => 1 <= length b) batches
    /\ Z.of_nat (length batches) = ceilDiv (Z.of_nat (length nodes)) batchSize
    /\ sessions p0 !! sessionId = Some (length (objects p))
    /\ objects p0
       = objects p ++ [mkSession sessionId now (length nodes) 0 active]
    /\ emitted p0 = emitted p.
Proof.
  intros Hs Hstart.
  apply startProcessing_spec in Hstart as (total & Hcount & Hsess & Hobj & Hem).
  destruct (flattenNodes_countNodes document)
    as [Hflat Hlen].
  rewrite <- Hlen in Hcount.
  destruct (flattenNodes document) as [nodes|] eqn:Hnodes; [|discriminate].
  simpl in Hcount. inversion Hcount; subst total.
  assert (Hnf : Tree.nullFree document = true).
  { destruct (Tree.nullFree document); [reflexivity|discriminate]. }
  rewrite Hnf in Hflat. inversion Hflat as [Hn].
  destruct (createChunksLoop_positive nodes batchSize Hs (S (length nodes)) 0%Z [])
    as (batches & Hrun & Hcat & Hall & _); [lia|lia|].
  rewrite app_nil_l in Hrun.
  exists nodes, batches. split; [congruence|]. split.
  { rewrite Hn, length_map.
    destruct document as [n|]; [apply flattenNode_length|reflexivity]. }
  unfold Chunking.createBatches. rewrite createBatchesLoop_createChunksLoop.
  split; [exact Hrun|]. split; [exact Hcat|]. split.
  { eapply Forall_impl; [exact Hall|]. simpl. tauto. }
  split.
  { rewrite (createChunksLoop_count nodes batchSize Hs _ 0%Z [] batches
               (Z.le_refl 0) Hrun).
    replace (Z.max 0 (Z.of_nat (length nodes) - 0)) with (Z.of_nat (length nodes))
      by lia.
    reflexivity. }
  split; [rewrite Hsess; apply lookup_insert_eq|]. split; [exact Hobj|exact Hem].
Qed.

Lemma batchEvents_nodes sessionId (batches : list (list Tree.FigmaNode)) :
  length (List.filter (isEvent node_processed) (batches ≫= batchEvents sessionId))
  = length (concat batches).
Proof.
  induction batches as [|b batches IH]; [reflexivity|].
  rewrite bind_cons. unfold batchEvents at 1.
  rewrite !List.filter_app, !length_app, IH. simpl.
  assert (H : forall n,
             List.filter (isEvent node_processed)
               (replicate n (sessionId, node_processed))
             = replicate n (sessionId, node_processed)).
  { induction n as [|n IHn]; [reflexivity|]. simpl. by rewrite IHn. }
  rewrite H, length_replicate, length_app. lia.
Qed.

Lemma batchEvents_batches sessionId (batches : list (list Tree.FigmaNode)) :
  length (List.filter (isEvent batch_complete) (batches ≫= batchEvents sessionId))
  = length batches.
Proof.
  induction batches as [|b batches IH]; [reflexivity|].
  rewrite bind_cons. unfold batchEvents at 1.
  rewrite !List.filter_app, !length_app, IH. simpl.
  assert (H : forall n,
             List.filter (isEvent batch_complete)
               (replicate n (sessionId, node_processed)) = []).
  { induction n as [|n IHn]; [reflexivity|]. simpl. exact IHn. }
  rewrite H. reflexivity.
Qed.

End MainThreadFacts.

Section MainThreadRuns.
Import RealTime.

Lemma mainThreadLoop_cons_active sessionId r during after b rest i p :
  statusAt p r = Some active ->
  mainThreadLoop sessionId r during after (b :: rest) i p
  = mainThreadLoop sessionId r during after rest (S i)
      (calls sessionId (after i)
         (quietBatch sessionId r b (calls sessionId (during i) p))).
Proof. intros H. simpl. rewrite H. reflexivity. Qed.

Lemma mainThreadLoop_inactive sessionId r during after batches i p st :
  statusAt p r = Some st -> st <> active ->
  mainThreadLoop sessionId r during after batches i p = p.
Proof.
  intros H Hst. destruct batches as [|b rest]; [reflexivity|].
  simpl. rewrite H. destruct st; done.
Qed.

Lemma call_spec sessionId r c p :
  sessions p !! sessionId = Some r ->
  objects (call sessionId c p) = alter (withStatus (statusAfter c)) r (objects p)
  /\ emitted (call sessionId c p) = emitted p
  /\ sessions (call sessionId c p)
     = match c with
       | CallStop => delete sessionId (sessions p)
       | _ => sessions p
       end.
Proof.
  intros Hr. destruct c; simpl;
    unfold pauseProcessing, resumeProcessing, stopProcessing, onSession;
    rewrite Hr; simpl; done.
Qed.

End MainThreadRuns.

(** X16.  A run on the main thread that nobody interrupts: after
    [startProcessing] without a worker and with [batchSize >= 1],
    [processInMainThread] returns, the session is [completed] with
    [processedNodes = totalNodes], the number of nodes of the document,
    and it has emitted one [node_processed] per node and one
    [batch_complete] per batch, [ceil(totalNodes / batchSize)] of them,
    before the final [complete]. *)
Theorem X16_main_thread_run_completes
  (batchSize : Z) (document : option Tree.FigmaNode) (sessionId : string)
  (now : Z) (p p0 : RealTime.Processor) :
  (1 <= batchSize)%Z ->
  RealTime.startProcessing false document sessionId now p = Some p0 ->
  exists p1 events,
    RealTime.processInMainThread batchSize document sessionId
      (fun _ => []) (fun _ => []) p0 = Some p1
    /\ RealTime.getSession p1 sessionId
       = Some (RealTime.mkSession sessionId now (Tree.countNonNull document)
                 (Tree.countNonNull document) RealTime.completed)
    /\ RealTime.emitted p1
       = RealTime.emitted p ++ events ++ [(sessionId, RealTime.complete)]
    /\ length (List.filter (isEvent RealTime.node_processed) events)
       = Tree.countNonNull document
    /\ Z.of_nat (length (List.filter (isEvent RealTime.batch_complete) events))
       = ceilDiv (Z.of_nat (Tree.countNonNull document)) batchSize.
Proof.
  intros Hsize Hstart.
  destruct (started_batches batchSize false document sessionId now p p0 Hsize Hstart)
    as (nodes & batches & Hflat & Hlen & Hb & Hcat & _ & Hcnt & Hs & Ho & He).
  set (r := length (RealTime.objects p)) in *.
  set (sess := RealTime.mkSession sessionId now (length nodes) 0 RealTime.active) in *.
  assert (Hr : RealTime.objects p0 !! r = Some sess).
  { rewrite Ho. apply list_lookup_middle. reflexivity. }
  pose proof (mainThreadLoop_quiet sessionId r (fun _ => []) (fun _ => [])
                batches [] 0 p0 sess (fun _ _ => conj eq_refl eq_refl) Hr eq_refl)
    as Hloop.
  rewrite app_nil_r in Hloop. simpl in Hloop.
  destruct (quietBatches_spec sessionId r batches p0 sess Hr)
    as (Q1 & _ & _ & Q4 & Q5).
  eexists _, (batches ≫= batchEvents sessionId). split; [|split; [|split; [|split]]].
  - unfold RealTime.processInMainThread. rewrite Hs, Hflat, Hb, Hloop. reflexivity.
  - unfold RealTime.getSession. simpl. rewrite Q4, Hs.
    rewrite list_lookup_alter_eq, Q1. simpl.
    unfold RealTime.withStatus, RealTime.addProcessed. simpl.
    rewrite Hcat, Hlen. reflexivity.
  - simpl. rewrite Q5, He, <- app_assoc. reflexivity.
  - rewrite batchEvents_nodes, Hcat. exact Hlen.
  - rewrite batchEvents_batches, Hcnt, Hlen. reflexivity.
Qed.

Lemma X16_witness :
  exists p1 events,
    RealTime.processInMainThread 2 threeNodes "s"
      (fun _ => []) (fun _ => [])
      {| RealTime.objects := [RealTime.mkSession "s" 7 3 0 RealTime.active];
         RealTime.sessions := {["s" := 0]};
         RealTime.workers := ∅;
         RealTime.emitted := [] |} = Some p1
    /\ RealTime.getSession p1 "s"
       = Some (RealTime.mkSession "s" 7 (Tree.countNonNull threeNodes)
                 (Tree.countNonNull threeNodes) RealTime.completed)
    /\ RealTime.emitted p1
       = RealTime.emitted RealTime.empty ++ events ++ [("s", RealTime.complete)]
    /\ length (List.filter (isEvent RealTime.node_processed) events)
       = Tree.countNonNull threeNodes
    /\ Z.of_nat (length (List.filter (isEvent RealTime.batch_complete) events))
       = ceilDiv (Z.of_nat (Tree.countNonNull threeNodes)) 2.
Proof.
  apply (X16_main_thread_run_completes 2 threeNodes "s" 7 RealTime.empty).
  - lia.
  - reflexivity.
Defined.

(** X17.  A call of [pauseProcessing] or [stopProcessing] that arrives
    while batch [k] is processed ends the loop of [processInMainThread]
    after that batch, whatever [k]: the batches after it are never
    processed, and the session object is marked [completed] with the
    count of the batches up to [k], less than [totalNodes] when batches
    were left.  After a pause the registry returns that session; after a
    stop it returns none, the object being updated all the same. *)
Theorem X17_pause_or_stop_ends_the_main_thread_run
  (batchSize : Z) (document : option Tree.FigmaNode) (sessionId : string)
  (now : Z) (p p0 : RealTime.Processor)
  (nodes : list Tree.FigmaNode) (batches : list (list Tree.FigmaNode))
  (k : nat) (c : RealTime.Call) :
  (1 <= batchSize)%Z ->
  RealTime.startProcessing false document sessionId now p = Some p0 ->
  RealTime.flattenNodes document = Some nodes ->
  Chunking.createBatches (S (length nodes)) nodes batchSize = Some batches ->
  k < length batches ->
  c <> RealTime.CallResume ->
  let done := length (concat (take (S k) batches)) in
  let session := RealTime.mkSession sessionId now (length nodes) done
                   RealTime.completed in
  exists p1,
    RealTime.processInMainThread batchSize document sessionId
      (fun i => if i =? k then [c] else []) (fun _ => []) p0 = Some p1
    /\ RealTime.objects p1 !! length (RealTime.objects p) = Some session
    /\ RealTime.getSession p1 sessionId
       = match c with RealTime.CallStop => None | _ => Some session end
    /\ RealTime.emitted p1
       = RealTime.emitted p ++ (take (S k) batches ≫= batchEvents sessionId)
           ++ [(sessionId, RealTime.complete)]
    /\ (S k < length batches -> done < length nodes).
Proof.
  intros Hsize Hstart Hflat Hb Hk Hc done session.
  destruct (started_batches batchSize false document sessionId now p p0 Hsize Hstart)
    as (nodes' & batches' & Hflat' & _ & Hb' & Hcat & Hall & _ & Hs & Ho & He).
  assert (E : nodes' = nodes) by congruence.
  revert Hcat. rewrite E in *. clear E. intros Hcat.
  assert (E : batches' = batches) by congruence.
  revert Hcat. rewrite E in *. clear E. intros Hcat.
  clear Hflat' Hb'.
  set (r := length (RealTime.objects p)) in *.
  set (sess := RealTime.mkSession sessionId now (length nodes) 0 RealTime.active) in *.
  assert (Hr : RealTime.objects p0 !! r = Some sess).
  { rewrite Ho. apply list_lookup_middle. reflexivity. }
  destruct (lookup_lt_is_Some_2 batches k Hk) as [b Hbk].
  pose proof (take_drop_middle batches k b Hbk) as Hsplit.
  set (pre := take k batches) in *. set (rest := drop (S k) batches) in *.
  assert (Hpre : length pre = k) by (unfold pre; rewrite length_take; lia).
  set (during := fun i => if i =? k then [c] else []).
  assert (Hloop : RealTime.mainThreadLoop sessionId r during (fun _ => []) batches 0 p0
                  = RealTime.mainThreadLoop sessionId r during (fun _ => [])
                      (b :: rest) k (quietBatches sessionId r pre p0)).
  { rewrite <- Hsplit at 1.
    rewrite (mainThreadLoop_quiet sessionId r during (fun _ => [])
               pre (b :: rest) 0 p0 sess); [by rewrite Hpre| |exact Hr|reflexivity].
    intros j Hj. unfold during.
    destruct (Nat.eqb_spec j k); [lia|done]. }
  destruct (quietBatches_spec sessionId r pre p0 sess Hr)
    as (Q1 & _ & _ & Q4 & Q5).
  set (q := quietBatches sessionId r pre p0) in *.
  apply (f_equal (fun m => m !! sessionId)) in Q4. simpl in Q4. rewrite Hs in Q4.
  rewrite mainThreadLoop_cons_active in Hloop
    by (unfold RealTime.statusAt; rewrite Q1; reflexivity).
  assert (Hd : during k = [c]) by (unfold during; by rewrite Nat.eqb_refl).
  rewrite Hd in Hloop. simpl in Hloop.
  destruct (call_spec sessionId r c q Q4) as (C1 & C2 & C3).
  set (q1 := RealTime.call sessionId c q) in *.
  destruct (quietBatch_spec sessionId r b q1) as (B1 & B2 & B3).
  set (q2 := quietBatch sessionId r b q1) in *.
  assert (Hq2 : RealTime.objects q2 !! r
                = Some (RealTime.addProcessed (length b)
                          (RealTime.withStatus (statusAfter c)
                             (RealTime.addProcessed (length (concat pre)) sess)))).
  { rewrite B1, list_lookup_alter_eq, C1, list_lookup_alter_eq, Q1. reflexivity. }
  rewrite (mainThreadLoop_inactive _ _ _ _ rest (S k) q2 (statusAfter c))
    in Hloop.
  2: { unfold RealTime.statusAt. rewrite Hq2. reflexivity. }
  2: { destruct c; done. }
  assert (Htake : take (S k) batches = pre ++ [b])
    by (apply take_S_r; exact Hbk).
  assert (Hdone : done = length (concat pre) + length b).
  { unfold done. rewrite Htake, concat_app, length_app. simpl.
    rewrite app_nil_r. reflexivity. }
  clearbody q2 q1 q.
  eexists. split; [|split; [|split; [|split]]].
  - unfold RealTime.processInMainThread. rewrite Hs, Hflat, Hb.
    fold during. fold r. rewrite Hloop. reflexivity.
  - simpl. rewrite list_lookup_alter_eq, Hq2. simpl.
    unfold session, RealTime.withStatus, RealTime.addProcessed. simpl.
    rewrite Hdone. reflexivity.
  - unfold RealTime.getSession. simpl. rewrite B2, C3.
    destruct c; [| done |].
    + rewrite Q4, list_lookup_alter_eq, Hq2. simpl.
      unfold session, RealTime.withStatus, RealTime.addProcessed. simpl.
      rewrite Hdone. reflexivity.
    + rewrite lookup_delete_eq. reflexivity.
  - simpl. rewrite B3, C2, Q5, He, Htake, bind_app, bind_cons.
    change ([] ≫= batchEvents sessionId) with (@nil (string * RealTime.EventType)).
    rewrite app_nil_r, <- !app_assoc. reflexivity.
  - intros Hmore. rewrite <- Hcat, <- (take_drop (S k) batches) at 1.
    rewrite concat_app, length_app. fold done.
    destruct (lookup_lt_is_Some_2 batches (S k) Hmore) as [b' Hb'].
    pose proof (Forall_lookup_1 _ _ _ _ Hall Hb') as Hne. simpl in Hne.
    rewrite (drop_S _ _ _ Hb'). simpl. rewrite length_app. lia.
Qed.

Lemma X17_witness :
  let done := length (concat (take 2 threeNodesBatches)) in
  let session := RealTime.mkSession "s" 7 (length threeNodesFlat) done
                   RealTime.completed in
  exists p1,
    RealTime.processInMainThread 1 threeNodes "s"
      (fun i => if i =? 1 then [RealTime.CallStop] else []) (fun _ => [])
      {| RealTime.objects := [RealTime.mkSession "s" 7 3 0 RealTime.active];
         RealTime.sessions := {["s" := 0]};
         RealTime.workers := ∅;
         RealTime.emitted := [] |} = Some p1
    /\ RealTime.objects p1 !! length (RealTime.objects RealTime.empty) = Some session
    /\ RealTime.getSession p1 "s" = None
    /\ RealTime.emitted p1
       = RealTime.emitted RealTime.empty
           ++ (take 2 threeNodesBatches ≫= batchEvents "s")
           ++ [("s", RealTime.complete)]
    /\ (2 < length threeNodesBatches -> done < length threeNodesFlat).
Proof.
  apply (X17_pause_or_stop_ends_the_main_thread_run 1 threeNodes "s" 7
           RealTime.empty _ threeNodesFlat threeNodesBatches 1 RealTime.CallStop).
  - lia.
  - reflexivity.
  - reflexivity.
  - reflexivity.
  - simpl. lia.
  - discriminate.
Defined.

(** ** The run as a whole *)

Section ScheduleFacts.
Import Pipeline.
Variable config : Config.ProcessingConfig.
Variable chunks : list (list Tree.FlatNode).
Variable work : nat -> Z -> option nat.

Local Abbreviation max := (Config.maxRetriesPerChunk config).

Lemma granted_insert ts i t :
  granted ts (<[i := t]> ts) i.
Proof.
  split; [apply length_insert|]. intros j Hj. left.
  by apply list_lookup_insert_ne.
Qed.

Lemma releasePermit_effect s s' i r t :
  permitInv chunks s -> tasks s !! i = Some t -> isActive t = true ->
  releasePermit i r s = Some s' ->
  tasks s' !! i = Some (Done r) /\ granted (tasks s) (tasks s') i
  /\ data s' = data s /\ loop s' = loop s /\ outcome s' = outcome s
  /\ abortController s' = abortController s.
Proof.
  intros Hinv Hi Ht Hrel. pose proof Hinv as (_ & _ & _ & _ & Hq & _).
  pose proof (lookup_lt_Some _ _ _ Hi) as Hlt.
  pose proof (releasePermit_frame _ _ _ _ Hrel) as (Hc & Hl & Hd & Ho & Hts).
  destruct (Sem.queue (semaphore s)) as [|next rest] eqn:Hqs.
  - rewrite Hts. split; [by apply list_lookup_insert_eq|].
    split; [apply granted_insert|done].
  - assert (Hw : tasks s !! next = Some Waiting)
      by (apply Hq; apply list_elem_of_here).
    assert (Hne : next <> i).
    { intros ->. rewrite Hi in Hw. inversion Hw; subst. discriminate. }
    pose proof (lookup_lt_Some _ _ _ Hw) as Hnlt.
    rewrite Hts. split.
    { rewrite list_lookup_insert_ne by done. by apply list_lookup_insert_eq. }
    split; [|done]. split; [by rewrite !length_insert|].
    intros j Hj. destruct (decide (j = next)) as [->|Hjn].
    + right. split; [exact Hw|].
      apply list_lookup_insert_eq. by rewrite length_insert.
    + left. by rewrite !list_lookup_insert_ne.
Qed.

(** What each step does to the tasks, the data and the loop. *)
Lemma step_effect l s s' :
  permitInv chunks s -> step config chunks work l s = Some s' ->
  match l with
  | LoopStep =>
      data s' = data s
      /\ ((tasks s' = tasks s
           /\ loopSteps (length chunks) (loop s') < loopSteps (length chunks) (loop s))
          \/ exists i t',
               loop s = Submitting i /\ i < length chunks
               /\ loop s' = Submitting (S i)
               /\ tasks s !! i = Some Unsubmitted
               /\ tasks s' = <[i := t']> (tasks s)
               /\ (t' = Ready 0 \/ t' = Waiting))
  | Begin i | Finish i =>
      loop s' = loop s /\ granted (tasks s) (tasks s') i
      /\ exists t t',
           tasks s !! i = Some t /\ tasks s' !! i = Some t'
           /\ ((attemptMove max t t' /\ data s' = data s)
               \/ (l = Finish i /\ (exists a, t = Running a)
                   /\ t' = Done Retry.Returned
                   /\ data s' = data (record (chunks !!! i) s)))
  | Abort => tasks s' = tasks s /\ data s' = data s /\ loop s' = loop s
  | Settle _ =>
      tasks s' = tasks s /\ data s' = data s
      /\ loop s = AwaitingAll /\ loop s' = Exited
  end.
Proof.
  intros Hinv Hstep. pose proof Hinv as (Hlen & _ & _ & _ & _ & Hun).
  destruct l as [|i|i| |[i|]]; simpl in Hstep.
  - destruct (loop s) as [i| |] eqn:Hl; try discriminate.
    destruct (Nat.ltb_spec i (length chunks)); [destruct (signalAborted s)|];
      inversion Hstep; subst; clear Hstep; simpl; (split; [reflexivity|]).
    + left. split; [reflexivity|lia].
    + right. eexists i, _. repeat split; try done.
      * apply (Hun i i); auto. lia.
      * destruct (0 <? _)%Z; auto.
    + left. split; [reflexivity|lia].
  - destruct (tasks s !! i) as [[| |a|a|r]|] eqn:Hi; try discriminate.
    pose proof (lookup_lt_Some _ _ _ Hi) as Hlt.
    destruct (Z.ltb_spec a max); [destruct (signalAborted s)|].
    + destruct (releasePermit_effect _ _ _ _ _ Hinv Hi eq_refl Hstep)
        as (H1 & H2 & H3 & H4 & _).
      split; [exact H4|]. split; [exact H2|].
      eexists _, _. split; [reflexivity|]. split; [exact H1|]. left.
      split; [by constructor|exact H3].
    + inversion Hstep; subst; clear Hstep. simpl.
      split; [reflexivity|]. split; [apply granted_insert|].
      eexists _, _. split; [reflexivity|].
      split; [by apply list_lookup_insert_eq|]. left.
      split; [by constructor|reflexivity].
    + destruct (releasePermit_effect _ _ _ _ _ Hinv Hi eq_refl Hstep)
        as (H1 & H2 & H3 & H4 & _).
      split; [exact H4|]. split; [exact H2|].
      eexists _, _. split; [reflexivity|]. split; [exact H1|]. left.
      split; [by constructor|exact H3].
  - destruct (tasks s !! i) as [[| |a|a|r]|] eqn:Hi; try discriminate.
    pose proof (lookup_lt_Some _ _ _ Hi) as Hlt.
    destruct (work i a) as [code|];
      [destruct (Z.geb_spec (a + 1) max)|].
    + destruct (releasePermit_effect _ _ _ _ _ Hinv Hi eq_refl Hstep)
        as (H1 & H2 & H3 & H4 & _).
      split; [exact H4|]. split; [exact H2|].
      eexists _, _. split; [reflexivity|]. split; [exact H1|]. left.
      split; [constructor; lia|exact H3].
    + inversion Hstep; subst; clear Hstep. simpl.
      split; [reflexivity|]. split; [apply granted_insert|].
      eexists _, _. split; [reflexivity|].
      split; [by apply list_lookup_insert_eq|]. left.
      split; [constructor; lia|reflexivity].
    + assert (Hinv' : permitInv chunks (record (chunks !!! i) s))
        by (eapply permitInv_frame; [| | |exact Hinv]; auto).
      destruct (releasePermit_effect (record (chunks !!! i) s) _ _ _ _
                  Hinv' Hi eq_refl Hstep) as (H1 & H2 & H3 & H4 & _).
      split; [exact H4|]. split; [exact H2|].
      eexists _, _. split; [reflexivity|]. split; [exact H1|]. right.
      split; [reflexivity|]. split; [eauto|]. split; [reflexivity|exact H3].
  - inversion Hstep; subst. done.
  - destruct (loop s); try discriminate.
    destruct (tasks s !! i) as [[| | | |[|e]]|]; try discriminate.
    inversion Hstep; subst. done.
  - destruct (loop s); try discriminate.
    destruct (forallb _ _); inversion Hstep; subst. done.
Qed.









End ScheduleFacts.



Lemma pipeline_run_balanced config chunks work n trace : forall s s',
  balanced n (Pipeline.semaphore s) ->
  Pipeline.run config chunks work trace s = Some s' ->
  balanced n (Pipeline.semaphore s').
Proof.
  induction trace as [|l trace IH]; intros s s' Hb Hrun; simpl in Hrun.
  - inversion Hrun; subst; exact Hb.
  - destruct (Pipeline.step config chunks work l s) as [s1|] eqn:Hstep;
      [|discriminate].
    eapply IH; [|exact Hrun]. eapply pipeline_step_balanced; eauto.
Qed.

Lemma initial_balanced config chunks now :
  balanced (Config.maxConcurrentChunks config)
    (Pipeline.semaphore (Pipeline.initial config chunks now)).
Proof. split; simpl; unfold Sem.executing; simpl; lia. Qed.






Section TerminationFacts.
Import Pipeline.
Variable config : Config.ProcessingConfig.
Variable chunks : list (list Tree.FlatNode).
Variable work : nat -> Z -> option nat.

Local Abbreviation max := (Config.maxRetriesPerChunk config).

Lemma list_sum_insert (l : list nat) i x y :
  l !! i = Some x -> list_sum (<[i := y]> l) + x = list_sum l + y.
Proof.
  revert i. induction l as [|z l IH]; intros [|i] Hi; try discriminate.
  - inversion Hi; subst. simpl. lia.
  - simpl in *. specialize (IH i Hi). lia.
Qed.

Lemma taskSteps_move ts ts' i t t' :
  granted ts ts' i -> ts !! i = Some t -> ts' !! i = Some t' ->
  list_sum (map (taskSteps max) ts') + taskSteps max t
  = list_sum (map (taskSteps max) ts) + taskSteps max t'.
Proof.
  intros [Hlen Hg] Hi Hi'.
  assert (E : map (taskSteps max) ts'
              = <[i := taskSteps max t']> (map (taskSteps max) ts)).
  { apply list_eq. intros j. rewrite list_lookup_fmap.
    destruct (decide (j = i)) as [->|Hne].
    - rewrite list_lookup_insert_eq, Hi'; [done|].
      rewrite length_map. eapply lookup_lt_Some; eauto.
    - rewrite list_lookup_insert_ne, list_lookup_fmap by done.
      destruct (Hg j Hne) as [->|[-> ->]]; [done|]. simpl.
      by rewrite Z.sub_0_r. }
  rewrite E. apply list_sum_insert. by rewrite list_lookup_fmap, Hi.
Qed.

Lemma attemptMove_steps t t' :
  attemptMove max t t' -> taskSteps max t' < taskSteps max t.
Proof. intros H. inversion H; subst; simpl; lia. Qed.

(** Every step but the caller's [abort()] uses up one of the steps
    left. *)
Lemma stepsLeft_step l s s' :
  permitInv chunks s -> step config chunks work l s = Some s' ->
  stepsLeft config chunks s' + (if isAbort l then 0 else 1)
  <= stepsLeft config chunks s.
Proof.
  intros Hinv Hstep. pose proof (step_effect _ _ _ _ _ _ Hinv Hstep) as Heff.
  unfold stepsLeft. destruct l as [|i|i| |o]; simpl.
  - destruct Heff as [_ [[-> Hl]|(i & t' & Hl & Hi & Hl' & Hun & Hts & Ht')]];
      [lia|].
    pose proof (lookup_lt_Some _ _ _ Hun) as Hlt.
    pose proof (taskSteps_move (tasks s) (tasks s') i Unsubmitted t') as Hsum.
    rewrite Hts in Hsum.
    specialize (Hsum (granted_insert _ _ _) Hun (list_lookup_insert_eq _ _ _ Hlt)).
    rewrite Hts, Hl, Hl'. simpl.
    assert (taskSteps max t' = taskSteps max Unsubmitted).
    { destruct Ht' as [->| ->]; simpl; [|done]. by rewrite Z.sub_0_r. }
    lia.
  - destruct Heff as (-> & Hg & t & t' & Hi & Hi' & [[Hmove _]|(Hf & _)]);
      [|discriminate].
    pose proof (taskSteps_move _ _ _ _ _ Hg Hi Hi').
    pose proof (attemptMove_steps _ _ Hmove). lia.
  - destruct Heff as (-> & Hg & t & t' & Hi & Hi' &
                      [[Hmove _]|(_ & [a ->] & -> & _)]).
    + pose proof (taskSteps_move _ _ _ _ _ Hg Hi Hi').
      pose proof (attemptMove_steps _ _ Hmove). lia.
    + pose proof (taskSteps_move _ _ _ _ _ Hg Hi Hi') as H. simpl in H. lia.
  - destruct Heff as (-> & _ & ->). lia.
  - destruct Heff as (-> & _ & -> & ->). simpl. lia.
Qed.

Lemma stepsLeft_run trace : forall s s',
  permitInv chunks s -> run config chunks work trace s = Some s' ->
  moves trace + stepsLeft config chunks s' <= stepsLeft config chunks s.
Proof.
  induction trace as [|l trace IH]; intros s s' Hinv Hrun; simpl in Hrun.
  - inversion Hrun; subst. unfold moves. simpl. lia.
  - destruct (step config chunks work l s) as [s1|] eqn:Hstep; [|discriminate].
    pose proof (stepsLeft_step _ _ _ Hinv Hstep) as H1.
    pose proof (IH _ _ (step_permitInv _ _ _ _ _ _ Hinv Hstep) Hrun) as H2.
    unfold moves in *. simpl. destruct (isAbort l); simpl in *; lia.
Qed.

Lemma stepsLeft_initial now :
  stepsLeft config chunks (initial config chunks now)
  = length chunks + 2 + length chunks * (2 + Z.to_nat (2 * max)).
Proof.
  unfold stepsLeft. simpl. rewrite Nat.sub_0_r. f_equal.
  induction (length chunks) as [|n IH]; [reflexivity|].
  simpl. rewrite IH. lia.
Qed.

End TerminationFacts.

(** X20.  A run cannot go on for ever by itself: whatever the schedule
    and whatever fails, the steps other than the caller's [abort()] are at
    most one test of the submit loop per chunk and one more, one
    settlement, and for each chunk [maxRetriesPerChunk] attempts, each
    begun and finished, and one last test of its [while]. *)
Theorem X20_run_length_is_bounded
  (config : Config.ProcessingConfig) (chunks : list (list Tree.FlatNode))
  (work : nat -> Z -> option nat) (now : Z) (trace : list Pipeline.Label)
  (s : Pipeline.State) :
  Pipeline.run config chunks work trace (Pipeline.initial config chunks now) = Some s ->
  moves trace + stepsLeft config chunks s
  <= length chunks + 2
     + length chunks * (2 + Z.to_nat (2 * Config.maxRetriesPerChunk config)).
Proof.
  intros Hrun. rewrite <- (stepsLeft_initial config chunks now).
  eapply stepsLeft_run; [apply initial_permitInv|exact Hrun].
Qed.

Lemma X20_witness :
  moves failingSchedule + stepsLeft twoChunksConfig twoChunks failedState
  <= length twoChunks + 2
     + length twoChunks
       * (2 + Z.to_nat (2 * Config.maxRetriesPerChunk twoChunksConfig)).
Proof.
  apply (X20_run_length_is_bounded twoChunksConfig twoChunks secondChunkFails 0
           failingSchedule failedState).
  vm_compute. reflexivity.
Defined.

Section StarvationFacts.
Import Pipeline.
Variable config : Config.ProcessingConfig.
Variable chunks : list (list Tree.FlatNode).
Variable work : nat -> Z -> option nat.
Variable now : Z.
Hypothesis no_capacity : (Config.maxConcurrentChunks config <= 0)%Z.

Lemma step_starved l s s' :
  starved config chunks now s -> step config chunks work l s = Some s' ->
  starved config chunks now s' /\ isTaskStep l = false.
Proof.
  intros (Hp & Hlen & Hts & Hd & Ho) Hstep.
  destruct l as [|i|i| |[i|]]; simpl in Hstep.
  - split; [|reflexivity].
    destruct (loop s) as [i| |]; try discriminate.
    destruct (Nat.ltb_spec i (length chunks)); [destruct (signalAborted s)|];
      inversion Hstep; subst; clear Hstep; unfold starved; simpl.
    + repeat split; try done. intros o H'. inversion H'. by left.
    + unfold Sem.acquire. destruct (Z.ltb_spec 0 (Sem.permits (semaphore s)));
        [lia|]. simpl. rewrite length_insert. repeat split; try done.
      intros j t. destruct (decide (j = i)) as [->|Hne].
      * rewrite list_lookup_insert_eq by lia. intros H'. inversion H'. by right.
      * rewrite list_lookup_insert_ne by done. apply Hts.
    + done.
  - destruct (tasks s !! i) as [t|] eqn:Hi; [|discriminate].
    destruct (Hts i t Hi) as [-> | ->]; discriminate.
  - destruct (tasks s !! i) as [t|] eqn:Hi; [|discriminate].
    destruct (Hts i t Hi) as [-> | ->]; discriminate.
  - inversion Hstep; subst. done.
  - destruct (loop s); try discriminate.
    destruct (tasks s !! i) as [t|] eqn:Hi; [|discriminate].
    destruct (Hts i t Hi) as [-> | ->]; discriminate.
  - split; [|reflexivity]. destruct (loop s); try discriminate.
    destruct (forallb isReturned (tasks s)) eqn:Hall; [|discriminate].
    inversion Hstep; subst; clear Hstep. unfold starved. simpl.
    repeat split; try done. intros o H'. inversion H'. right.
    rewrite Hd. split; [|done].
    destruct (tasks s) as [|t ts] eqn:Hts'.
    + destruct chunks; [done|discriminate].
    + simpl in Hall. destruct (Hts 0 t eq_refl) as [-> | ->]; discriminate.
Qed.

Lemma run_starved trace : forall s s',
  starved config chunks now s -> run config chunks work trace s = Some s' ->
  starved config chunks now s' /\ Forall (fun l => isTaskStep l = false) trace.
Proof.
  induction trace as [|l trace IH]; intros s s' Hs Hrun; simpl in Hrun.
  - inversion Hrun; subst. split; [exact Hs|constructor].
  - destruct (step config chunks work l s) as [s1|] eqn:Hstep; [|discriminate].
    destruct (step_starved _ _ _ Hs Hstep) as [Hs1 Hl].
    destruct (IH _ _ Hs1 Hrun) as [Hs' Hall].
    split; [exact Hs'|by constructor].
Qed.

Lemma initial_starved : starved config chunks now (initial config chunks now).
Proof.
  unfold starved. simpl. rewrite length_replicate. repeat split; try done.
  intros i t H. apply lookup_replicate in H as [-> _]. by left.
Qed.

End StarvationFacts.

(** X21.  With [maxConcurrentChunks <= 0] no chunk is ever processed:
    every [acquire] waits and nothing releases, so in every state of
    every run each chunk is unsubmitted or waits, the output is empty,
    and the run does not settle unless [abort()] is seen by the submit
    loop or there is no chunk at all; a run with chunks and without abort
    stays pending. *)
Theorem X21_no_capacity_starves_the_run
  (config : Config.ProcessingConfig) (chunks : list (list Tree.FlatNode))
  (work : nat -> Z -> option nat) (now : Z) (trace : list Pipeline.Label)
  (s : Pipeline.State) :
  (Config.maxConcurrentChunks config <= 0)%Z ->
  Pipeline.run config chunks work trace (Pipeline.initial config chunks now) = Some s ->
  Forall (fun l => isTaskStep l = false) trace
  /\ (forall i t, Pipeline.tasks s !! i = Some t ->
                  t = Pipeline.Unsubmitted \/ t = Pipeline.Waiting)
  /\ Pipeline.processedNodes (Pipeline.data s) = []
  /\ Pipeline.processedCount (Pipeline.data s) = 0
  /\ (chunks <> [] ->
      Pipeline.outcome s = None
      \/ Pipeline.outcome s = Some (Pipeline.RejectedWith Retry.AbortError))
  /\ (chunks <> [] -> Pipeline.Abort ∉ trace -> Pipeline.outcome s = None).
Proof.
  intros Hn Hrun.
  destruct (run_starved config chunks work now Hn trace _ _
              (initial_starved config chunks now) Hrun)
    as [(Hp & Hlen & Hts & Hd & Ho) Hall].
  split; [exact Hall|]. split; [exact Hts|]. rewrite Hd. simpl.
  split; [reflexivity|]. split; [reflexivity|].
  assert (Hcases : chunks <> [] ->
            Pipeline.outcome s = None
            \/ Pipeline.outcome s = Some (Pipeline.RejectedWith Retry.AbortError)).
  { intros Hne. destruct (Pipeline.outcome s) as [o|]; [|by left].
    destruct (Ho o eq_refl) as [->|[Hnil _]]; [by right|done]. }
  split; [exact Hcases|].
  intros Hne Hab. destruct (Hcases Hne) as [H|H]; [exact H|].
  assert (Hun : unabortedInv (Pipeline.initial config chunks now)).
  { split; [reflexivity|]. split; [|discriminate].
    simpl. apply Forall_replicate. discriminate. }
  destruct (run_unabortedInv config chunks work trace _ _ Hab Hun Hrun)
    as (_ & _ & Hno). done.
Qed.

Lemma X21_witness :
  let config := Config.constructor
                  (Config.mkPartial (Some 2%Z) (Some 0%Z) None None None None None) in
  let trace := [Pipeline.LoopStep; Pipeline.LoopStep; Pipeline.LoopStep] in
  let s := {| Pipeline.abortController := Some false;
              Pipeline.semaphore := {| Sem.permits := 0; Sem.queue := [0; 1];
                                       Sem.holders := [] |};
              Pipeline.loop := Pipeline.AwaitingAll;
              Pipeline.tasks := [Pipeline.Waiting; Pipeline.Waiting];
              Pipeline.data := Pipeline.data (Pipeline.initial config twoChunks 0);
              Pipeline.outcome := None |} in
  Forall (fun l => isTaskStep l = false) trace
  /\ (forall i t, Pipeline.tasks s !! i = Some t ->
                  t = Pipeline.Unsubmitted \/ t = Pipeline.Waiting)
  /\ Pipeline.processedNodes (Pipeline.data s) = []
  /\ Pipeline.processedCount (Pipeline.data s) = 0
  /\ (twoChunks <> [] ->
      Pipeline.outcome s = None
      \/ Pipeline.outcome s = Some (Pipeline.RejectedWith Retry.AbortError))
  /\ (twoChunks <> [] -> Pipeline.Abort ∉ trace -> Pipeline.outcome s = None).
Proof.
  intros config trace s.
  apply (X21_no_capacity_starves_the_run config twoChunks neverFails 0 trace s).
  - vm_compute. discriminate.
  - vm_compute. reflexivity.
Defined.

Section ProgressFacts.
Import Pipeline.
Variable config : Config.ProcessingConfig.
Variable chunks : list (list Tree.FlatNode).
Variable work : nat -> Z -> option nat.

Local Abbreviation max := (Config.maxRetriesPerChunk config).
Local Abbreviation capacity := (Config.maxConcurrentChunks config).

Lemma liveInv_frame s1 s2 :
  semaphore s2 = semaphore s1 -> tasks s2 = tasks s1 ->
  loop s2 = loop s1 -> outcome s2 = outcome s1 ->
  liveInv s1 -> liveInv s2.
Proof.
  intros Hsem Hts Hl Ho H. unfold liveInv. by rewrite Hsem, Hts, Hl, Ho.
Qed.

Lemma liveInv_retask s i t t' :
  liveInv s -> tasks s !! i = Some t ->
  isActive t = true -> isActive t' = true ->
  liveInv (setTasks (<[i := t']> (tasks s)) s).
Proof.
  intros (L1 & L2 & L3 & L4) Hi Ht Ht'. unfold liveInv. simpl.
  split; [exact L1|]. split; [|split; [|exact L4]].
  - intros j Hj. apply list_lookup_insert_Some in Hj as [(-> & E & _)|[_ Hj]];
      [subst; discriminate|by apply L2].
  - intros j Hj. apply list_lookup_insert_Some in Hj as [(-> & E & _)|[_ Hj]];
      [subst; discriminate|by apply L3].
Qed.

Lemma liveInv_release s s' i r :
  liveInv s -> releasePermit i r s = Some s' -> liveInv s'.
Proof.
  intros (L1 & L2 & L3 & L4) Hrel.
  unfold releasePermit, Sem.release in Hrel.
  destruct (existsb _ _); [|discriminate]. unfold conserving in L1.
  destruct (Sem.queue (semaphore s)) as [|next rest] eqn:Hq;
    inversion Hrel; subst; clear Hrel; unfold liveInv, conserving; simpl.
  - split; [done|]. split; [|split; [|exact L4]].
    + intros j Hj. apply list_lookup_insert_Some in Hj as [(-> & ? & _)|[_ Hj]];
        [discriminate|]. by apply L2 in Hj.
    + intros j Hj. apply list_lookup_insert_Some in Hj as [(-> & ? & _)|[_ Hj]];
        [discriminate|]. by apply L3.
  - split; [intros _; specialize (L1 ltac:(done)); lia|].
    split; [|split; [|exact L4]].
    + intros j Hj.
      apply list_lookup_insert_Some in Hj as [(-> & ? & _)|[Hne Hj]];
        [discriminate|].
      apply list_lookup_insert_Some in Hj as [(-> & ? & _)|[_ Hj]];
        [discriminate|].
      apply L2, elem_of_cons in Hj as [->|Hj]; done.
    + intros j Hj.
      apply list_lookup_insert_Some in Hj as [(-> & ? & _)|[Hne Hj]];
        [discriminate|].
      apply list_lookup_insert_Some in Hj as [(-> & ? & _)|[_ Hj]];
        [discriminate|]. by apply L3.
Qed.

Lemma step_liveInv l s s' :
  permitInv chunks s -> liveInv s ->
  step config chunks work l s = Some s' -> liveInv s'.
Proof.
  intros Hperm Hlive Hstep. pose proof Hlive as (L1 & L2 & L3 & L4).
  pose proof Hperm as (Hlen & _).
  destruct l as [|i|i| |[i|]]; simpl in Hstep.
  - destruct (loop s) as [i| |] eqn:Hl; try discriminate.
    destruct (Nat.ltb_spec i (length chunks)); [destruct (signalAborted s)|];
      inversion Hstep; subst; clear Hstep; unfold liveInv; simpl.
    + split; [exact L1|]. split; [exact L2|]. split; [by left|done].
    + unfold conserving, Sem.acquire in *.
      destruct (Z.ltb_spec 0 (Sem.permits (semaphore s))); simpl.
      * split; [intros Hq; specialize (L1 Hq); lia|].
        split; [|split; [|discriminate]].
        -- intros j Hj.
           apply list_lookup_insert_Some in Hj as [(-> & ? & _)|[_ Hj]];
             [discriminate|by apply L2].
        -- intros j Hj.
           apply list_lookup_insert_Some in Hj as [(-> & ? & _)|[Hne Hj]];
             [discriminate|].
           destruct (L3 j Hj) as [?|(k & Hk & Hle)]; [discriminate|].
           inversion Hk; subst k. right. exists (S i). split; [done|lia].
      * split; [done|]. split; [|split; [|discriminate]].
        -- intros j Hj. apply elem_of_app.
           apply list_lookup_insert_Some in Hj as [(-> & _ & _)|[_ Hj]].
           ++ right. apply list_elem_of_singleton. reflexivity.
           ++ left. by apply L2.
        -- intros j Hj.
           apply list_lookup_insert_Some in Hj as [(-> & ? & _)|[Hne Hj]];
             [discriminate|].
           destruct (L3 j Hj) as [?|(k & Hk & Hle)]; [discriminate|].
           inversion Hk; subst k. right. exists (S i). split; [done|lia].
    + split; [exact L1|]. split; [exact L2|]. split; [|discriminate].
      intros j Hj. pose proof (lookup_lt_Some _ _ _ Hj).
      destruct (L3 j Hj) as [?|(k & Hk & Hle)]; [discriminate|].
      inversion Hk; subst k. lia.
  - destruct (tasks s !! i) as [[| |a|a|r]|] eqn:Hi; try discriminate.
    destruct (_ <? _)%Z; [destruct (signalAborted s)|];
      try (eapply liveInv_release; [exact Hlive|exact Hstep]).
    inversion Hstep; subst. eapply liveInv_retask; eauto.
  - destruct (tasks s !! i) as [[| |a|a|r]|] eqn:Hi; try discriminate.
    destruct (work i a); [destruct (_ >=? _)%Z|].
    + eapply liveInv_release; [exact Hlive|exact Hstep].
    + inversion Hstep; subst. eapply liveInv_retask; eauto.
    + eapply (liveInv_release (record (chunks !!! i) s)); [|exact Hstep].
      eapply liveInv_frame; [| | | |exact Hlive]; reflexivity.
  - inversion Hstep; subst.
    eapply liveInv_frame; [| | | |exact Hlive]; reflexivity.
  - destruct (loop s); try discriminate.
    destruct (tasks s !! i) as [[| | | |[|e]]|]; try discriminate.
    inversion Hstep; subst. unfold liveInv. simpl.
    split; [exact L1|]. split; [exact L2|]. split; [by left|done].
  - destruct (loop s); try discriminate.
    destruct (forallb _ _); inversion Hstep; subst. unfold liveInv. simpl.
    split; [exact L1|]. split; [exact L2|]. split; [by left|done].
Qed.

Lemma initial_liveInv now : liveInv (initial config chunks now).
Proof.
  unfold liveInv, conserving. simpl. split; [done|]. split; [|split; [|done]].
  - intros j H. apply lookup_replicate in H as [? _]. discriminate.
  - intros j _. right. exists 0. split; [done|lia].
Qed.

Lemma existsb_false_lookup (f : Task -> bool) ts i t :
  existsb f ts = false -> ts !! i = Some t -> f t = false.
Proof.
  intros Hex Hi. destruct (f t) eqn:Hf; [|reflexivity].
  assert (existsb f ts = true); [|congruence].
  apply existsb_exists. exists t. split; [|exact Hf].
  apply list_elem_of_In. eapply list_elem_of_lookup_2; eauto.
Qed.

Lemma existsb_true_lookup (f : Task -> bool) ts :
  existsb f ts = true -> exists i t, ts !! i = Some t /\ f t = true.
Proof.
  intros Hex. apply existsb_exists in Hex as (t & Hin & Hf).
  apply list_elem_of_In, list_elem_of_lookup_1 in Hin as [i Hi]. eauto.
Qed.

(** With a permit to hand out, a run that has not settled can take a
    step of its own. *)
Lemma pipeline_progress s :
  (1 <= capacity)%Z ->
  permitInv chunks s -> balanced capacity (semaphore s) -> liveInv s ->
  outcome s = None ->
  exists l s', isAbort l = false /\ step config chunks work l s = Some s'.
Proof.
  intros Hcap Hperm [Hsum _] (L1 & L2 & L3 & L4) Hout.
  pose proof Hperm as (Hlen & _ & _ & Hh & _).
  destruct (loop s) as [i| |] eqn:Hl; [| |by destruct (L4 eq_refl)].
  { exists LoopStep. simpl. rewrite Hl.
    destruct (_ <? _); [destruct (signalAborted s)|]; eauto. }
  destruct (existsb isActive (tasks s)) eqn:Hact.
  { apply existsb_true_lookup in Hact as (i & t & Hi & Ht).
    destruct t as [| |a|a|r]; try discriminate.
    - exists (Begin i). simpl. rewrite Hi.
      destruct (releasePermit_done chunks work s i _ (Retry.Threw Retry.AbortError)
                  Hperm Hi eq_refl) as (s1 & H1 & _).
      destruct (releasePermit_done chunks work s i _ Retry.Returned
                  Hperm Hi eq_refl) as (s2 & H2 & _).
      destruct (_ <? _)%Z; [destruct (signalAborted s)|]; eauto.
    - exists (Finish i). simpl. rewrite Hi.
      assert (Hperm' : permitInv chunks (record (chunks !!! i) s))
        by (eapply permitInv_frame; [| | |exact Hperm]; auto).
      destruct (releasePermit_done chunks work (record (chunks !!! i) s) i _
                  Retry.Returned Hperm' Hi eq_refl) as (s1 & H1 & _).
      destruct (work i a) as [code|]; [|eauto].
      destruct (releasePermit_done chunks work s i _
                  (Retry.Threw (Retry.WorkError code)) Hperm Hi eq_refl)
        as (s2 & H2 & _).
      destruct (_ >=? _)%Z; eauto. }
  destruct (existsb isThrown (tasks s)) eqn:Hthrown.
  { apply existsb_true_lookup in Hthrown as (i & t & Hi & Ht).
    destruct t as [| | | |[|e]]; try discriminate.
    exists (Settle (Some i)). simpl. rewrite Hl, Hi. eauto. }
  assert (Hholders : Sem.holders (semaphore s) = []).
  { destruct (Sem.holders (semaphore s)) as [|i hs] eqn:Hhs; [done|].
    destruct (proj1 (Hh i) ltac:(apply list_elem_of_here)) as (t & Hi & Ht).
    rewrite (existsb_false_lookup _ _ _ _ Hact Hi) in Ht. discriminate. }
  assert (Hall : forallb isReturned (tasks s) = true).
  { apply forallb_forall. intros t Hin.
    apply list_elem_of_In, list_elem_of_lookup_1 in Hin as [i Hi].
    pose proof (existsb_false_lookup _ _ _ _ Hact Hi) as H1.
    pose proof (existsb_false_lookup _ _ _ _ Hthrown Hi) as H2.
    destruct t as [| | | |[|e]]; try discriminate; try reflexivity.
    - destruct (L3 i Hi) as [?|(k & ? & _)]; congruence.
    - apply L2 in Hi. unfold conserving in L1.
      assert (Sem.queue (semaphore s) <> [])
        by (intros Hq; rewrite Hq in Hi; inversion Hi).
      specialize (L1 ltac:(done)). unfold Sem.executing in Hsum.
      rewrite Hholders in Hsum. simpl in Hsum. lia. }
  exists (Settle None). simpl. rewrite Hl, Hall. eauto.
Qed.

(** From a state that satisfies the invariants, the steps left are enough
    to reach a result. *)
Lemma pipeline_completes m : forall s,
  (1 <= capacity)%Z -> stepsLeft config chunks s <= m ->
  permitInv chunks s -> balanced capacity (semaphore s) -> liveInv s ->
  exists rest s',
    Forall (fun l => isAbort l = false) rest
    /\ run config chunks work rest s = Some s'
    /\ outcome s' <> None
    /\ length rest <= stepsLeft config chunks s.
Proof.
  induction m as [|m IH]; intros s Hcap Hm Hperm Hbal Hlive;
    (destruct (outcome s) as [o|] eqn:Hout;
     [exists [], s; split; [constructor|];
      split; [reflexivity|]; split; [by rewrite Hout|simpl; lia]|]);
    destruct (pipeline_progress s Hcap Hperm Hbal Hlive Hout)
      as (l & s1 & Hl & Hstep);
    pose proof (stepsLeft_step _ _ _ _ _ _ Hperm Hstep) as Hdec;
    rewrite Hl in Hdec; [lia|].
  destruct (IH s1 Hcap ltac:(lia)
              (step_permitInv _ _ _ _ _ _ Hperm Hstep)
              (pipeline_step_balanced _ _ _ _ _ _ _ Hbal Hstep)
              (step_liveInv _ _ _ Hperm Hlive Hstep))
    as (rest & s' & Hall & Hrun & Hres & Hlen).
  exists (l :: rest), s'. split; [by constructor|].
  split; [simpl; by rewrite Hstep|]. split; [exact Hres|simpl; lia].
Qed.

Lemma run_liveInv trace : forall s s',
  permitInv chunks s -> liveInv s ->
  run config chunks work trace s = Some s' -> liveInv s'.
Proof.
  induction trace as [|l trace IH]; intros s s' Hperm Hlive Hrun; simpl in Hrun.
  - inversion Hrun; subst; exact Hlive.
  - destruct (step config chunks work l s) as [s1|] eqn:Hstep; [|discriminate].
    eapply IH; [| |exact Hrun].
    + eapply step_permitInv; eauto.
    + eapply step_liveInv; eauto.
Qed.

End ProgressFacts.

(** X22.  With [maxConcurrentChunks >= 1] a run never gets stuck: in
    every state of every run that has not settled, some step other than
    the caller's [abort()] can be taken, and taking such steps leads,
    within the bound of the steps left, to a state in which
    [processLargeFigmaFile] has resolved or rejected. *)
Theorem X22_run_can_always_settle
  (config : Config.ProcessingConfig) (chunks : list (list Tree.FlatNode))
  (work : nat -> Z -> option nat) (now : Z) (trace : list Pipeline.Label)
  (s : Pipeline.State) :
  (1 <= Config.maxConcurrentChunks config)%Z ->
  Pipeline.run config chunks work trace (Pipeline.initial config chunks now) = Some s ->
  (Pipeline.outcome s = None ->
   exists l s', isAbort l = false
                /\ Pipeline.step config chunks work l s = Some s')
  /\ exists rest s',
       Forall (fun l => isAbort l = false) rest
       /\ Pipeline.run config chunks work rest s = Some s'
       /\ Pipeline.outcome s' <> None
       /\ length rest <= stepsLeft config chunks s.
Proof.
  intros Hcap Hrun.
  pose proof (run_permitInv config chunks work trace _ _
                (initial_permitInv config chunks now) Hrun) as Hperm.
  pose proof (pipeline_run_balanced config chunks work _ trace _ _
                (initial_balanced config chunks now) Hrun) as Hbal.
  pose proof (run_liveInv config chunks work trace _ _
                (initial_permitInv config chunks now)
                (initial_liveInv config chunks now) Hrun) as Hlive.
  split.
  - intros Hout. by apply pipeline_progress.
  - eapply pipeline_completes; eauto.
Qed.

Lemma X22_witness :
  (Pipeline.outcome abortedState = None ->
   exists l s', isAbort l = false
                /\ Pipeline.step twoChunksConfig twoChunks neverFails l abortedState
                   = Some s')
  /\ exists rest s',
       Forall (fun l => isAbort l = false) rest
       /\ Pipeline.run twoChunksConfig twoChunks neverFails rest abortedState
          = Some s'
       /\ Pipeline.outcome s' <> None
       /\ length rest <= stepsLeft twoChunksConfig twoChunks abortedState.
Proof.
  apply (X22_run_can_always_settle twoChunksConfig twoChunks neverFails 0
           [Pipeline.LoopStep; Pipeline.Begin 0; Pipeline.LoopStep;
            Pipeline.LoopStep; Pipeline.Abort] abortedState).
  - vm_compute. discriminate.
  - vm_compute. reflexivity.
Defined.

Section HistoryFacts.
Import Pipeline.
Variable config : Config.ProcessingConfig.
Variable chunks : list (list Tree.FlatNode).
Variable work : nat -> Z -> option nat.

Local Abbreviation max := (Config.maxRetriesPerChunk config).

Lemma historyInv_insert s s' i t :
  historyInv config chunks work s -> taskFact max work i t ->
  tasks s' = <[i := t]> (tasks s) -> outcome s' = outcome s ->
  historyInv config chunks work s'.
Proof.
  intros [H1 H2] Ht Hts Ho. unfold historyInv. rewrite Hts, Ho.
  split; [|exact H2]. intros j t' Hj.
  apply list_lookup_insert_Some in Hj as [(-> & <- & _)|[_ Hj]]; eauto.
Qed.

Lemma historyInv_release s s' i r :
  historyInv config chunks work s -> taskFact max work i (Done r) ->
  releasePermit i r s = Some s' -> historyInv config chunks work s'.
Proof.
  intros Hinv Hr Hrel.
  apply releasePermit_frame in Hrel as (_ & _ & _ & Ho & Hts).
  set (s1 := setTasks (<[i := Done r]> (tasks s)) s).
  assert (H1 : historyInv config chunks work s1)
    by (eapply historyInv_insert; eauto).
  destruct (Sem.queue (semaphore s)) as [|next rest].
  - destruct H1 as [H1 H2]. split; [by rewrite Hts|by rewrite Ho].
  - eapply (historyInv_insert s1 s' next (Ready 0)); [exact H1| |exact Hts|exact Ho].
    simpl. split; [lia|]. split; [lia|]. intros a' Ha'. lia.
Qed.

Lemma step_historyInv l s s' :
  permitInv chunks s -> historyInv config chunks work s ->
  step config chunks work l s = Some s' ->
  historyInv config chunks work s'.
Proof.
  intros Hperm Hinv Hstep. pose proof Hinv as [H1 H2].
  pose proof Hperm as (Hlen & _).
  destruct l as [|i|i| |[i|]]; simpl in Hstep.
  - destruct (loop s) as [i| |] eqn:Hl; try discriminate.
    destruct (Nat.ltb_spec i (length chunks)); [destruct (signalAborted s)|];
      inversion Hstep; subst; clear Hstep.
    + split; [exact H1|]. simpl. intros code H'. discriminate.
    + eapply historyInv_insert; [exact Hinv| |reflexivity|reflexivity].
      destruct (0 <? _)%Z; simpl; [|done].
      split; [lia|]. split; [lia|]. intros a' Ha'. lia.
    + exact Hinv.
  - destruct (tasks s !! i) as [[| |a|a|r]|] eqn:Hi; try discriminate.
    pose proof (H1 _ _ Hi) as (Ha0 & Hamax & Hfail).
    destruct (Z.ltb_spec a max); [destruct (signalAborted s)|].
    + eapply historyInv_release; [exact Hinv| |exact Hstep]. exact I.
    + inversion Hstep; subst.
      eapply historyInv_insert; [exact Hinv| |reflexivity|reflexivity].
      simpl. split; [lia|exact Hfail].
    + eapply historyInv_release; [exact Hinv| |exact Hstep].
      simpl. intros Hmax. specialize (Hamax Hmax). lia.
  - destruct (tasks s !! i) as [[| |a|a|r]|] eqn:Hi; try discriminate.
    pose proof (H1 _ _ Hi) as (Ha0 & Hfail).
    destruct (work i a) as [code|] eqn:Hw;
      [destruct (Z.geb_spec (a + 1) max)|].
    + eapply historyInv_release; [exact Hinv| |exact Hstep].
      simpl. exists a. repeat split; auto; lia.
    + inversion Hstep; subst.
      eapply historyInv_insert; [exact Hinv| |reflexivity|reflexivity].
      simpl. split; [lia|]. split; [lia|]. intros a' Ha'.
      destruct (decide (a' = a)) as [->|Hne]; [congruence|apply Hfail; lia].
    + eapply (historyInv_release (record (chunks !!! i) s));
        [exact Hinv| |exact Hstep].
      simpl. intros Hmax. exists a. done.
  - inversion Hstep; subst. exact Hinv.
  - destruct (loop s); try discriminate.
    destruct (tasks s !! i) as [[| | | |[|e]]|] eqn:Hi; try discriminate.
    inversion Hstep; subst. split; [exact H1|]. simpl.
    intros code H'. inversion H'; subst. exists i. split.
    + apply lookup_lt_Some in Hi. lia.
    + exact (H1 _ _ Hi).
  - destruct (loop s); try discriminate.
    destruct (forallb _ _); inversion Hstep; subst.
    split; [exact H1|]. simpl. intros code H'. discriminate.
Qed.

Lemma initial_historyInv now :
  historyInv config chunks work (initial config chunks now).
Proof.
  split; simpl.
  - intros i t H. apply lookup_replicate in H as [-> _]. exact I.
  - intros code H. discriminate.
Qed.

Lemma run_historyInv trace : forall s s',
  permitInv chunks s -> historyInv config chunks work s ->
  run config chunks work trace s = Some s' ->
  historyInv config chunks work s'.
Proof.
  induction trace as [|l trace IH]; intros s s' Hperm Hinv Hrun; simpl in Hrun.
  - inversion Hrun; subst; exact Hinv.
  - destruct (step config chunks work l s) as [s1|] eqn:Hstep; [|discriminate].
    eapply IH; [| |exact Hrun].
    + eapply step_permitInv; eauto.
    + eapply step_historyInv; eauto.
Qed.

Lemma initial_unabortedInv now : unabortedInv (initial config chunks now).
Proof.
  split; [reflexivity|]. split; [|discriminate].
  simpl. apply Forall_replicate. discriminate.
Qed.

Lemma abort_in_trace (trace : list Label) :
  existsb isAbort trace = true -> Abort ∈ trace.
Proof.
  intros H. apply existsb_exists in H as (l & Hin & Hl).
  destruct l; try discriminate. by apply list_elem_of_In.
Qed.

Lemma abort_not_in_trace (trace : list Label) :
  existsb isAbort trace = false -> Abort ∉ trace.
Proof.
  intros H Hin. apply list_elem_of_In in Hin.
  assert (existsb isAbort trace = true); [|congruence].
  apply existsb_exists. exists Abort. by split.
Qed.

End HistoryFacts.

(** X23.  How the callback of a chunk ended says what happened to its
    attempts, in every run: it returned (with at least one attempt
    allowed) only if an attempt within [maxRetriesPerChunk] succeeded
    after all the attempts before it had failed; it threw a failure only
    if every allowed attempt failed, and the failure thrown is that of the
    last one; it threw AbortError only if [abort()] was called. *)
Theorem X23_task_result_reflects_the_attempts
  (config : Config.ProcessingConfig) (chunks : list (list Tree.FlatNode))
  (work : nat -> Z -> option nat) (now : Z) (trace : list Pipeline.Label)
  (s : Pipeline.State) (i : nat) (r : Retry.Result) :
  Pipeline.run config chunks work trace (Pipeline.initial config chunks now) = Some s ->
  Pipeline.tasks s !! i = Some (Pipeline.Done r) ->
  match r with
  | Retry.Returned =>
      (1 <= Config.maxRetriesPerChunk config)%Z ->
      exists a, (0 <= a < Config.maxRetriesPerChunk config)%Z
                /\ work i a = None /\ failedBefore work i a
  | Retry.Threw (Retry.WorkError code) =>
      (1 <= Config.maxRetriesPerChunk config)%Z
      /\ work i (Config.maxRetriesPerChunk config - 1)%Z = Some code
      /\ failedBefore work i (Config.maxRetriesPerChunk config)
  | Retry.Threw Retry.AbortError => Pipeline.Abort ∈ trace
  end.
Proof.
  intros Hrun Hi.
  destruct (run_historyInv config chunks work trace _ _
              (initial_permitInv config chunks now)
              (initial_historyInv config chunks work now) Hrun) as [H1 _].
  pose proof (H1 _ _ Hi) as Hfact.
  destruct r as [|[|code]]; simpl in Hfact.
  - exact Hfact.
  - destruct (existsb isAbort trace) eqn:Hab; [by apply abort_in_trace|].
    apply abort_not_in_trace in Hab.
    destruct (run_unabortedInv config chunks work trace _ _ Hab
                (initial_unabortedInv config chunks now) Hrun) as (_ & Hts & _).
    destruct (Forall_lookup_1 _ _ _ _ Hts Hi eq_refl).
  - destruct Hfact as (a & Ha0 & Hlast & Hw & Hfail).
    assert (Hmax : (1 <= Config.maxRetriesPerChunk config)%Z) by lia.
    assert (a = (Config.maxRetriesPerChunk config - 1)%Z) by lia. subst a.
    split; [exact Hmax|]. split; [exact Hw|].
    intros a' Ha'.
    destruct (decide (a' = (Config.maxRetriesPerChunk config - 1)%Z)) as [->|Hne];
      [congruence|apply Hfail; lia].
Qed.

Lemma X23_witness :
  (1 <= Config.maxRetriesPerChunk twoChunksConfig)%Z
  /\ secondChunkFails 1 (Config.maxRetriesPerChunk twoChunksConfig - 1)%Z = Some 7
  /\ failedBefore secondChunkFails 1 (Config.maxRetriesPerChunk twoChunksConfig).
Proof.
  apply (X23_task_result_reflects_the_attempts twoChunksConfig twoChunks
           secondChunkFails 0 failingSchedule failedState 1
           (Retry.Threw (Retry.WorkError 7))).
  - vm_compute. reflexivity.
  - reflexivity.
Defined.

(** X24.  A run in which [abort()] is not called and every chunk has a
    successful attempt within [maxRetriesPerChunk] cannot reject, and with
    [maxConcurrentChunks >= 1] it can always be brought to its end: from
    every state of such a run, steps of the run itself lead to a resolved
    result. *)
Theorem X24_run_without_abort_or_exhaustion_resolves
  (config : Config.ProcessingConfig) (chunks : list (list Tree.FlatNode))
  (work : nat -> Z -> option nat) (now : Z) (trace : list Pipeline.Label)
  (s : Pipeline.State) :
  (1 <= Config.maxConcurrentChunks config)%Z ->
  (forall i, i < length chunks ->
             succeeded (Config.maxRetriesPerChunk config) work i) ->
  Pipeline.Abort ∉ trace ->
  Pipeline.run config chunks work trace (Pipeline.initial config chunks now) = Some s ->
  (forall e, Pipeline.outcome s <> Some (Pipeline.RejectedWith e))
  /\ exists rest s' d,
       (Pipeline.Abort ∉ rest)
       /\ Pipeline.run config chunks work rest s = Some s'
       /\ Pipeline.outcome s' = Some (Pipeline.Resolved d).
Proof.
  intros Hcap Hwork Hno Hrun.
  assert (Hnever : forall tr s0 s1,
             permitInv chunks s0 -> historyInv config chunks work s0 ->
             unabortedInv s0 -> Pipeline.Abort ∉ tr ->
             Pipeline.run config chunks work tr s0 = Some s1 ->
             forall e, Pipeline.outcome s1 <> Some (Pipeline.RejectedWith e)).
  { intros tr s0 s1 Hperm Hhist Hun Htr Hr e He.
    destruct (run_unabortedInv config chunks work tr _ _ Htr Hun Hr)
      as (_ & _ & Hab).
    destruct (run_historyInv config chunks work tr _ _ Hperm Hhist Hr)
      as [_ H2].
    destruct e as [|code]; [done|].
    destruct (H2 code He) as (i & Hi & a & Ha0 & Hlast & Hw & Hfail).
    destruct (Hwork i Hi) as (a0 & Ha & Hw0 & _).
    destruct (decide (a0 = a)) as [->|Hne]; [congruence|].
    apply (Hfail a0); [lia|exact Hw0]. }
  pose proof (run_permitInv config chunks work trace _ _
                (initial_permitInv config chunks now) Hrun) as Hperm.
  pose proof (run_historyInv config chunks work trace _ _
                (initial_permitInv config chunks now)
                (initial_historyInv config chunks work now) Hrun) as Hhist.
  pose proof (run_unabortedInv config chunks work trace _ _ Hno
                (initial_unabortedInv config chunks now) Hrun) as Hun.
  split.
  - eapply Hnever; [apply initial_permitInv|apply initial_historyInv
                    |apply initial_unabortedInv|exact Hno|exact Hrun].
  - destruct (pipeline_completes config chunks work _ s Hcap (Nat.le_refl _) Hperm
                (pipeline_run_balanced config chunks work _ trace _ _
                   (initial_balanced config chunks now) Hrun)
                (run_liveInv config chunks work trace _ _
                   (initial_permitInv config chunks now)
                   (initial_liveInv config chunks now) Hrun))
      as (rest & s' & Hall & Hrest & Hout & _).
    assert (Hnorest : Pipeline.Abort ∉ rest).
    { intros Hin. rewrite Forall_forall in Hall.
      specialize (Hall _ Hin). discriminate. }
    destruct (Pipeline.outcome s') as [[d|e]|] eqn:Ho; [|exfalso|done].
    + exists rest, s', d. done.
    + eapply (Hnever rest s s'); eauto.
Qed.

Lemma X24_witness :
  (forall e, Pipeline.outcome secondChunkReady
             <> Some (Pipeline.RejectedWith e))
  /\ exists rest s' d,
       (Pipeline.Abort ∉ rest)
       /\ Pipeline.run twoChunksConfig twoChunks neverFails rest secondChunkReady
          = Some s'
       /\ Pipeline.outcome s' = Some (Pipeline.Resolved d).
Proof.
  apply (X24_run_without_abort_or_exhaustion_resolves twoChunksConfig twoChunks
           neverFails 0
           [Pipeline.LoopStep; Pipeline.Begin 0; Pipeline.LoopStep;
            Pipeline.LoopStep; Pipeline.Finish 0] secondChunkReady).
  - vm_compute. discriminate.
  - intros i _. exists 0%Z. split; [vm_compute; split; [discriminate|reflexivity]|].
    split; [reflexivity|]. intros a' Ha'. lia.
  - apply abort_not_in_trace. reflexivity.
  - vm_compute. reflexivity.
Defined.

(** ** The worker, again *)

Section MoreWorkerFacts.
Import Worker.

Lemma handleMessage_spec m w :
  processedNodes (handleMessage m w) = processedNodes w
  /\ posted (handleMessage m w) = posted w
  /\ (isProcessing (handleMessage m w) = true -> isProcessing w = true)
  /\ (m <> PAUSE -> isPaused w = false -> isPaused (handleMessage m w) = false)
  /\ (m = PAUSE -> isPaused w = true -> isProcessing w = true ->
      isPaused (handleMessage m w) = true
      /\ isProcessing (handleMessage m w) = true).
Proof. destruct m; simpl; repeat split; auto; try done. Qed.

Lemma deliver_spec ms : forall w,
  processedNodes (deliver ms w) = processedNodes w
  /\ posted (deliver ms w) = posted w
  /\ (isProcessing (deliver ms w) = true -> isProcessing w = true)
  /\ (PAUSE ∉ ms -> isPaused w = false -> isPaused (deliver ms w) = false)
  /\ (Forall (fun m => m = PAUSE) ms -> isPaused w = true ->
      isProcessing w = true ->
      isPaused (deliver ms w) = true /\ isProcessing (deliver ms w) = true).
Proof.
  induction ms as [|m ms IH]; intros w; [done|].
  destruct (handleMessage_spec m w) as (H1 & H2 & H3 & H4 & H5).
  destruct (IH (handleMessage m w)) as (I1 & I2 & I3 & I4 & I5).
  unfold deliver in *. simpl. rewrite I1, I2, H1, H2.
  split; [reflexivity|]. split; [reflexivity|]. split; [auto|]. split.
  - intros Hno Hp. apply not_elem_of_cons in Hno as [Hm Hno]. auto.
  - intros Hall Hp Hq. apply Forall_cons in Hall as [Hm Hms].
    destruct (H5 Hm Hp Hq) as [Hp' Hq']. apply I5; auto.
Qed.




Lemma processLoop_cons fuel inbox total node rest t w :
  processLoop fuel inbox total (node :: rest) t w
  = if negb (isProcessing w) then Some (w, t)
    else match waitWhilePaused fuel inbox t w with
         | None => None
         | Some (w1, t1) =>
             let w3 := countOne (deliver (inbox t1) w1) in
             processLoop fuel inbox total rest (S t1)
               (if (processedNodes w3 mod 10 =? 0) || (processedNodes w3 =? total)
                then post RealTime.PROGRESS w3 else w3)
         end.
Proof. reflexivity. Qed.


Lemma waitWhilePaused_running fuel inbox t w :
  isPaused w = false -> waitWhilePaused fuel inbox t w = Some (w, t).
Proof. intros H. destruct fuel; simpl; rewrite H; reflexivity. Qed.

Lemma processLoop_never_paused fuel inbox total :
  (forall t, PAUSE ∉ inbox t) ->
  forall nodes t w,
    isPaused w = false ->
    exists w' t', processLoop fuel inbox total nodes t w = Some (w', t').
Proof.
  intros Hno. induction nodes as [|node rest IH]; intros t w Hp; [simpl; eauto|].
  rewrite processLoop_cons.
  destruct (isProcessing w); cbn [negb]; [|eauto].
  rewrite (waitWhilePaused_running fuel inbox t w Hp). cbv zeta.
  apply IH. destruct (deliver_spec (inbox t) w) as (_ & _ & _ & D4 & _).
  destruct (_ || _); simpl; auto.
Qed.

Lemma waitWhilePaused_forever inbox fuel : forall t w,
  isPaused w = true -> isProcessing w = true ->
  (forall t', t <= t' -> Forall (fun m => m = PAUSE) (inbox t')) ->
  waitWhilePaused fuel inbox t w = None.
Proof.
  induction fuel as [|fuel IH]; intros t w Hp Hq Hin; simpl; rewrite Hp, Hq;
    simpl; [reflexivity|].
  destruct (deliver_spec (inbox t) w) as (_ & _ & _ & _ & D5).
  destruct (D5 (Hin t (Nat.le_refl t)) Hp Hq) as [Hp' Hq'].
  apply IH; auto. intros t' Ht'. apply Hin. lia.
Qed.

End MoreWorkerFacts.



(** X26.  The worker's pause is a poll.  If no PAUSE is ever received the
    run returns, whatever else is received; and a worker that is paused
    waits for as long as it receives neither RESUME nor STOP: the wait
    does not end by itself. *)
Theorem X26_worker_returns_unless_paused
  (inbox : nat -> list Worker.WorkerMessage) :
  ((forall t, Worker.PAUSE ∉ inbox t) ->
   forall fuel document,
     exists w, Worker.startProcessing fuel inbox document = Some w)
  /\ (forall t w,
        Worker.isPaused w = true -> Worker.isProcessing w = true ->
        (forall t', t <= t' -> Forall (fun m => m = Worker.PAUSE) (inbox t')) ->
        forall fuel, Worker.waitWhilePaused fuel inbox t w = None).
Proof.
  split.
  - intros Hno fuel document. unfold Worker.startProcessing.
    destruct (RealTime.flattenNodes document) as [nodes|]; [|eauto].
    destruct (processLoop_never_paused fuel inbox (length nodes) Hno nodes 0
                {| Worker.isPaused := false; Worker.isProcessing := true;
                   Worker.processedNodes := 0; Worker.posted := [] |} eq_refl)
      as (w' & t' & ->).
    eauto.
  - intros t w Hp Hq Hin fuel. by apply waitWhilePaused_forever.
Qed.

Lemma X26_witness :
  (exists w, Worker.startProcessing 0 (fun _ => [Worker.RESUME]) threeNodes = Some w)
  /\ Worker.waitWhilePaused 5 (fun _ => [Worker.PAUSE]) 0
       {| Worker.isPaused := true; Worker.isProcessing := true;
          Worker.processedNodes := 1; Worker.posted := [] |} = None.
Proof.
  split.
  - apply (X26_worker_returns_unless_paused (fun _ => [Worker.RESUME])).
    intros t Hin. apply list_elem_of_singleton in Hin. discriminate.
  - apply (X26_worker_returns_unless_paused (fun _ => [Worker.PAUSE])).
    + reflexivity.
    + reflexivity.
    + intros t' _. by constructor.
Defined.

Lemma X15_witness :
  let p := {| RealTime.objects := [RealTime.mkSession "s" 7 3 0 RealTime.active];
              RealTime.sessions := {["s" := 0]};
              RealTime.workers := ∅;
              RealTime.emitted := [] |} in
  (forall op,
      RealTime.getSession (RealTime.perform "t" op p) "s"
      = RealTime.getSession p "s")
  /\ (forall hasWorker document now p',
        RealTime.startProcessing hasWorker document "t" now p = Some p' ->
        RealTime.getSession p' "s" = RealTime.getSession p "s")
  /\ (forall batchSize document during after p',
        RealTime.processInMainThread batchSize document "t" during after p
        = Some p' ->
        RealTime.getSession p' "s" = RealTime.getSession p "s").
Proof.
  apply (X15_sessions_are_isolated _ "t" "s").
  - apply (reach_start RealTime.empty false threeNodes "s" 7);
      [apply reach_empty|reflexivity].
  - discriminate.
Defined.

(** ** Listeners and the event log *)

Section ListenerFacts.
Import Listeners.

Lemma indexOf_Some listener : forall listeners index,
  indexOf listener listeners = Some index ->
  exists before after,
    listeners = before ++ listener :: after
    /\ (listener ∉ before) /\ length before = index.
Proof.
  induction listeners as [|x rest IH]; intros index H; [discriminate|].
  simpl in H. destruct (Nat.eqb_spec x listener) as [->|Hne].
  - inversion H; subst. exists [], rest. split; [done|]. split; [|done].
    apply not_elem_of_nil.
  - destruct (indexOf listener rest) as [k|] eqn:Hk; [|discriminate].
    inversion H; subst. destruct (IH k eq_refl) as (b & a & -> & Hb & <-).
    exists (x :: b), a. split; [done|]. split; [|done].
    apply not_elem_of_cons. split; [congruence|exact Hb].
Qed.

Lemma indexOf_None listener : forall listeners,
  indexOf listener listeners = None <-> listener ∉ listeners.
Proof.
  induction listeners as [|x rest IH]; simpl.
  - split; [intros _; apply not_elem_of_nil|done].
  - destruct (Nat.eqb_spec x listener) as [->|Hne].
    + split; [discriminate|]. intros H. destruct H. apply list_elem_of_here.
    + rewrite not_elem_of_cons. destruct (indexOf listener rest) eqn:Hk; simpl.
      * split; [discriminate|]. intros [_ H]. apply IH in H. discriminate.
      * split; [|done]. intros _. split; [congruence|]. by apply IH.
Qed.

Lemma first_occurrence (x : nat) : forall before after before' after',
  before ++ x :: after = before' ++ x :: after' ->
  x ∉ before -> x ∉ before' -> before = before' /\ after = after'.
Proof.
  induction before as [|y before IH]; intros after [|y' before'] after' Heq H H';
    simpl in Heq; inversion Heq; subst.
  - done.
  - destruct H'. apply list_elem_of_here.
  - destruct H. apply list_elem_of_here.
  - apply not_elem_of_cons in H as [_ H]. apply not_elem_of_cons in H' as [_ H'].
    destruct (IH _ _ _ H2 H H') as [-> ->]. done.
Qed.

Lemma splice_middle (before after : list nat) x :
  splice (length before) (before ++ x :: after) = before ++ after.
Proof.
  unfold splice. rewrite take_app_length. f_equal.
  rewrite (cons_middle x before after), app_assoc.
  replace (S (length before)) with (length (before ++ [x]))
    by (rewrite length_app; simpl; lia).
  apply drop_app_length.
Qed.

Lemma emitEvent_add sessionId listener m other :
  emitEvent other (addEventListener sessionId listener m)
  = if decide (other = sessionId)
    then emitEvent sessionId m ++ [listener]
    else emitEvent other m.
Proof.
  unfold emitEvent, addEventListener.
  destruct (m !! sessionId) as [ls|] eqn:Hm; cbv zeta;
    destruct (decide (other = sessionId)) as [->|Hne].
  - by rewrite lookup_alter_eq, Hm.
  - by rewrite lookup_alter_ne.
  - by rewrite lookup_alter_eq, lookup_insert_eq.
  - by rewrite lookup_alter_ne, lookup_insert_ne.
Qed.

Lemma emitEvent_remove sessionId listener m other :
  emitEvent other (removeEventListener sessionId listener m)
  = if decide (other = sessionId)
    then match indexOf listener (emitEvent sessionId m) with
         | Some index => splice index (emitEvent sessionId m)
         | None => emitEvent sessionId m
         end
    else emitEvent other m.
Proof.
  unfold emitEvent, removeEventListener.
  destruct (m !! sessionId) as [ls|] eqn:Hm; simpl.
  - destruct (indexOf listener ls) as [index|].
    + destruct (decide (other = sessionId)) as [->|Hne].
      * by rewrite lookup_insert_eq.
      * by rewrite lookup_insert_ne.
    + destruct (decide (other = sessionId)) as [->|Hne]; [by rewrite Hm|done].
  - destruct (decide (other = sessionId)) as [->|Hne]; [by rewrite Hm|done].
Qed.

End ListenerFacts.

(** X27.  Listeners of a session.  [addEventListener] appends, so the
    listeners are called in the order of their registration, once per
    registration, and only for their session.  [removeEventListener]
    removes the earliest registration of the listener and nothing else: a
    listener registered twice is still called once, the listeners keep
    their order, and removing a listener that is not registered changes
    nothing.  Registering a listener that was not registered and removing
    it again leaves every session with the listeners it had.  After
    [stopProcessing] has deleted the listeners of a session, an event of
    that session is delivered to nobody. *)
Theorem X27_listeners
  (m : Listeners.Registry) (sessionId : string) (listener : nat) :
  (forall other,
      Listeners.emitEvent other (Listeners.addEventListener sessionId listener m)
      = if decide (other = sessionId)
        then Listeners.emitEvent sessionId m ++ [listener]
        else Listeners.emitEvent other m)
  /\ (forall before after,
        Listeners.emitEvent sessionId m = before ++ listener :: after ->
        listener ∉ before ->
        Listeners.emitEvent sessionId
          (Listeners.removeEventListener sessionId listener m)
        = before ++ after)
  /\ (listener ∉ Listeners.emitEvent sessionId m ->
      Listeners.removeEventListener sessionId listener m = m)
  /\ (forall other, other <> sessionId ->
        Listeners.emitEvent other
          (Listeners.removeEventListener sessionId listener m)
        = Listeners.emitEvent other m)
  /\ (listener ∉ Listeners.emitEvent sessionId m ->
      forall other,
        Listeners.emitEvent other
          (Listeners.removeEventListener sessionId listener
             (Listeners.addEventListener sessionId listener m))
        = Listeners.emitEvent other m)
  /\ Listeners.emitEvent sessionId (Listeners.deleteListeners sessionId m) = [].
Proof.
  split; [intros other; apply emitEvent_add|].
  split; [|split; [|split; [|split]]].
  - intros before after Hls Hno. rewrite emitEvent_remove.
    rewrite decide_True by done. rewrite Hls.
    destruct (Listeners.indexOf listener (before ++ listener :: after))
      as [index|] eqn:Hidx.
    + apply indexOf_Some in Hidx as (b & a & Heq & Hb & <-).
      destruct (first_occurrence _ _ _ _ _ Heq Hno Hb) as [<- _].
      apply splice_middle.
    + apply indexOf_None in Hidx. destruct Hidx.
      apply elem_of_app. right. apply list_elem_of_here.
  - intros Hno. unfold Listeners.removeEventListener, Listeners.emitEvent in *.
    destruct (m !! sessionId) as [ls|]; [|done]. simpl in Hno.
    apply indexOf_None in Hno. by rewrite Hno.
  - intros other Hne. rewrite emitEvent_remove. by rewrite decide_False.
  - intros Hno other. rewrite emitEvent_remove.
    destruct (decide (other = sessionId)) as [->|Hne].
    + rewrite !emitEvent_add, decide_True by done.
      destruct (Listeners.indexOf listener (Listeners.emitEvent sessionId m ++ [listener]))
        as [index|] eqn:Hidx.
      * apply indexOf_Some in Hidx as (b & a & Heq & Hb & <-).
        destruct (first_occurrence _ _ _ _ _ Heq Hno Hb) as [<- <-].
        rewrite splice_middle. by rewrite app_nil_r.
      * apply indexOf_None in Hidx. destruct Hidx.
        apply elem_of_app. right. apply list_elem_of_here.
    + rewrite emitEvent_add. by rewrite decide_False.
  - unfold Listeners.emitEvent, Listeners.deleteListeners.
    by rewrite lookup_delete_eq.
Qed.

Lemma X27_witness :
  let m : Listeners.Registry := {["s" := [1; 2; 1]]} in
  Listeners.emitEvent "s" (Listeners.removeEventListener "s" 1 m) = [] ++ [2; 1]
  /\ Listeners.removeEventListener "s" 3 m = m
  /\ Listeners.emitEvent "s"
       (Listeners.removeEventListener "s" 3 (Listeners.addEventListener "s" 3 m))
     = Listeners.emitEvent "s" m.
Proof.
  intros m.
  destruct (X27_listeners m "s" 1) as (_ & Hremove & _).
  destruct (X27_listeners m "s" 3) as (_ & _ & Hnone & _ & Hround & _).
  split; [|split].
  - apply Hremove; [reflexivity|apply not_elem_of_nil].
  - apply Hnone. vm_compute. intros H.
    repeat (apply elem_of_cons in H as [H|H]; [discriminate|]). inversion H.
  - apply Hround. vm_compute. intros H.
    repeat (apply elem_of_cons in H as [H|H]; [discriminate|]). inversion H.
Defined.

Section EventLogFacts.
Import EventLog.
Context {A : Type}.

Lemma slice_0_99 (l : list A) : Chunking.slice l 0 99 = take 99 l.
Proof.
  unfold Chunking.slice, Chunking.relativeIndex. simpl.
  replace (Z.min 0 (Z.of_nat (length l))) with 0%Z by lia.
  rewrite Z.sub_0_r. change (drop (Z.to_nat 0) l) with l.
  destruct (Z.le_gt_cases 99 (Z.of_nat (length l))) as [Hle|Hgt].
  - rewrite Z.min_l by lia. reflexivity.
  - rewrite Z.min_r by lia. rewrite Nat2Z.id. rewrite !take_ge; [done|lia|lia].
Qed.

Lemma eventLog_snoc (events : list A) event :
  eventLog (events ++ [event]) = pushEvent event (eventLog events).
Proof. unfold eventLog. by rewrite fold_left_app. Qed.

End EventLogFacts.

(** X28.  The event log of the component holds the latest events, the
    newest first, and at most one hundred of them: after any sequence of
    events it is the last hundred in reverse order. *)
Theorem X28_event_log_keeps_the_latest_hundred {A : Type} (events : list A) :
  EventLog.eventLog events = take 100 (rev events)
  /\ length (EventLog.eventLog events) = Nat.min 100 (length events).
Proof.
  assert (H : EventLog.eventLog events = take 100 (rev events)).
  { induction events as [|event events IH] using rev_ind; [reflexivity|].
    rewrite eventLog_snoc, IH, rev_app_distr. simpl.
    unfold EventLog.pushEvent. rewrite slice_0_99. f_equal.
    rewrite take_take. reflexivity. }
  split; [exact H|]. rewrite H, length_take, length_rev. reflexivity.
Qed.

(** X29.  [processInMainThread] hands [config.batchSize] to
    [createBatches] unchecked.  After [startProcessing] has registered a
    session, a batch size that is not positive keeps the run in the loop of
    [createBatches] for ever: the call does not return, and the session
    stays [active] with nothing processed. *)
Theorem X29_main_thread_hangs_on_nonpositive_batch_size
  (batchSize : Z) (document : option Tree.FigmaNode) (sessionId : string)
  (now : Z) (during after : nat -> list RealTime.Call)
  (p p0 : RealTime.Processor) :
  (batchSize <= 0)%Z ->
  RealTime.startProcessing false document sessionId now p = Some p0 ->
  RealTime.processInMainThread batchSize document sessionId during after p0 = None
  /\ (exists nodes,
        RealTime.flattenNodes document = Some nodes
        /\ forall fuel, Chunking.createBatches fuel nodes batchSize = None)
  /\ RealTime.getSession p0 sessionId
     = Some (RealTime.mkSession sessionId now (Tree.countNonNull document) 0
               RealTime.active).
Proof.
  intros Hsize Hstart.
  apply startProcessing_spec in Hstart as (total & Hcount & Hs & Ho & _).
  destruct (flattenNodes_countNodes document) as [Hflat Hlen].
  rewrite Hcount in Hlen.
  destruct (RealTime.flattenNodes document) as [nodes|] eqn:Hnodes;
    [|discriminate].
  assert (Hne : nodes <> []).
  { destruct document as [n|]; [|discriminate].
    eapply flattenNodesOf_nonempty; eauto. }
  assert (Hr : RealTime.sessions p0 !! sessionId = Some (length (RealTime.objects p)))
    by (rewrite Hs; apply lookup_insert_eq).
  split; [|split].
  - eapply processInMainThread_diverges; eauto.
  - exists nodes. split; [reflexivity|]. intros fuel.
    by apply createChunks_createBatches_diverge.
  - unfold RealTime.getSession. rewrite Hr, Ho.
    rewrite list_lookup_middle by reflexivity. do 2 f_equal.
    simpl in Hlen. inversion Hlen; subst total.
    destruct (Tree.nullFree document); [|discriminate].
    inversion Hflat; subst nodes. rewrite length_map.
    destruct document as [n|]; [apply flattenNode_length|reflexivity].
Qed.

Lemma X29_witness :
  let p0 := {| RealTime.objects := [RealTime.mkSession "s" 7 3 0 RealTime.active];
               RealTime.sessions := {["s" := 0]};
               RealTime.workers := ∅;
               RealTime.emitted := [] |} in
  RealTime.processInMainThread 0 threeNodes "s" (fun _ => []) (fun _ => []) p0 = None
  /\ (exists nodes,
        RealTime.flattenNodes threeNodes = Some nodes
        /\ forall fuel, Chunking.createBatches fuel nodes 0 = None)
  /\ RealTime.getSession p0 "s"
     = Some (RealTime.mkSession "s" 7 (Tree.countNonNull threeNodes) 0
               RealTime.active).
Proof.
  apply (X29_main_thread_hangs_on_nonpositive_batch_size 0 threeNodes "s" 7
           (fun _ => []) (fun _ => []) RealTime.empty).
  - lia.
  - reflexivity.
Defined.
